(** * MCPImages: the asynchronous job-tracking core of the image tool server

    A shallow embedding of the server module (the file that declares
    [activeJobs], [buildPrompt], [sanitizeFilename], [generateImagesAsync],
    [generateImagesInBackground], [generateImagesSync] and [checkStatus]).

    JavaScript strings are modelled as [string]: a sequence of code units,
    here the code units below 256.  All string functions below act code
    unit by code unit, as the JavaScript ones do. *)

From Stdlib Require Import ZArith String Ascii List Bool Lia.
From stdpp Require Import base option list gmap strings pretty.

Local Open Scope string_scope.
Local Open Scope Z_scope.

(** ** JavaScript string primitives *)

Module Js.

Definition code (c : ascii) : N := N_of_ascii c.

(** [WhiteSpace] and [LineTerminator] code units stripped by
    [String.prototype.trim] (those below 256). *)
Definition is_space (c : ascii) : bool :=
  let n := code c in
  ((9 <=? n) && (n <=? 13) || (n =? 32) || (n =? 160))%N.

Definition is_upper (c : ascii) : bool :=
  let n := code c in ((65 <=? n) && (n <=? 90))%N.

Definition is_lower (c : ascii) : bool :=
  let n := code c in ((97 <=? n) && (n <=? 122))%N.

Definition is_digit (c : ascii) : bool :=
  let n := code c in ((48 <=? n) && (n <=? 57))%N.

(** the character class [a-zA-Z0-9] *)
Definition is_alnum (c : ascii) : bool :=
  is_lower c || is_upper c || is_digit c.

Fixpoint trimStart (s : string) : string :=
  match s with
  | EmptyString => EmptyString
  | String c r => if is_space c then trimStart r else s
  end.

Fixpoint trimEnd (s : string) : string :=
  match s with
  | EmptyString => EmptyString
  | String c r =>
      match trimEnd r with
      | EmptyString => if is_space c then EmptyString else String c EmptyString
      | r' => String c r'
      end
  end.

Definition trim (s : string) : string := trimEnd (trimStart s).

Fixpoint map_chars (f : ascii -> ascii) (s : string) : string :=
  match s with
  | EmptyString => EmptyString
  | String c r => String (f c) (map_chars f r)
  end.

(** [String.prototype.toLowerCase] on code units below 256: the ASCII
    capitals and the Latin-1 capitals (all of 192..222 but 215). *)
Definition lower_char (c : ascii) : ascii :=
  let n := code c in
  if (is_upper c || ((192 <=? n) && (n <=? 222) && negb (n =? 215)))%N
  then ascii_of_N (n + 32) else c.

Definition toLowerCase (s : string) : string := map_chars lower_char s.

(** [s.split(sep)] for a one-character separator: never returns the
    empty array, [split sep ""] is [[""]]. *)
Fixpoint split (sep : ascii) (s : string) : list string :=
  match s with
  | EmptyString => [EmptyString]
  | String c r =>
      if Ascii.eqb c sep then EmptyString :: split sep r
      else match split sep r with
           | h :: t => String c h :: t
           | [] => [String c EmptyString]
           end
  end.

(** truthiness of a string value: [""] is falsy *)
Definition truthy (s : string) : bool :=
  match s with EmptyString => false | _ => true end.

(** truthiness of a possibly [undefined] string *)
Definition truthy_opt (o : option string) : bool :=
  match o with Some s => truthy s | None => false end.

(** an exception value: [error.name] and [error.message] *)
Record Error := mkError { name : string; message : string }.

(** [new Error(msg)] *)
Definition new_Error (msg : string) : Error := mkError "Error" msg.

End Js.

(** ** Prompt and file name construction *)

(** The own properties of the object literal [styles] of [buildPrompt]. *)
Definition styles : list (string * string) :=
  [ ("realistic", "photorealistic, high detail, professional photography, ");
    ("cartoon", "cartoon style, vibrant colors, exaggerated features, ");
    ("abstract", "abstract art, geometric shapes, expressive, ");
    ("minimal", "minimalist, clean lines, simple composition") ].

Definition own_property (o : list (string * string)) (k : string) : option string :=
  snd <$> List.find (fun kv => String.eqb (fst kv) k) o.

(** What a template literal prints for a property read [o[k]]: an own
    property, else a member inherited from [Object.prototype] (whose
    printed form [proto k] is the runtime's), else [undefined]. *)
Inductive PropertyValue :=
| Own (v : string)
| Inherited (printed : string)
| Undefined.

Definition get_property (proto : string -> option string)
    (o : list (string * string)) (k : string) : PropertyValue :=
  match own_property o k with
  | Some v => Own v
  | None => match proto k with
            | Some p => Inherited p
            | None => Undefined
            end
  end.

(** [a || b] on property values: an inherited member is an object or a
    function, hence truthy. *)
Definition or_else (a b : PropertyValue) : PropertyValue :=
  match a with
  | Own v => if Js.truthy v then a else b
  | Inherited _ => a
  | Undefined => b
  end.

(** [`${v}`] *)
Definition print_property (v : PropertyValue) : string :=
  match v with
  | Own s => s
  | Inherited p => p
  | Undefined => "undefined"
  end.

Definition stylePrompt (proto : string -> option string) (style : string) : PropertyValue :=
  or_else (get_property proto styles style) (get_property proto styles "ghibli").

Definition buildPrompt (proto : string -> option string)
    (word style background : string) : string :=
  background ++ " background, " ++ print_property (stylePrompt proto style)
             ++ ", " ++ word.

(** [word.trim().replace(/[^a-zA-Z0-9]/g, '_').toLowerCase()] *)
Definition sanitizeFilename (word : string) : string :=
  Js.toLowerCase
    (Js.map_chars (fun c => if Js.is_alnum c then c else "_"%char) (Js.trim word)).

(** [new Date().toISOString().replace(/[:.]/g, '-')] applied to the ISO string *)
Definition batch_timestamp (iso : string) : string :=
  Js.map_chars
    (fun c => if (Ascii.eqb c ":" || Ascii.eqb c ".")%bool then "-"%char else c) iso.

(** [`${sanitizedWord}_${timestamp}.png`] *)
Definition item_filename (word timestamp : string) : string :=
  sanitizeFilename word ++ "_" ++ timestamp ++ ".png".

(** ** Data model *)

(** [jobInfo.status]: the three string constants the module assigns *)
Inductive Status := started | generating | completed.

Definition Status_eqb (a b : Status) : bool :=
  match a, b with
  | started, started | generating, generating | completed, completed => true
  | _, _ => false
  end.

(** [width] and [height] of a result: [Number(token)] of a token of
    [size.split('x')], the literal [0] of a failure entry, or [undefined]
    when the size has no second token. *)
Inductive Dimension :=
| NumberOf (token : string)
| Literal (z : Z)
| Missing.

Record ItemResult := mkItemResult {
  url : string;
  alt : string;
  width : Dimension;
  height : Dimension;
  filename : string;
  word : string
}.

Record JobRecord := mkJob {
  id : string;
  status : Status;
  totalWords : nat;
  completedWords : nat;
  results : list ItemResult;
  startTime : string;
  provider : string;
  style : string;
  background : string;
  size : string;
  quality : string;
  currentWord : option string;
  endTime : option string
}.

Definition set_status (s : Status) (j : JobRecord) : JobRecord :=
  mkJob (id j) s (totalWords j) (completedWords j) (results j) (startTime j)
        (provider j) (style j) (background j) (size j) (quality j)
        (currentWord j) (endTime j).

Definition set_currentWord (w : option string) (j : JobRecord) : JobRecord :=
  mkJob (id j) (status j) (totalWords j) (completedWords j) (results j) (startTime j)
        (provider j) (style j) (background j) (size j) (quality j)
        w (endTime j).

Definition set_completedWords (n : nat) (j : JobRecord) : JobRecord :=
  mkJob (id j) (status j) (totalWords j) n (results j) (startTime j)
        (provider j) (style j) (background j) (size j) (quality j)
        (currentWord j) (endTime j).

Definition set_endTime (t : option string) (j : JobRecord) : JobRecord :=
  mkJob (id j) (status j) (totalWords j) (completedWords j) (results j) (startTime j)
        (provider j) (style j) (background j) (size j) (quality j)
        (currentWord j) t.

(** [jobInfo.results.push(r)] *)
Definition push_result (r : ItemResult) (j : JobRecord) : JobRecord :=
  mkJob (id j) (status j) (totalWords j) (completedWords j) (results j ++ [r]) (startTime j)
        (provider j) (style j) (background j) (size j) (quality j)
        (currentWord j) (endTime j).

(** The parsed arguments of [generateImages]. *)
Record Options := mkOptions {
  o_words : string;
  o_provider : string;
  o_style : string;
  o_background : string;
  o_size : string;
  o_quality : string;
  o_async : bool
}.

(** The arguments as a caller sends them: every field but [words] may be
    absent. *)
Record Input := mkInput {
  i_words : string;
  i_provider : option string;
  i_style : option string;
  i_background : option string;
  i_size : option string;
  i_quality : option string;
  i_async : option bool
}.

(** [generateImagesSchema.parse(input)]: the defaults of the schema *)
Definition generateImagesSchema_parse (i : Input) : Options :=
  mkOptions (i_words i)
            (default "dalle3" (i_provider i))
            (default "realistic" (i_style i))
            (default "white" (i_background i))
            (default "1024x1024" (i_size i))
            (default "standard" (i_quality i))
            (default true (i_async i)).

(** What the module reads from its surroundings: the [config] object and
    the pieces of the runtime its results depend on. *)
Record Runtime := mkRuntime {
  imageDir : string;
  dalle3_apiKey : option string;       (* process.env.OPENAI_API_KEY *)
  stability_apiKey : option string;    (* process.env.STABILITY_API_KEY *)
  path_join : string -> string -> string;
  object_proto : string -> option string;
  fetch_abort : Js.Error;              (* what an aborted fetch rejects with *)
  axios_abort : Js.Error               (* what an aborted axios call rejects with *)
}.

Definition dalle3_endpoint : string := "https://api.openai.com/v1/images/generations".
Definition stability_endpoint : string :=
  "https://api.stability.ai/v2beta/stable-image/generate/sd3".
Definition stability_ultra : string :=
  "https://api.stability.ai/v2beta/stable-image/generate/ultra".

(** [const [width, height] = size.split('x').map(Number)] *)
Definition size_dims (size : string) : Dimension * Dimension :=
  match Js.split "x" size with
  | w :: h :: _ => (NumberOf w, NumberOf h)
  | [w] => (NumberOf w, Missing)
  | [] => (Missing, Missing)
  end.

Definition is_undefined (d : Dimension) : bool :=
  match d with
  | Missing => true
  | _ => false
  end.

(** what [undefined.toString()] throws; the message is that of V8, the
    engine of Node *)
Definition undefined_toString : Js.Error :=
  Js.mkError "TypeError" "Cannot read properties of undefined (reading 'toString')".

(** [words.split(",").map(w => w.trim()).filter(w => w.length > 0)] *)
Definition parse_words (words : string) : list string :=
  List.filter (fun w => (0 <? String.length w)%nat) (List.map Js.trim (Js.split "," words)).

(** ** Asynchronous programs

    An [async] function body is a finite tree: it writes to the state it
    owns, reads the clock, and suspends at each [await].  Other callers
    run only while it is suspended. *)

Record Response := mkResponse { ok : bool; http_status : Z }.

(** The promises the module awaits.  Payloads carry what the module
    computes itself (prompt, file path, image bytes). *)
Inductive Request :=
| FetchGenerate (endpoint prompt size quality : string)  (* fetch(dalle3.endpoint, ...) *)
| ErrorJson           (* response.json().catch(() => ({})), read at err.error?.message *)
| ImageUrlJson        (* response.json(), read at data.data[0].url *)
| FetchImage (imageUrl : string)                         (* fetch(imageUrl) *)
| ArrayBuffer         (* imgRes.arrayBuffer() *)
| WriteFile (filepath data : string)                     (* fs.writeFile *)
| PostForm (endpoint prompt : string) (w h : Dimension)  (* axios.postForm *)
| FetchStability (endpoint prompt : string) (w h : Dimension)
| ErrorText           (* response.text() *)
| Base64Json.         (* response.json(), read at artifacts[0].base64 or content[0] *)

Definition Reply (r : Request) : Type :=
  match r with
  | FetchGenerate _ _ _ _ => Response
  | ErrorJson => option string
  | ImageUrlJson => string
  | FetchImage _ => bool
  | ArrayBuffer => string
  | WriteFile _ _ => unit
  | PostForm _ _ _ _ => (Z * string)%type
  | FetchStability _ _ _ _ => Response
  | ErrorText => string
  | Base64Json => option string
  end.

(** the two places where the batch runner reads the clock *)
Inductive ClockSite := BatchStart | BatchEnd.

Section Programs.
Context {S : Type}.

Inductive prog : Type :=
| Return
| Throw (e : Js.Error)
| Write (f : S -> S) (k : prog)
| Now (site : ClockSite) (k : string -> prog)
| Await (item : nat) (timer : option Z) (r : Request)
        (k : Reply r + Js.Error -> prog).

(** [const v = await r; k v]: a rejection is thrown at the await *)
Definition await (item : nat) (timer : option Z) (r : Request)
    (k : Reply r -> prog) : prog :=
  Await item timer r (fun x => match x with inl v => k v | inr e => Throw e end).

(** [p; q] *)
Fixpoint seq (p q : prog) : prog :=
  match p with
  | Return => q
  | Throw e => Throw e
  | Write f k => Write f (seq k q)
  | Now c k => Now c (fun t => seq (k t) q)
  | Await i t r k => Await i t r (fun x => seq (k x) q)
  end.

(** [try { p } catch (error) { h error }] *)
Fixpoint try_catch (p : prog) (h : Js.Error -> prog) : prog :=
  match p with
  | Return => Return
  | Throw e => h e
  | Write f k => Write f (try_catch k h)
  | Now c k => Now c (fun t => try_catch (k t) h)
  | Await i t r k => Await i t r (fun x => try_catch (k x) h)
  end.
End Programs.

Arguments prog S : clear implicits.

(** ** The batch runner: [generateImagesInBackground] *)

Definition failure_result (w : string) (error : Js.Error) : ItemResult :=
  {| url := "";
     alt := "Failed to generate image for " ++ w ++ ": " ++ Js.message error;
     width := Literal 0;
     height := Literal 0;
     filename := "";
     word := w |}.

Definition success_result (style size w file filepath : string) : ItemResult :=
  {| url := "file://" ++ filepath;
     alt := style ++ " image of " ++ w;
     width := fst (size_dims size);
     height := snd (size_dims size);
     filename := file;
     word := w |}.

(** the inner [catch (error)] that guards a request armed with a timer *)
Definition on_abort {S} (timeout_message : string) (error : Js.Error) : prog S :=
  if String.eqb (Js.name error) "AbortError"
  then Throw (Js.new_Error timeout_message)
  else Throw error.

Section BatchRunner.
Variable rt : Runtime.
Variables (provider style background size quality : string).
Variable timestamp : string.

(** [case 'dalle3': case 'dall-e-3'] of the background runner: no timer
    is armed for any of its requests. *)
Definition background_dalle (i : nat) (w prompt file filepath : string)
    : prog JobRecord :=
  if negb (Js.truthy_opt (dalle3_apiKey rt))
  then Throw (Js.new_Error "Missing OPENAI_API_KEY")
  else
    await i None (FetchGenerate dalle3_endpoint prompt size quality) (fun response =>
      if negb (ok response) then
        await i None ErrorJson (fun err =>
          Throw (Js.new_Error
                   (if Js.truthy_opt err then default "" err
                    else "HTTP " ++ pretty (http_status response))))
      else
        await i None ImageUrlJson (fun imageUrl =>
        await i None (FetchImage imageUrl) (fun imgRes_ok =>
          if negb imgRes_ok then Throw (Js.new_Error "Download failed")
          else
            await i None ArrayBuffer (fun buffer =>
            await i None (WriteFile filepath buffer) (fun _ =>
            Write (push_result (success_result style size w file filepath))
                  Return))))).

(** [case 'stability'] of the background runner: a 90 s timer aborts
    the form post. *)
Definition background_stability (i : nat) (w prompt file filepath : string)
    : prog JobRecord :=
  if negb (Js.truthy_opt (stability_apiKey rt))
  then Throw (Js.new_Error "Missing STABILITY_API_KEY")
  else
    try_catch
      (await i (Some 90000)
             (PostForm stability_ultra prompt (fst (size_dims size)) (snd (size_dims size)))
             (fun response =>
                if fst response =? 200 then
                  await i None (WriteFile filepath (snd response)) (fun _ =>
                  Write (push_result (success_result style size w file filepath))
                        Return)
                else
                  Throw (Js.new_Error ("Stability API error " ++ pretty (fst response)
                                       ++ ": " ++ snd response))))
      (on_abort "Stability API request timed out after 90 seconds").

(** [switch (provider.toLowerCase())] *)
Definition background_attempt (i : nat) (w : string) : prog JobRecord :=
  let prompt := buildPrompt (object_proto rt) w style background in
  let file := item_filename w timestamp in
  let filepath := path_join rt (imageDir rt) file in
  let p := Js.toLowerCase provider in
  if (String.eqb p "dalle3" || String.eqb p "dall-e-3")%bool
  then background_dalle i w prompt file filepath
  else if String.eqb p "stability"
  then background_stability i w prompt file filepath
  else Throw (Js.new_Error ("Unsupported provider: " ++ provider)).

(** one turn of the [for] loop for [wordList[i] = w], from the loop
    test to [jobInfo.completedWords = i + 1] *)
Definition background_item (i : nat) (w : string) (rest : prog JobRecord)
    : prog JobRecord :=
  Write (set_status generating)
    (Write (set_currentWord (Some w))
       (seq (try_catch (background_attempt i w)
               (fun error => Write (push_result (failure_result w error)) Return))
            (Write (set_completedWords (i + 1)) rest))).

(** the statements after the loop *)
Definition background_finish : prog JobRecord :=
  Write (set_status completed)
    (Now BatchEnd (fun t =>
       Write (set_endTime (Some t))
         (Write (set_currentWord None) Return))).

(** [for (let i = ...; i < wordList.length; i++)], entered at index [i]
    with [ws] the words from index [i] on *)
Fixpoint background_loop (i : nat) (ws : list string) : prog JobRecord :=
  match ws with
  | [] => background_finish
  | w :: rest => background_item i w (background_loop (i + 1) rest)
  end.
End BatchRunner.

(** the body of [generateImagesInBackground] once [jobInfo] is found *)
Definition background_body (rt : Runtime) (wordList : list string)
    (provider style background size quality : string) : prog JobRecord :=
  Now BatchStart (fun iso =>
    background_loop rt provider style background size quality
                    (batch_timestamp iso) 0 wordList).

(** ** Running a program against its surroundings *)

(** How an awaited promise behaves: it settles after [ms] milliseconds,
    fulfilled or rejected, or it never settles. *)
Inductive Settlement (A : Type) :=
| Settles (ms : Z) (v : A + Js.Error)
| Never.
Arguments Settles {A} ms v.
Arguments Never {A}.

(** The surroundings of one run: what each clock read returns and how the
    request [r] issued for item [i] behaves. *)
Record Env := mkEnv {
  clock : ClockSite -> string;
  net : nat -> forall r : Request, Settlement (Reply r)
}.

Definition abort_error (rt : Runtime) (r : Request) : Js.Error :=
  match r with
  | PostForm _ _ _ _ => axios_abort rt
  | _ => fetch_abort rt
  end.

(** What the program sees at an [await] with no timer armed: the
    settlement when there is one; a promise that never settles never
    resumes it. *)
Definition untimed {A} (s : Settlement A) : option (A + Js.Error) :=
  match s with
  | Settles _ v => Some v
  | Never => None
  end.

(** What the program sees at an [await]: with a timer of [b] ms armed
    ([setTimeout(() => controller.abort(), b)]) a request that has not
    settled by then is aborted and rejects with [abort]. *)
Definition deliver {A} (abort : Js.Error) (timer : option Z) (s : Settlement A)
    : option (A + Js.Error) :=
  match timer with
  | None => untimed s
  | Some b =>
      match s with
      | Settles ms v => if ms <? b then Some v else Some (inr abort)
      | Never => Some (inr abort)
      end
  end.

Inductive Outcome :=
| Completed                (* the async function returned *)
| Rejected (e : Js.Error)  (* an exception left the async function *)
| Blocked.                 (* suspended at an await for ever *)

(** A run leaves a trace: every state it writes, and every state that
    was current while it was suspended at an [await] (the only moments
    at which another caller, a status query for one, can run). *)
Inductive Event (S : Type) :=
| Wrote (s : S)
| Suspended (s : S).
Arguments Wrote {S} s.
Arguments Suspended {S} s.

Section Semantics.
Context {S : Type}.
Variable rt : Runtime.

Fixpoint exec (env : Env) (p : prog S) (s : S) : list (Event S) * S * Outcome :=
  match p with
  | Return => ([], s, Completed)
  | Throw e => ([], s, Rejected e)
  | Write f k =>
      let '(tr, s', o) := exec env k (f s) in (Wrote (f s) :: tr, s', o)
  | Now c k => exec env (k (clock env c)) s
  | Await i t r k =>
      match deliver (abort_error rt r) t (net env i r) with
      | Some x => let '(tr, s', o) := exec env (k x) s in (Suspended s :: tr, s', o)
      | None => ([Suspended s], s, Blocked)
      end
  end.

(** how a program ends, whatever state it runs on *)
Fixpoint fate (env : Env) (p : prog S) : Outcome :=
  match p with
  | Return => Completed
  | Throw e => Rejected e
  | Write _ k => fate env k
  | Now c k => fate env (k (clock env c))
  | Await i t r k =>
      match deliver (abort_error rt r) t (net env i r) with
      | Some x => fate env (k x)
      | None => Blocked
      end
  end.

(** The states of a trace, in order. *)
Definition state_of (e : Event S) : S :=
  match e with Wrote s => s | Suspended s => s end.

Definition suspended_states (tr : list (Event S)) : list S :=
  omap (fun e => match e with Suspended s => Some s | Wrote _ => None end) tr.

(** One uninterrupted stretch: run to the next [await] or to the end. *)
Inductive Stop :=
| Returned
| Threw (e : Js.Error)
| Parked (item : nat) (timer : option Z) (r : Request)
         (k : Reply r + Js.Error -> prog S).

Fixpoint run_sync (clk : ClockSite -> string) (p : prog S) (s : S)
    : list S * S * Stop :=
  match p with
  | Return => ([], s, Returned)
  | Throw e => ([], s, Threw e)
  | Write f k => let '(ws, s', st) := run_sync clk k (f s) in (f s :: ws, s', st)
  | Now c k => run_sync clk (k (clk c)) s
  | Await i t r k => ([], s, Parked i t r k)
  end.

End Semantics.

(** ** The synchronous path: [generateImagesSync]

    The same loop over a local [results] array; here both provider
    branches arm a timer for their first request. *)

Section SyncRunner.
Variable rt : Runtime.
Variable base64_decode : string -> string.   (* Buffer.from(s, 'base64') *)
Variables (provider style background size quality : string).
Variable timestamp : string.

Definition push (r : ItemResult) (results : list ItemResult) : list ItemResult :=
  results ++ [r].

Definition sync_dalle (i : nat) (w prompt file filepath : string)
    : prog (list ItemResult) :=
  if negb (Js.truthy_opt (dalle3_apiKey rt))
  then Throw (Js.new_Error "Missing OPENAI_API_KEY")
  else
    try_catch
      (await i (Some 60000) (FetchGenerate dalle3_endpoint prompt size quality)
         (fun response =>
            if negb (ok response) then
              await i None ErrorJson (fun err =>
                Throw (Js.new_Error
                         (if Js.truthy_opt err then default "" err
                          else "HTTP " ++ pretty (http_status response))))
            else
              await i None ImageUrlJson (fun imageUrl =>
              await i None (FetchImage imageUrl) (fun imgRes_ok =>
                if negb imgRes_ok then Throw (Js.new_Error "Download failed")
                else
                  await i None ArrayBuffer (fun buffer =>
                  await i None (WriteFile filepath buffer) (fun _ =>
                  Write (push (success_result style size w file filepath))
                        Return))))))
      (on_abort "DALL-E request timed out after 60 seconds").

Definition sync_stability (i : nat) (w prompt file filepath : string)
    : prog (list ItemResult) :=
  if negb (Js.truthy_opt (stability_apiKey rt))
  then Throw (Js.new_Error "Missing STABILITY_API_KEY")
  else if (is_undefined (fst (size_dims size)) || is_undefined (snd (size_dims size)))%bool
  then Throw undefined_toString   (* [width.toString()], [height.toString()] *)
  else
    try_catch
      (await i (Some 90000)
             (FetchStability stability_endpoint prompt
                             (fst (size_dims size)) (snd (size_dims size)))
         (fun response =>
            if negb (ok response) then
              await i None ErrorText (fun errText =>
                Throw (Js.new_Error ("Stability API error "
                                     ++ pretty (http_status response) ++ ": " ++ errText)))
            else
              await i None Base64Json (fun base64Image =>
                match base64Image with
                | None => Throw (Js.new_Error "No image data returned from Stability API")
                | Some b64 =>
                    await i None (WriteFile filepath (base64_decode b64)) (fun _ =>
                    Write (push (success_result style size w file filepath))
                          Return)
                end)))
      (on_abort "Stability API request timed out after 90 seconds").

Definition sync_attempt (i : nat) (w : string) : prog (list ItemResult) :=
  let prompt := buildPrompt (object_proto rt) w style background in
  let file := item_filename w timestamp in
  let filepath := path_join rt (imageDir rt) file in
  let p := Js.toLowerCase provider in
  if (String.eqb p "dalle3" || String.eqb p "dall-e-3")%bool
  then sync_dalle i w prompt file filepath
  else if String.eqb p "stability"
  then sync_stability i w prompt file filepath
  else Throw (Js.new_Error ("Unsupported provider: " ++ provider)).

(** [for (const word of wordList)], [i] counting the words done *)
Fixpoint sync_loop (i : nat) (ws : list string) : prog (list ItemResult) :=
  match ws with
  | [] => Return
  | w :: rest =>
      seq (try_catch (sync_attempt i w)
             (fun error => Write (push (failure_result w error)) Return))
          (sync_loop (i + 1) rest)
  end.
End SyncRunner.

(** ** The job registry and the tool functions *)

(** A runner suspended at an [await]: the job object it holds, the
    request it waits for and the rest of its body. *)
Record Task := mkTask {
  task_job : nat;
  task_item : nat;
  task_timer : option Z;
  task_request : Request;
  task_cont : Reply task_request + Js.Error -> prog JobRecord
}.

(** The state of the process: the job objects ever allocated (a job
    object is named by its position), the [activeJobs] map from job
    identifier to job object, the suspended runners, and the exceptions
    that left a detached runner. *)
Record World := mkWorld {
  heap : list JobRecord;
  activeJobs : gmap string nat;
  tasks : list Task;
  unhandled : list Js.Error
}.

Definition empty_world : World := mkWorld [] ∅ [] [].

(** how a call of a tool function ends for its caller *)
Inductive CallResult (A : Type) :=
| Returns (a : A)
| Throws (e : Js.Error)
| Hangs.
Arguments Returns {A} a.
Arguments Throws {A} e.
Arguments Hangs {A}.

(** what one call of [generateImages] finds around it *)
Record CallEnv := mkCallEnv {
  ensure_image_dir : Settlement unit;   (* ensureImageDirectory() *)
  ensure_jobs_dir : Settlement unit;    (* ensureJobsDirectory() *)
  date_now : Z;                         (* Date.now() *)
  random36 : string;                    (* Math.random().toString(36).substring(2) *)
  start_iso : string;                   (* new Date().toISOString() *)
  call_env : Env
}.

Definition no_valid_words : Js.Error := Js.new_Error "No valid words provided.".

(** the stretch of a runner from a resumption to its next [await] (or to
    its end), applied to the job object at [l] *)
Definition run_on (w : World) (l : nat) (clk : ClockSite -> string)
    (p : prog JobRecord) (others : list Task) : World :=
  match heap w !! l with
  | None => w
  | Some j =>
      let '(_, j', st) := run_sync clk p j in
      mkWorld (<[l := j']> (heap w)) (activeJobs w)
              (match st with
               | Parked i t r k => others ++ [mkTask l i t r k]
               | _ => others
               end)
              (match st with
               | Threw e => unhandled w ++ [e]
               | _ => unhandled w
               end)
  end.

Definition generateImagesInBackground (rt : Runtime) (w : World)
    (clk : ClockSite -> string) (jobId : string) (wordList : list string)
    (provider style background size quality : string) : World :=
  match activeJobs w !! jobId with
  | None => w
  | Some l =>
      run_on w l clk
             (background_body rt wordList provider style background size quality)
             (tasks w)
  end.

Record AsyncResponse := mkAsyncResponse {
  r_jobId : string;
  r_status : Status;
  r_message : string;
  r_totalWords : nat
}.

(** the [jobInfo] object literal of [generateImagesAsync] *)
Definition new_job (jobId : string) (wordList : list string) (o : Options)
    (start : string) : JobRecord :=
  {| id := jobId; status := started;
     totalWords := length wordList; completedWords := 0;
     results := []; startTime := start;
     provider := o_provider o; style := o_style o;
     background := o_background o; size := o_size o;
     quality := o_quality o;
     currentWord := None; endTime := None |}.

(** the runner as [generateImagesAsync] starts it for the job it made *)
Definition runner_of (rt : Runtime) (wordList : list string) (o : Options)
    : prog JobRecord :=
  background_body rt wordList (o_provider o) (o_style o) (o_background o)
                  (o_size o) (o_quality o).

Definition generateImagesAsync (rt : Runtime) (w : World) (ce : CallEnv) (input : Input)
    : World * CallResult AsyncResponse :=
  let o := generateImagesSchema_parse input in
  let wordList := parse_words (o_words o) in
  if (length wordList =? 0)%nat then (w, Throws no_valid_words)
  else
    match untimed (ensure_image_dir ce) with
    | None => (w, Hangs)
    | Some (inr e) => (w, Throws e)
    | Some (inl _) =>
        match untimed (ensure_jobs_dir ce) with
        | None => (w, Hangs)
        | Some (inr e) => (w, Throws e)
        | Some (inl _) =>
            let jobId := "job_" ++ pretty (date_now ce) ++ "_" ++ random36 ce in
            let jobInfo := new_job jobId wordList o (start_iso ce) in
            let l := length (heap w) in
            let w1 := mkWorld (heap w ++ [jobInfo]) (<[jobId := l]> (activeJobs w))
                              (tasks w) (unhandled w) in
            let w2 := generateImagesInBackground rt w1 (clock (call_env ce)) jobId wordList
                        (o_provider o) (o_style o) (o_background o) (o_size o)
                        (o_quality o) in
            (w2, Returns {| r_jobId := jobId; r_status := started;
                            r_message := "Started generating " ++ pretty (length wordList)
                                         ++ " images using " ++ o_provider o
                                         ++ ". Use checkStatus with jobId to monitor progress.";
                            r_totalWords := length wordList |})
        end
    end.

Definition generateImagesSync (rt : Runtime) (base64_decode : string -> string)
    (ce : CallEnv) (input : Input) : CallResult (list ItemResult) :=
  let o := generateImagesSchema_parse input in
  let wordList := parse_words (o_words o) in
  if (length wordList =? 0)%nat then Throws no_valid_words
  else
    match untimed (ensure_image_dir ce) with
    | None => Hangs
    | Some (inr e) => Throws e
    | Some (inl _) =>
        let timestamp := batch_timestamp (clock (call_env ce) BatchStart) in
        match exec rt (call_env ce)
                   (sync_loop rt base64_decode (o_provider o) (o_style o)
                              (o_background o) (o_size o) (o_quality o)
                              timestamp 0 wordList) [] with
        | (_, results, Completed) => Returns results
        | (_, _, Rejected e) => Throws e
        | (_, _, Blocked) => Hangs
        end
    end.

Definition generateImages (rt : Runtime) (base64_decode : string -> string)
    (w : World) (ce : CallEnv) (input : Input)
    : World * CallResult (AsyncResponse + list ItemResult) :=
  if o_async (generateImagesSchema_parse input) then
    let '(w', r) := generateImagesAsync rt w ce input in
    (w', match r with
         | Returns a => Returns (inl a)
         | Throws e => Throws e
         | Hangs => Hangs
         end)
  else
    (w, match generateImagesSync rt base64_decode ce input with
        | Returns a => Returns (inr a)
        | Throws e => Throws e
        | Hangs => Hangs
        end).

(** the response object of [checkStatus]; a field that is not assigned
    is [None] *)
Record StatusView := mkStatusView {
  v_jobId : string;
  v_status : Status;
  v_totalWords : nat;
  v_completedWords : nat;
  v_progress : string;
  v_startTime : string;
  v_currentWord : option string;
  v_endTime : option string;
  v_results : option (list ItemResult);
  v_successCount : option nat;
  v_failureCount : option nat
}.

Definition report (jobInfo : JobRecord) : StatusView :=
  let done := Status_eqb (status jobInfo) completed in
  {| v_jobId := id jobInfo;
     v_status := status jobInfo;
     v_totalWords := totalWords jobInfo;
     v_completedWords := completedWords jobInfo;
     v_progress := pretty (completedWords jobInfo) ++ "/" ++ pretty (totalWords jobInfo);
     v_startTime := startTime jobInfo;
     v_currentWord :=
       if Js.truthy_opt (currentWord jobInfo) then currentWord jobInfo else None;
     v_endTime := if done then endTime jobInfo else None;
     v_results := if done then Some (results jobInfo) else None;
     v_successCount :=
       if done
       then Some (length (List.filter (fun r => Js.truthy (url r)) (results jobInfo)))
       else None;
     v_failureCount :=
       if done
       then Some (length (List.filter (fun r => negb (Js.truthy (url r))) (results jobInfo)))
       else None |}.

Definition job_not_found (jobId : string) : Js.Error :=
  Js.new_Error ("Job not found: " ++ jobId).

Definition checkStatus (w : World) (jobId : string) : World * CallResult StatusView :=
  match activeJobs w !! jobId ≫= (fun l => heap w !! l) with
  | None => (w, Throws (job_not_found jobId))
  | Some jobInfo => (w, Returns (report jobInfo))
  end.

(** A suspended runner is resumed when its request settles (or its timer
    fires): task [n] runs its next stretch. *)
Definition resume (rt : Runtime) (w : World) (n : nat)
    (answer : forall r : Request, Settlement (Reply r))
    (clk : ClockSite -> string) : World :=
  match tasks w !! n with
  | None => w
  | Some t =>
      match deliver (abort_error rt (task_request t)) (task_timer t)
                    (answer (task_request t)) with
      | None => w
      | Some x => run_on w (task_job t) clk (task_cont t x) (delete n (tasks w))
      end
  end.

(** ** Listing and deleting generated files: [listImages], [deleteImage] *)

(** [c] with an ASCII capital replaced by its small letter: how a
    regular expression with the [i] flag (and without [u]) compares an
    ASCII letter of its pattern with a code unit of its input *)
Definition ascii_lower (c : ascii) : ascii :=
  if Js.is_upper c then ascii_of_N (Js.code c + 32) else c.

Fixpoint is_suffix (suffix s : string) : bool :=
  String.eqb suffix s
  || match s with
     | EmptyString => false
     | String _ r => is_suffix suffix r
     end.

(** [/\.(png|jpe?g)$/i.test(file)] *)
Definition has_image_ext (file : string) : bool :=
  let l := Js.map_chars ascii_lower file in
  is_suffix ".png" l || is_suffix ".jpg" l || is_suffix ".jpeg" l.

(** what [fs.stat] tells of a file; the two instants in milliseconds *)
Record FileStat := mkFileStat {
  st_size : Z;
  st_birthtime : Z;
  st_mtime : Z
}.

(** An entry of the answer of [listImages].  [created] and [modified]
    are the instants whose ISO strings the entry carries
    ([toISOString] and [new Date] are inverse on them). *)
Record ListedImage := mkListedImage {
  li_filename : string;
  li_filepath : string;
  li_size : Z;
  li_created : Z;
  li_modified : Z
}.

(** how a file system call ends: [error.code] and the error *)
Inductive FsResult :=
| FsDone
| FsFailed (code : string) (error : Js.Error)
| FsPending.

(** what the file system and the regular expression engine answer to
    one call of [listImages] or [deleteImage] *)
Record FsEnv := mkFsEnv {
  fs_ensure : Settlement unit;                  (* ensureImageDirectory() *)
  fs_readdir : Settlement (list string);        (* fs.readdir(config.imageDir) *)
  fs_stat : string -> Settlement FileStat;      (* fs.stat(filepath) *)
  new_RegExp_i : string -> Js.Error + (string -> bool);  (* new RegExp(pattern, 'i') *)
  fs_access : string -> FsResult;               (* fs.access(filepath) *)
  fs_unlink : string -> FsResult                (* fs.unlink(filepath) *)
}.

(** the rejection [Promise.all] reports: the earliest one, the leftmost
    of those when several promises reject at the same time *)
Fixpoint first_rejection {A} (ps : list (Settlement A)) : option (Z * Js.Error) :=
  match ps with
  | [] => None
  | p :: rest =>
      match p, first_rejection rest with
      | Settles ms (inr e), Some (ms', e') =>
          if ms' <? ms then Some (ms', e') else Some (ms, e)
      | Settles ms (inr e), None => Some (ms, e)
      | _, r => r
      end
  end.

(** the values of the promises, in order, when all are fulfilled *)
Fixpoint all_fulfilled {A} (ps : list (Settlement A)) : option (list A) :=
  match ps with
  | [] => Some []
  | Settles _ (inl v) :: rest => cons v <$> all_fulfilled rest
  | _ :: _ => None
  end.

Definition settle_time {A} (p : Settlement A) : Z :=
  match p with Settles ms _ => ms | Never => 0 end.

(** [Promise.all(ps)]: rejected as soon as one promise is, fulfilled
    when all are, pending for ever otherwise *)
Definition Promise_all {A} (ps : list (Settlement A)) : Settlement (list A) :=
  match first_rejection ps with
  | Some (ms, e) => Settles ms (inr e)
  | None =>
      match all_fulfilled ps with
      | Some vs => Settles (foldr Z.max 0 (map settle_time ps)) (inl vs)
      | None => Never
      end
  end.

(** [xs.sort(cmp)]: the sort of the language is stable, which for a
    consistent comparator fixes its result; [x] goes before the first
    element it does not have to follow. *)
Fixpoint insert_sorted {A} (cmp : A -> A -> Z) (x : A) (l : list A) : list A :=
  match l with
  | [] => [x]
  | y :: rest => if cmp x y <=? 0 then x :: y :: rest else y :: insert_sorted cmp x rest
  end.

Definition Array_sort {A} (cmp : A -> A -> Z) (l : list A) : list A :=
  foldr (insert_sorted cmp) [] l.

(** [(a, b) => new Date(b.created) - new Date(a.created)] *)
Definition newest_first (a b : ListedImage) : Z := li_created b - li_created a.

(** the mapper of [listImages]: one entry from one [fs.stat] *)
Definition listed (rt : Runtime) (fe : FsEnv) (file : string) : Settlement ListedImage :=
  let filepath := path_join rt (imageDir rt) file in
  match fs_stat fe filepath with
  | Settles ms (inl stats) =>
      Settles ms (inl {| li_filename := file;
                         li_filepath := "file://" ++ filepath;
                         li_size := st_size stats;
                         li_created := st_birthtime stats;
                         li_modified := st_mtime stats |})
  | Settles ms (inr e) => Settles ms (inr e)
  | Never => Never
  end.

(** the file names [listImages] keeps, given the test of its pattern *)
Definition image_files (test : option (string -> bool)) (files : list string)
    : list string :=
  let imageFiles := List.filter has_image_ext files in
  match test with
  | Some t => List.filter t imageFiles
  | None => imageFiles
  end.

Definition listImages (rt : Runtime) (fe : FsEnv) (pattern : option string)
    : CallResult (list ListedImage) :=
  match untimed (fs_ensure fe) with
  | None => Hangs
  | Some (inr e) => Throws e
  | Some (inl _) =>
      match untimed (fs_readdir fe) with
      | None => Hangs
      | Some (inr e) => Throws e
      | Some (inl files) =>
          let compiled :=
            if Js.truthy_opt pattern
            then match new_RegExp_i fe (default "" pattern) with
                 | inl e => inl e
                 | inr test => inr (Some test)
                 end
            else inr None in
          match compiled with
          | inl e => Throws e
          | inr test =>
              match untimed (Promise_all (map (listed rt fe) (image_files test files))) with
              | None => Hangs
              | Some (inr e) => Throws e
              | Some (inl results) => Returns (Array_sort newest_first results)
              end
          end
      end
  end.

Record DeleteResponse := mkDeleteResponse {
  d_success : bool;
  d_message : string
}.

(** the [catch (error)] of [deleteImage] *)
Definition delete_error (filename code : string) (error : Js.Error) : Js.Error :=
  if String.eqb code "ENOENT"
  then Js.new_Error ("Image not found: " ++ filename)
  else Js.new_Error ("Delete failed: " ++ Js.message error).

Definition deleteImage (rt : Runtime) (fe : FsEnv) (filename : string)
    : CallResult DeleteResponse :=
  let filepath := path_join rt (imageDir rt) filename in
  match fs_access fe filepath with
  | FsPending => Hangs
  | FsFailed code error => Throws (delete_error filename code error)
  | FsDone =>
      match fs_unlink fe filepath with
      | FsPending => Hangs
      | FsFailed code error => Throws (delete_error filename code error)
      | FsDone => Returns {| d_success := true; d_message := "Deleted " ++ filename |}
      end
  end.

(** ** The tool handler *)

(** What the four schemas make of the arguments of a request: the parsed
    arguments, or the error [parse] throws. *)
Record ToolArgs := mkToolArgs {
  as_generateImages : Js.Error + Input;
  as_checkStatus : Js.Error + string;
  as_listImages : Js.Error + option string;
  as_deleteImage : Js.Error + string
}.

(** the value a tool returns *)
Inductive ToolValue :=
| JobStarted (r : AsyncResponse)
| Images (rs : list ItemResult)
| JobStatus (v : StatusView)
| Listing (l : list ListedImage)
| Deleted (d : DeleteResponse).

(** the answer to a request: the text of its one content item, and the
    [isError] flag *)
Record ToolResponse := mkToolResponse {
  content_text : string;
  isError : bool
}.

(** the [switch (name)] of the handler, each case with the [parse] of
    its tool in front *)
Definition call_tool (rt : Runtime) (base64_decode : string -> string) (w : World)
    (ce : CallEnv) (fe : FsEnv) (name : string) (args : ToolArgs)
    : World * CallResult ToolValue :=
  if String.eqb name "generateImages" then
    match as_generateImages args with
    | inl e => (w, Throws e)
    | inr input =>
        let '(w', r) := generateImages rt base64_decode w ce input in
        (w', match r with
             | Returns (inl a) => Returns (JobStarted a)
             | Returns (inr rs) => Returns (Images rs)
             | Throws e => Throws e
             | Hangs => Hangs
             end)
    end
  else if String.eqb name "checkStatus" then
    match as_checkStatus args with
    | inl e => (w, Throws e)
    | inr jobId =>
        let '(w', r) := checkStatus w jobId in
        (w', match r with
             | Returns v => Returns (JobStatus v)
             | Throws e => Throws e
             | Hangs => Hangs
             end)
    end
  else if String.eqb name "listImages" then
    match as_listImages args with
    | inl e => (w, Throws e)
    | inr pattern =>
        (w, match listImages rt fe pattern with
            | Returns l => Returns (Listing l)
            | Throws e => Throws e
            | Hangs => Hangs
            end)
    end
  else if String.eqb name "deleteImage" then
    match as_deleteImage args with
    | inl e => (w, Throws e)
    | inr filename =>
        (w, match deleteImage rt fe filename with
            | Returns d => Returns (Deleted d)
            | Throws e => Throws e
            | Hangs => Hangs
            end)
    end
  else (w, Throws (Js.new_Error ("Unknown tool: " ++ name))).

(** The handler of [CallToolRequestSchema]: [stringify] is
    [JSON.stringify(result, null, 2)]. *)
Definition handle_call (rt : Runtime) (base64_decode : string -> string)
    (stringify : ToolValue -> string) (w : World) (ce : CallEnv) (fe : FsEnv)
    (name : string) (args : ToolArgs) : World * CallResult ToolResponse :=
  let '(w', r) := call_tool rt base64_decode w ce fe name args in
  (w', match r with
       | Returns v => Returns {| content_text := stringify v; isError := false |}
       | Throws error =>
           Returns {| content_text := "Error: " ++ Js.message error; isError := true |}
       | Hangs => Hangs
       end).

(** ** The whole process: tool calls interleaved with runner stretches *)

(** what can happen to the process: a tool call, or the request a
    suspended runner waits for settles *)
Inductive Action :=
| Generate (ce : CallEnv) (input : Input)
| CheckStatus (jobId : string)
| Settle (n : nat) (answer : forall r : Request, Settlement (Reply r))
         (clk : ClockSite -> string).

Definition act (rt : Runtime) (base64_decode : string -> string) (w : World)
    (a : Action) : World :=
  match a with
  | Generate ce input => (generateImages rt base64_decode w ce input).1
  | CheckStatus jobId => (checkStatus w jobId).1
  | Settle n answer clk => resume rt w n answer clk
  end.

Definition reachable (rt : Runtime) (base64_decode : string -> string) (w : World)
    : Prop :=
  exists actions, w = fold_left (act rt base64_decode) actions empty_world.

(** ** Concrete surroundings, for evaluation *)

Definition demo_rt : Runtime :=
  {| imageDir := "/srv/generated-images";
     dalle3_apiKey := Some "sk-openai";
     stability_apiKey := Some "sk-stability";
     path_join := fun a b => a ++ "/" ++ b;
     object_proto := fun _ => None;
     fetch_abort := Js.mkError "AbortError" "This operation was aborted";
     axios_abort := Js.mkError "CanceledError" "canceled" |}.

(** every request is answered, and answered well *)
Definition answer_ok (r : Request) : Settlement (Reply r) :=
  match r with
  | FetchGenerate _ _ _ _ => Settles 1500 (inl (mkResponse true 200))
  | ErrorJson => Settles 5 (inl None)
  | ImageUrlJson => Settles 5 (inl "https://images.example/1.png")
  | FetchImage _ => Settles 300 (inl true)
  | ArrayBuffer => Settles 20 (inl "PNG")
  | WriteFile _ _ => Settles 2 (inl tt)
  | PostForm _ _ _ _ => Settles 4000 (inl (200, "PNG"))
  | FetchStability _ _ _ _ => Settles 4000 (inl (mkResponse true 200))
  | ErrorText => Settles 5 (inl "")
  | Base64Json => Settles 5 (inl (Some "UE5H"))
  end.

(** no request is ever answered *)
Definition answer_never (r : Request) : Settlement (Reply r) := Never.

(** the provider answers 500 to the form post *)
Definition answer_500 (r : Request) : Settlement (Reply r) :=
  match r with
  | PostForm _ _ _ _ => Settles 800 (inl (500, "boom"))
  | r' => answer_ok r'
  end.

(** the first request of a provider call takes 200 s *)
Definition answer_slow (r : Request) : Settlement (Reply r) :=
  match r with
  | FetchGenerate _ _ _ _ => Settles 200000 (inl (mkResponse true 200))
  | PostForm _ _ _ _ => Settles 200000 (inl (200, "PNG"))
  | FetchStability _ _ _ _ => Settles 200000 (inl (mkResponse true 200))
  | r' => answer_ok r'
  end.

Definition demo_clock (c : ClockSite) : string :=
  match c with
  | BatchStart => "2024-05-01T10:20:30.456Z"
  | BatchEnd => "2024-05-01T10:21:00.000Z"
  end.

Definition env_ok : Env := mkEnv demo_clock (fun _ => answer_ok).
Definition env_silent : Env := mkEnv demo_clock (fun _ => answer_never).
(** the provider takes 200 s to answer, then answers well *)
Definition env_slow : Env := mkEnv demo_clock (fun _ => answer_slow).
(** the call for the word at index 1 fails, the others succeed *)
Definition env_second_fails : Env :=
  mkEnv demo_clock (fun i => if (i =? 1)%nat then answer_500 else answer_ok).

(** the Stability endpoint of the synchronous path answers 503 *)
Definition answer_503 (r : Request) : Settlement (Reply r) :=
  match r with
  | FetchStability _ _ _ _ => Settles 800 (inl (mkResponse false 503))
  | ErrorText => Settles 5 (inl "overloaded")
  | r' => answer_ok r'
  end.

(** the synchronous call for the word at index 1 fails, the others succeed *)
Definition env_sync_second_fails : Env :=
  mkEnv demo_clock (fun i => if (i =? 1)%nat then answer_503 else answer_ok).

Definition options_for (words provider : string) : Options :=
  generateImagesSchema_parse
    (mkInput words (Some provider) None None None None None).

Definition demo_call (env : Env) : CallEnv :=
  {| ensure_image_dir := Settles 1 (inl tt);
     ensure_jobs_dir := Settles 1 (inl tt);
     date_now := 1714558830456;
     random36 := "k3x9q0";
     start_iso := "2024-05-01T10:20:30.456Z";
     call_env := env |}.

(** the process after one call of [generateImages] for "cat, dog" *)
Definition world_after_generate : World :=
  act demo_rt (fun s => s) empty_world
      (Generate (demo_call env_ok) (mkInput "cat, dog" None None None None None None)).

(** an image directory with one generated file, one photograph and
    one file that is no image; the photograph is the older one *)
Definition demo_files : list string :=
  ["Dog.JPG"; "notes.txt"; "cat_2024-05-01T10-20-30-456Z.png"].

(** a file system holding [demo_files]; its regular expressions are
    plain words, found anywhere in a name whatever the case, and "["
    does not compile *)
Definition demo_fs : FsEnv :=
  {| fs_ensure := Settles 1 (inl tt);
     fs_readdir := Settles 2 (inl demo_files);
     fs_stat := fun filepath =>
       if String.eqb filepath "/srv/generated-images/Dog.JPG"
       then Settles 1 (inl (mkFileStat 2048 1714000000000 1714000000000))
       else Settles 1 (inl (mkFileStat 1024 1714558830456 1714558831000));
     new_RegExp_i := fun pattern =>
       if String.eqb pattern "["
       then inl (Js.mkError "SyntaxError" "Invalid regular expression: /[/i")
       else inr (fun file =>
                   match String.index 0 (Js.map_chars ascii_lower pattern)
                                      (Js.map_chars ascii_lower file) with
                   | Some _ => true
                   | None => false
                   end);
     fs_access := fun filepath =>
       if String.eqb filepath "/srv/generated-images/Dog.JPG" then FsDone
       else FsFailed "ENOENT" (Js.mkError "Error" "ENOENT: no such file or directory");
     fs_unlink := fun _ => FsDone |}.

(** * Specification vocabulary *)

Section TraceVocabulary.
Context {S : Type}.

(** ** A weakest-precondition calculus over program trees

    [wp W O Q E p s]: started in [s], every write of [p] is a [W]
    step, every state at which [p] is suspended satisfies [O], [p]
    returns only in states satisfying [Q] and throws [e] only in states
    satisfying [E e], whatever the surroundings answer. *)
Fixpoint wp (W : S -> S -> Prop) (O : S -> Prop) (Q : S -> Prop)
    (E : Js.Error -> S -> Prop) (p : prog S) (s : S) : Prop :=
  match p with
  | Return => Q s
  | Throw e => E e s
  | Write f k => W s (f s) /\ wp W O Q E k (f s)
  | Now _ k => forall t, wp W O Q E (k t) s
  | Await _ _ _ k => O s /\ forall x, wp W O Q E (k x) s
  end.

(** A trace is a chain: each write is a [W] step from the state before
    it, each suspension shows the state before it, which satisfies [O]. *)
Fixpoint chain (W : S -> S -> Prop) (O : S -> Prop) (s : S) (tr : list (Event S))
    : Prop :=
  match tr with
  | [] => True
  | Wrote s1 :: rest => W s s1 /\ chain W O s1 rest
  | Suspended s1 :: rest => s1 = s /\ O s /\ chain W O s rest
  end.

(** the state a trace started in [s] ends in *)
Definition last_state (s : S) (tr : list (Event S)) : S :=
  List.last (map state_of tr) s.

Definition ends (O Q : S -> Prop) (E : Js.Error -> S -> Prop) (o : Outcome) (s : S)
    : Prop :=
  match o with
  | Completed => Q s
  | Rejected e => E e s
  | Blocked => O s
  end.

(** consecutive states of a list are related by [R], starting from [s] *)
Fixpoint steps (R : S -> S -> Prop) (s : S) (l : list S) : Prop :=
  match l with
  | [] => True
  | b :: rest => R s b /\ steps R b rest
  end.

End TraceVocabulary.

(** ** The job record along a run *)

(** the moves of [jobInfo.status] the specification allows in one write *)
Definition status_next (a b : Status) : Prop :=
  b = a \/ (a = started /\ b = generating) \/ (a = generating /\ b = completed).

(** what one write of the runner may do to its job record *)
Definition job_step (wordList : list string) (a b : JobRecord) : Prop :=
  status_next (status a) (status b)
  /\ id b = id a
  /\ map word (results b) `prefix_of` wordList
  /\ (completedWords a <= completedWords b)%nat
  /\ (completedWords b <= totalWords b)%nat
  /\ totalWords b = totalWords a
  /\ (results b = results a \/ exists r, results b = (results a ++ [r])%list)
  /\ (status b = completed -> map word (results b) = wordList)
  /\ (endTime b = endTime a
      \/ (endTime a = None /\ is_Some (endTime b)
          /\ status a = completed /\ status b = completed)).

(** the job record while its runner is suspended at an [await] *)
Definition in_flight (j : JobRecord) : Prop :=
  status j = generating
  /\ completedWords j = length (results j)
  /\ (completedWords j < totalWords j)%nat
  /\ endTime j = None
  /\ is_Some (currentWord j).

(** the job record once its runner has returned *)
Definition finished (wordList : list string) (j : JobRecord) : Prop :=
  status j = completed
  /\ completedWords j = totalWords j
  /\ completedWords j = length (results j)
  /\ is_Some (endTime j)
  /\ currentWord j = None
  /\ map word (results j) = wordList.

(** the job record at the loop test, [ws] being the words still to do *)
Definition at_loop_test (wordList : list string) (i : nat) (ws : list string)
    (j : JobRecord) : Prop :=
  totalWords j = length wordList
  /\ completedWords j = i
  /\ length (results j) = i
  /\ endTime j = None
  /\ (map word (results j) ++ ws)%list = wordList
  /\ (status j = generating \/ (status j = started /\ ws <> [])).

(** the entry a successful attempt for [w] pushes *)
Definition pushed_on_success (rt : Runtime) (style size timestamp w : string)
    : ItemResult :=
  success_result style size w (item_filename w timestamp)
                 (path_join rt (imageDir rt) (item_filename w timestamp)).

(** how many writes of a run change [jobInfo.endTime] *)
Fixpoint endTime_writes (prev : JobRecord) (l : list JobRecord) : nat :=
  match l with
  | [] => 0
  | b :: rest =>
      ((if decide (endTime b = endTime prev) then 0 else 1) + endTime_writes b rest)%nat
  end.

Definition job_move (wordList : list string) (a b : JobRecord) : Prop :=
  b = a \/ job_step wordList a b.

Definition status_rank (s : Status) : nat :=
  match s with started => 0 | generating => 1 | completed => 2 end.

(** a later snapshot [b] of the job record seen earlier as [a] *)
Definition job_le (a b : JobRecord) : Prop :=
  id b = id a
  /\ (status_rank (status a) <= status_rank (status b))%nat
  /\ (completedWords a <= completedWords b)%nat
  /\ totalWords b = totalWords a
  /\ results a `prefix_of` results b.

Definition trace_of {S} (x : list (Event S) * S * Outcome) : list (Event S) := x.1.1.
Definition final_of {S} (x : list (Event S) * S * Outcome) : S := x.1.2.
Definition outcome_of {S} (x : list (Event S) * S * Outcome) : Outcome := x.2.

Definition result_of {S} (x : list (Event S) * S * Outcome) : S * Outcome :=
  (final_of x, outcome_of x).

(** the run of the runner on the job record [generateImagesAsync] makes
    for [wordList], against the surroundings [env] *)
Definition run_job (rt : Runtime) (env : Env) (wordList : list string) (o : Options)
    (jobId start : string) : list (Event JobRecord) * JobRecord * Outcome :=
  exec rt env (runner_of rt wordList o) (new_job jobId wordList o start).

(** every state the job record goes through, in order, from its creation *)
Definition history (rt : Runtime) (env : Env) (wordList : list string) (o : Options)
    (jobId start : string) : list JobRecord :=
  new_job jobId wordList o start
  :: map state_of (trace_of (run_job rt env wordList o jobId start)).

(** The states a status query can see once the runner has started: those
    current while the runner is suspended, and the one it ends in. *)
Definition observation_points (rt : Runtime) (env : Env) (wordList : list string)
    (o : Options) (jobId start : string) : list JobRecord :=
  let r := run_job rt env wordList o jobId start in
  (suspended_states (trace_of r) ++ [final_of r])%list.

(** the provider call the runner makes for [wordList[i] = w] *)
Definition attempt_of (rt : Runtime) (env : Env) (o : Options) (i : nat) (w : string)
    : prog JobRecord :=
  background_attempt rt (o_provider o) (o_style o) (o_background o) (o_size o)
                     (o_quality o) (batch_timestamp (clock env BatchStart)) i w.

(** how that call ends: [Completed] with the image written, [Rejected e]
    when it fails with error [e], [Blocked] when it never comes back *)
Definition call_fate (rt : Runtime) (env : Env) (o : Options) (i : nat) (w : string)
    : Outcome :=
  fate rt env (attempt_of rt env o i w).

(** the entry a successful call for [w] records *)
Definition success_entry (rt : Runtime) (env : Env) (o : Options) (w : string)
    : ItemResult :=
  pushed_on_success rt (o_style o) (o_size o) (batch_timestamp (clock env BatchStart)) w.

(** the entry the provider call for [wordList[i] = w] leads to: none
    if the call never comes back *)
Definition item_entry (rt : Runtime) (env : Env)
    (provider style background size quality timestamp : string)
    (i : nat) (w : string) : option ItemResult :=
  match fate rt env (background_attempt rt provider style background size quality
                                        timestamp i w) with
  | Completed => Some (pushed_on_success rt style size timestamp w)
  | Rejected e => Some (failure_result w e)
  | Blocked => None
  end.

(** a job record as a status query may find it *)
Definition job_ok (j : JobRecord) : Prop :=
  in_flight j \/ exists wordList, finished wordList j.

(** a suspended runner: its job record is in flight, and whatever answer
    resumes it, the rest of its body keeps the runner's invariants *)
Definition task_ok (hp : list JobRecord) (t : Task) : Prop :=
  exists j wordList,
    hp !! task_job t = Some j /\ in_flight j
    /\ forall x, wp (job_step wordList) in_flight (finished wordList)
                    (fun _ _ => False) (task_cont t x) j.

Record world_ok (w : World) : Prop := mkWorldOk {
  registry_wf : forall jobId l, activeJobs w !! jobId = Some l -> is_Some (heap w !! l);
  heap_ok : forall l j, heap w !! l = Some j -> job_ok j;
  tasks_ok : Forall (task_ok (heap w)) (tasks w);
  tasks_own : NoDup (task_job <$> tasks w);
  nothing_unhandled : unhandled w = []
}.

(** the number of results with a non-empty location *)
Definition located (rs : list ItemResult) : nat :=
  length (filter (fun r => url r <> "") rs).

(** the error came from preparing the output directories *)
Definition from_file_system (ce : CallEnv) (e : Js.Error) : Prop :=
  (exists ms, ensure_image_dir ce = Settles ms (inr e))
  \/ (exists ms, ensure_jobs_dir ce = Settles ms (inr e)).

(** ** Words and file names *)

(** every code unit of [s] passes [P] *)
Fixpoint all_chars (P : ascii -> bool) (s : string) : bool :=
  match s with
  | EmptyString => true
  | String c r => P c && all_chars P r
  end.

(** the character set of a sanitized word: [a-z], [0-9] and ["_"] *)
Definition safe_char (c : ascii) : bool :=
  Js.is_lower c || Js.is_digit c || Ascii.eqb c "_".

Definition not_comma (c : ascii) : bool := negb (Ascii.eqb c ",").

(** ** Listings *)

(** newest first: every entry is at least as old as those before it *)
Fixpoint newest_to_oldest (l : list ListedImage) : Prop :=
  match l with
  | [] => True
  | a :: rest => Forall (fun b => li_created b <= li_created a) rest /\ newest_to_oldest rest
  end.

(** the entry [listImages] makes of [file] when [fs.stat] answers [st] *)
Definition entry_of_stat (rt : Runtime) (file : string) (st : FileStat) : ListedImage :=
  {| li_filename := file;
     li_filepath := "file://" ++ path_join rt (imageDir rt) file;
     li_size := st_size st;
     li_created := st_birthtime st;
     li_modified := st_mtime st |}.

(** the test [listImages] filters with: that of the pattern when one is
    given (and is not the empty string) and compiles *)
Definition pattern_test (fe : FsEnv) (pattern : option string)
    : option (string -> bool) :=
  if Js.truthy_opt pattern
  then match new_RegExp_i fe (default "" pattern) with
       | inl _ => None
       | inr test => Some test
       end
  else None.

(** ** Jobs, calls and the synchronous path *)

(** the identifier [generateImagesAsync] gives the job it creates *)
Definition job_id_of (ce : CallEnv) : string :=
  "job_" ++ pretty (date_now ce) ++ "_" ++ random36 ce.

(** the fields of a job record that are set at creation *)
Definition same_fixed (a b : JobRecord) : Prop :=
  id b = id a /\ totalWords b = totalWords a /\ startTime b = startTime a
  /\ provider b = provider a /\ style b = style a /\ background b = background a
  /\ size b = size a /\ quality b = quality a.

(** [currentWord] names the word whose entry comes next *)
Definition shows_current_word (wordList : list string) (j : JobRecord) : Prop :=
  is_Some (currentWord j) /\ currentWord j = wordList !! completedWords j.

(** the error every provider call of a job throws before any request
    is made: an unsupported provider, or no key for the chosen one *)
Definition early_error (rt : Runtime) (provider : string) : option Js.Error :=
  let p := Js.toLowerCase provider in
  if (String.eqb p "dalle3" || String.eqb p "dall-e-3")%bool then
    if Js.truthy_opt (dalle3_apiKey rt) then None
    else Some (Js.new_Error "Missing OPENAI_API_KEY")
  else if String.eqb p "stability" then
    if Js.truthy_opt (stability_apiKey rt) then None
    else Some (Js.new_Error "Missing STABILITY_API_KEY")
  else Some (Js.new_Error ("Unsupported provider: " ++ provider)).

(** the provider call of the synchronous path for the word [w] at index [i] *)
Definition sync_attempt_of (rt : Runtime) (base64_decode : string -> string)
    (ce : CallEnv) (input : Input) (i : nat) (w : string) : prog (list ItemResult) :=
  let o := generateImagesSchema_parse input in
  sync_attempt rt base64_decode (o_provider o) (o_style o) (o_background o) (o_size o)
               (o_quality o) (batch_timestamp (clock (call_env ce) BatchStart)) i w.

(** the entry the synchronous path records for a call that ends as [fate] *)
Definition sync_entry (rt : Runtime) (ce : CallEnv) (input : Input) (w : string)
    (fate : Outcome) : ItemResult :=
  match fate with
  | Rejected e => failure_result w e
  | _ => success_entry rt (call_env ce) (generateImagesSchema_parse input) w
  end.

(** two surroundings that give item [i] the same answers, after
    whatever delays *)
Definition same_answers (env env' : Env) (i : nat) : Prop :=
  forall r, untimed (net env i r) = untimed (net env' i r).

(** no request of item [i] is answered within 90 s *)
Definition unanswered (env : Env) (i : nat) : Prop :=
  forall r, match net env i r with
            | Settles ms _ => 90000 <= ms
            | Never => True
            end.

(** * Properties *)

(** ** The model at work *)

Example sanitize_demo : sanitizeFilename "  Red Panda! " = "red_panda_".
Proof. reflexivity. Qed.

Example split_demo : Js.split "," "cat, dog,,x" = ["cat"; " dog"; ""; "x"].
Proof. reflexivity. Qed.

(** a size without a second token: [height.toString()] throws for every
    word of a synchronous Stability call, before any request is made *)
Example sync_size_demo :
  generateImagesSync demo_rt (fun s => s) (demo_call env_ok)
    (mkInput "cat, dog" (Some "stability") None None (Some "512") None (Some false))
  = Returns [failure_result "cat" undefined_toString;
             failure_result "dog" undefined_toString].
Proof. vm_compute. reflexivity. Qed.

Example prompt_demo :
  buildPrompt (fun _ => None) "cat" "cartoon" "white"
  = "white background, cartoon style, vibrant colors, exaggerated features, , cat".
Proof. reflexivity. Qed.

(** ** The program calculus *)

Lemma last_cons_default {A} (l : list A) : forall x d : A,
  List.last (x :: l) d = List.last l x.
Proof.
  induction l as [|a l IH]; intros x d; [reflexivity|].
  change (List.last (a :: l) d = List.last (a :: l) x).
  rewrite (IH a d), (IH a x). reflexivity.
Qed.

Section Calculus.
Context {S : Type}.
Variable rt : Runtime.
Implicit Types (p q : prog S) (s : S).

Lemma wp_mono (W W' : S -> S -> Prop) (O O' Q Q' : S -> Prop)
    (E E' : Js.Error -> S -> Prop) p :
  (forall a b, W a b -> W' a b) -> (forall a, O a -> O' a) ->
  (forall a, Q a -> Q' a) -> (forall e a, E e a -> E' e a) ->
  forall s, wp W O Q E p s -> wp W' O' Q' E' p s.
Proof.
  intros HW HO HQ HE. induction p as [|e|f k IH|c k IH|i t r k IH]; simpl; intros s H.
  - auto.
  - auto.
  - destruct H as [H1 H2]. split; auto.
  - intros t. auto.
  - destruct H as [H1 H2]. split; auto.
Qed.

Lemma wp_seq W O Q E p q s :
  wp W O Q E (seq p q) s <-> wp W O (wp W O Q E q) E p s.
Proof.
  revert s. induction p as [|e|f k IH|c k IH|i t r k IH]; simpl; intros s.
  - reflexivity.
  - reflexivity.
  - rewrite IH. reflexivity.
  - split; intros H t; apply IH, H.
  - split; intros [H1 H2]; (split; [exact H1 | intros x; apply IH, H2]).
Qed.

Lemma wp_try_catch W O Q E p (h : Js.Error -> prog S) s :
  wp W O Q E (try_catch p h) s <-> wp W O Q (fun e => wp W O Q E (h e)) p s.
Proof.
  revert s. induction p as [|e|f k IH|c k IH|i t r k IH]; simpl; intros s.
  - reflexivity.
  - reflexivity.
  - rewrite IH. reflexivity.
  - split; intros H t; apply IH, H.
  - split; intros [H1 H2]; (split; [exact H1 | intros x; apply IH, H2]).
Qed.

Lemma wp_await W O Q E i t r (k : Reply r -> prog S) s :
  wp W O Q E (await i t r k) s <->
  O s /\ (forall v, wp W O Q E (k v) s) /\ (forall e, E e s).
Proof.
  unfold await. simpl. split.
  - intros [H1 H2]. split; [exact H1|]. split.
    + intros v. apply (H2 (inl v)).
    + intros e. apply (H2 (inr e)).
  - intros (H1 & H2 & H3). split; [exact H1|]. intros [v|e]; simpl; auto.
Qed.

Lemma last_state_cons s e tr : last_state s (e :: tr) = last_state (state_of e) tr.
Proof.
  unfold last_state. simpl map. apply last_cons_default.
Qed.

Theorem wp_sound W O Q E env p s tr s' o :
  wp W O Q E p s -> exec rt env p s = (tr, s', o) ->
  chain W O s tr /\ s' = last_state s tr /\ ends O Q E o s'.
Proof.
  revert s tr s' o.
  induction p as [|e|f k IH|c k IH|i t r k IH]; simpl; intros s tr s' o Hwp Hex.
  - inversion Hex; subst. simpl. auto.
  - inversion Hex; subst. simpl. auto.
  - destruct Hwp as [HW Hk].
    destruct (exec rt env k (f s)) as [[tr1 s1] o1] eqn:Hk1.
    inversion Hex; subst. destruct (IH _ _ _ _ Hk Hk1) as (Hc & Hl & He).
    rewrite last_state_cons. simpl. auto.
  - eapply IH; [apply Hwp | exact Hex].
  - destruct Hwp as [HO Hk].
    destruct (deliver (abort_error rt r) t (net env i r)) as [x|].
    + destruct (exec rt env (k x) s) as [[tr1 s1] o1] eqn:Hk1.
      inversion Hex; subst. destruct (IH _ _ _ _ _ (Hk x) Hk1) as (Hc & Hl & He).
      rewrite last_state_cons. simpl. auto.
    + inversion Hex; subst. simpl. auto.
Qed.

Lemma exec_fate env p s : snd (exec rt env p s) = fate rt env p.
Proof.
  revert s. induction p as [|e|f k IH|c k IH|i t r k IH]; simpl; intros s.
  - reflexivity.
  - reflexivity.
  - specialize (IH (f s)). destruct (exec rt env k (f s)) as [[tr1 s1] o1]. exact IH.
  - apply IH.
  - destruct (deliver (abort_error rt r) t (net env i r)) as [x|]; [|reflexivity].
    specialize (IH x s). destruct (exec rt env (k x) s) as [[tr1 s1] o1]. exact IH.
Qed.

Lemma exec_seq env p q s :
  exec rt env (seq p q) s =
  let '(tr1, s1, o1) := exec rt env p s in
  match o1 with
  | Completed => let '(tr2, s2, o2) := exec rt env q s1 in ((tr1 ++ tr2)%list, s2, o2)
  | _ => (tr1, s1, o1)
  end.
Proof.
  revert s. induction p as [|e|f k IH|c k IH|i t r k IH]; simpl; intros s.
  - destruct (exec rt env q s) as [[tr2 s2] o2]. reflexivity.
  - reflexivity.
  - rewrite IH. destruct (exec rt env k (f s)) as [[tr1 s1] o1].
    destruct o1; [|reflexivity..].
    destruct (exec rt env q s1) as [[tr2 s2] o2]. reflexivity.
  - apply IH.
  - destruct (deliver (abort_error rt r) t (net env i r)) as [x|]; [|reflexivity].
    rewrite IH. destruct (exec rt env (k x) s) as [[tr1 s1] o1].
    destruct o1; [|reflexivity..].
    destruct (exec rt env q s1) as [[tr2 s2] o2]. reflexivity.
Qed.

Lemma exec_try_catch env p (h : Js.Error -> prog S) s :
  exec rt env (try_catch p h) s =
  let '(tr1, s1, o1) := exec rt env p s in
  match o1 with
  | Rejected e => let '(tr2, s2, o2) := exec rt env (h e) s1 in ((tr1 ++ tr2)%list, s2, o2)
  | _ => (tr1, s1, o1)
  end.
Proof.
  revert s. induction p as [|e|f k IH|c k IH|i t r k IH]; simpl; intros s.
  - reflexivity.
  - destruct (exec rt env (h e) s) as [[tr2 s2] o2]. reflexivity.
  - rewrite IH. destruct (exec rt env k (f s)) as [[tr1 s1] o1].
    destruct o1; [reflexivity| |reflexivity].
    destruct (exec rt env (h e) s1) as [[tr2 s2] o2]. reflexivity.
  - apply IH.
  - destruct (deliver (abort_error rt r) t (net env i r)) as [x|]; [|reflexivity].
    rewrite IH. destruct (exec rt env (k x) s) as [[tr1 s1] o1].
    destruct o1; [reflexivity| |reflexivity].
    destruct (exec rt env (h e) s1) as [[tr2 s2] o2]. reflexivity.
Qed.

(** running stretch by stretch agrees with [exec] on the first stretch *)
Lemma run_sync_wp W O Q E clk p s ws s' st :
  wp W O Q E p s -> run_sync clk p s = (ws, s', st) ->
  match st with
  | Returned => Q s'
  | Threw e => E e s'
  | Parked i t r k => O s' /\ forall x, wp W O Q E (k x) s'
  end.
Proof.
  revert s ws s' st.
  induction p as [|e|f k IH|c k IH|i t r k IH]; simpl; intros s ws s' st Hwp Hr.
  - inversion Hr; subst. exact Hwp.
  - inversion Hr; subst. exact Hwp.
  - destruct Hwp as [_ Hk]. destruct (run_sync clk k (f s)) as [[ws1 s1] st1] eqn:Hk1.
    inversion Hr; subst. eapply IH; eauto.
  - eapply IH; [apply Hwp | exact Hr].
  - inversion Hr; subst. exact Hwp.
Qed.
End Calculus.

(** ** Invariants of the batch runner *)

Lemma status_next_refl a : status_next a a.
Proof. left. reflexivity. Qed.

Section RunnerInvariants.
Variable rt : Runtime.
Variables (provider style background size quality : string).
Variable timestamp : string.

Local Abbreviation attempt :=
  (background_attempt rt provider style background size quality timestamp).
Local Abbreviation loop :=
  (background_loop rt provider style background size quality timestamp).

(** An attempt writes nothing until it succeeds, and then pushes
    exactly one entry as its last step. *)
Lemma wp_background_attempt i w s :
  wp (fun a b => a = s /\ b = push_result (pushed_on_success rt style size timestamp w) s)
     (fun a => a = s)
     (fun a => a = push_result (pushed_on_success rt style size timestamp w) s)
     (fun _ a => a = s)
     (attempt i w) s.
Proof.
  unfold background_attempt, background_dalle, background_stability, on_abort,
    pushed_on_success.
  repeat (first
    [ progress simpl
    | rewrite wp_await
    | rewrite wp_try_catch
    | match goal with
      | |- _ /\ _ => split
      | |- forall _, _ => intro
      | |- _ = _ => reflexivity
      | |- context [match ?x with _ => _ end] => destruct x
      end ]).
Qed.

Lemma at_loop_test_length wordList i ws j :
  at_loop_test wordList i ws j -> length wordList = (i + length ws)%nat.
Proof.
  intros (_ & _ & Hl & _ & Hm & _). rewrite <- Hm, length_app, length_map, Hl.
  reflexivity.
Qed.

(** The loop from index [i] on keeps every write a [job_step], is
    suspended only [in_flight], returns only [finished], and lets no
    exception out. *)
Local Ltac job_facts :=
  repeat split; eauto with lia; try discriminate; try congruence.

Lemma wp_background_loop wordList ws : forall i s,
  at_loop_test wordList i ws s ->
  wp (job_step wordList) in_flight (finished wordList) (fun _ _ => False)
     (loop i ws) s.
Proof.
  induction ws as [|w rest IH]; intros i s Hpre;
    pose proof (at_loop_test_length _ _ _ _ Hpre) as Hlen;
    destruct Hpre as (Ht & Hc & Hl & He & Hm & Hst); simpl in Hlen.
  - assert (Hgen : status s = generating) by (destruct Hst as [?|[_ ?]]; congruence).
    assert (Hpw : map word (results s) `prefix_of` wordList)
      by (exists []; symmetry; exact Hm).
    rewrite app_nil_r in Hm.
    simpl. unfold job_step, finished, status_next. simpl.
    rewrite Hgen, He, Ht, Hc, Hlen.
    job_facts.
  - set (s2 := set_currentWord (Some w) (set_status generating s)).
    assert (Hpw : map word (results s) `prefix_of` wordList)
      by (exists (w :: rest); symmetry; exact Hm).
    assert (Hpw' : forall r, word r = w ->
              map word (results s ++ [r])%list `prefix_of` wordList).
    { intros r Hr. exists rest. rewrite map_app, <- app_assoc. simpl.
      rewrite Hr. symmetry. exact Hm. }
    assert (Hafter : forall r, word r = w ->
              job_step wordList s2 (push_result r s2) /\
              wp (job_step wordList) in_flight (finished wordList) (fun _ _ => False)
                 (Write (set_completedWords (i + 1)) (loop (i + 1) rest))
                 (push_result r s2)).
    { intros r Hr. split.
      - unfold job_step, status_next. simpl. rewrite Ht, Hc, Hlen.
        job_facts.
      - simpl. split.
        + unfold job_step, status_next. simpl. rewrite Ht, Hc, Hlen.
          job_facts.
        + apply IH. unfold at_loop_test. simpl.
          rewrite Ht, length_app, Hl, He, map_app, <- app_assoc. simpl.
          rewrite Hr. job_facts. }
    simpl. unfold background_item. simpl. fold s2. split; [|split].
    + unfold job_step, status_next. simpl. rewrite Ht, Hc, Hlen.
      job_facts.
      destruct Hst as [->|[-> _]]; eauto.
    + unfold job_step, status_next. simpl. rewrite Ht, Hc, Hlen.
      job_facts.
    + apply wp_seq, wp_try_catch.
      eapply wp_mono; [| | | |apply wp_background_attempt].
      * intros a b [-> ->]. apply Hafter. reflexivity.
      * intros a ->. unfold in_flight. simpl. rewrite Hc, Hl, Ht, Hlen.
        job_facts.
      * intros a ->. apply Hafter. reflexivity.
      * intros e a ->. simpl. apply Hafter. reflexivity.
Qed.
End RunnerInvariants.

(** ** From chains to statements about traces *)

Section Steps.
Context {S : Type}.

Lemma chain_steps (W : S -> S -> Prop) (O : S -> Prop) s (tr : list (Event S)) :
  chain W O s tr -> steps (fun a b => b = a \/ W a b) s (map state_of tr).
Proof.
  revert s. induction tr as [|[s1|s1] tr IH]; simpl; intros s H.
  - exact I.
  - destruct H as [HW H]. split; [right; exact HW | apply IH, H].
  - destruct H as (-> & _ & H). split; [left; reflexivity | apply IH, H].
Qed.

Lemma chain_suspended (W : S -> S -> Prop) (O : S -> Prop) s (tr : list (Event S)) :
  chain W O s tr -> Forall O (suspended_states tr).
Proof.
  revert s. induction tr as [|[s1|s1] tr IH]; simpl; intros s H.
  - constructor.
  - destruct H as [_ H]. apply (IH _ H).
  - destruct H as (-> & HO & H). constructor; [exact HO | apply (IH _ H)].
Qed.

Lemma steps_adjacent (R : S -> S -> Prop) (l : list S) : forall s n a b,
  steps R s l -> (s :: l) !! n = Some a -> (s :: l) !! (Datatypes.S n) = Some b ->
  R a b.
Proof.
  induction l as [|x l IH]; intros s n a b Hs Ha Hb.
  - destruct n; simpl in Hb; discriminate.
  - destruct Hs as [HR Hs]. destruct n as [|n].
    + simpl in Ha, Hb. inversion Ha; inversion Hb; subst. exact HR.
    + apply (IH x n a b Hs); assumption.
Qed.

Lemma steps_head_le (f : S -> nat) (R : S -> S -> Prop) (l : list S) :
  (forall a b, R a b -> (f a <= f b)%nat) ->
  forall s b, steps R s l -> b ∈ l -> (f s <= f b)%nat.
Proof.
  intros HR. induction l as [|x l IH]; intros s b Hs Hb.
  - inversion Hb.
  - destruct Hs as [Hx Hs]. apply HR in Hx.
    apply elem_of_cons in Hb as [->|Hb]; [exact Hx|].
    specialize (IH x b Hs Hb). lia.
Qed.

Lemma steps_monotone (f : S -> nat) (R : S -> S -> Prop) (l : list S) :
  (forall a b, R a b -> (f a <= f b)%nat) ->
  forall s n m a b, steps R s l -> (n <= m)%nat ->
    (s :: l) !! n = Some a -> (s :: l) !! m = Some b -> (f a <= f b)%nat.
Proof.
  intros HR. induction l as [|x l IH]; intros s n m a b Hs Hnm Ha Hb.
  - destruct n; [|discriminate]. destruct m; [|discriminate].
    simpl in Ha, Hb. inversion Ha; inversion Hb; subst. lia.
  - destruct n as [|n].
    + simpl in Ha. inversion Ha; subst. destruct m as [|m].
      * simpl in Hb. inversion Hb; subst. lia.
      * apply (steps_head_le f R (x :: l) HR a b Hs).
        apply list_elem_of_lookup. exists m. exact Hb.
    + destruct m as [|m]; [lia|].
      destruct Hs as [_ Hs]. apply (IH x n m a b Hs); [lia|assumption..].
Qed.
End Steps.

Lemma job_move_status ws a b : job_move ws a b -> status_next (status a) (status b).
Proof. intros [->|H]; [apply status_next_refl | apply H]. Qed.

Lemma job_move_completed ws a b :
  job_move ws a b -> (completedWords a <= completedWords b)%nat.
Proof. intros [->|H]; [lia | apply H]. Qed.

Lemma job_move_endTime ws a b :
  job_move ws a b ->
  endTime b = endTime a
  \/ (endTime a = None /\ is_Some (endTime b) /\ status a = completed /\ status b = completed).
Proof. intros [->|H]; [left; reflexivity | apply H]. Qed.

Lemma endTime_written_once ws (l : list JobRecord) : forall s,
  steps (job_move ws) s l ->
  (is_Some (endTime s) ->
     endTime_writes s l = 0%nat /\ endTime (List.last l s) = endTime s)
  /\ (endTime s = None ->
        (endTime (List.last l s) = None /\ endTime_writes s l = 0%nat)
        \/ (is_Some (endTime (List.last l s)) /\ endTime_writes s l = 1%nat)).
Proof.
  induction l as [|b l IH]; intros s Hs.
  - simpl. split; [auto|]. intros H. left. auto.
  - destruct Hs as [Hm Hs]. apply job_move_endTime in Hm.
    destruct (IH b Hs) as [IHsome IHnone].
    rewrite last_cons_default. cbn [endTime_writes]. split.
    + intros Hsome. destruct Hm as [Heq|(Hn & _)].
      * rewrite decide_True by exact Heq. rewrite <- Heq in Hsome.
        destruct (IHsome Hsome) as [-> ->]. auto.
      * rewrite Hn in Hsome. destruct Hsome; discriminate.
    + intros Hnone. destruct Hm as [Heq|(_ & Hb & _)].
      * rewrite decide_True by exact Heq. rewrite Hnone in Heq.
        destruct (IHnone Heq) as [[? ->]|[? ->]]; [left|right]; auto.
      * rewrite decide_False
          by (rewrite Hnone; intros Hc; rewrite Hc in Hb; destruct Hb; discriminate).
        destruct (IHsome Hb) as [-> ->]. right. auto.
Qed.

(** ** Runs of the batch runner for a job made by [generateImagesAsync] *)

Section Runs.
Variables (rt : Runtime) (env : Env) (wordList : list string) (o : Options).
Variables (jobId start : string).
Hypothesis nonempty : wordList <> [].

Local Abbreviation j0 := (new_job jobId wordList o start).
Local Abbreviation the_run := (run_job rt env wordList o jobId start).

Lemma wp_runner :
  wp (job_step wordList) in_flight (finished wordList) (fun _ _ => False)
     (runner_of rt wordList o) j0.
Proof.
  unfold runner_of, background_body. simpl. intros t.
  apply wp_background_loop. unfold at_loop_test. simpl.
  repeat split; auto.
Qed.

Lemma runner_chain :
  chain (job_step wordList) in_flight j0 (trace_of the_run)
  /\ final_of the_run = last_state j0 (trace_of the_run)
  /\ ends in_flight (finished wordList) (fun _ _ => False)
          (outcome_of the_run) (final_of the_run).
Proof.
  unfold trace_of, final_of, outcome_of, run_job.
  destruct (exec rt env (runner_of rt wordList o) j0) as [[tr j'] out] eqn:Hex.
  simpl. exact (wp_sound rt _ _ _ _ env _ _ _ _ _ wp_runner Hex).
Qed.

Lemma runner_steps :
  steps (job_move wordList) j0 (map state_of (trace_of the_run)).
Proof. apply (chain_steps _ _ _ _ (proj1 runner_chain)). Qed.


Lemma observed_in_flight_or_finished j :
  j ∈ observation_points rt env wordList o jobId start ->
  in_flight j \/ finished wordList j.
Proof.
  unfold observation_points. intros Hj.
  destruct runner_chain as (Hc & _ & He).
  apply elem_of_app in Hj as [Hj|Hj].
  - left. apply chain_suspended in Hc. rewrite Forall_forall in Hc. auto.
  - apply list_elem_of_singleton in Hj as ->.
    destruct (outcome_of the_run); simpl in He; [right|contradiction|left];
      exact He.
Qed.
End Runs.

Lemma steps_all {S} (P : S -> Prop) (R : S -> S -> Prop) (l : list S) :
  (forall a b, R a b -> P a -> P b) ->
  forall s, steps R s l -> P s -> Forall P (s :: l).
Proof.
  intros HR. induction l as [|x l IH]; intros s Hs HP.
  - constructor; [exact HP | constructor].
  - destruct Hs as [Hx Hs]. constructor; [exact HP|].
    apply (IH x Hs). apply (HR s x Hx HP).
Qed.

(** C3. At every observation point after the batch runner has started
    the job record has [completedWords = results.length] and
    [0 <= completedWords <= totalWords]; over the whole life of the job
    [completedWords] never decreases (and never exceeds [totalWords],
    also between observation points). *)
Theorem completedWords_matches_results
    (rt : Runtime) (env : Env) (wordList : list string) (o : Options)
    (jobId start : string) :
  wordList <> [] ->
  (forall j, j ∈ observation_points rt env wordList o jobId start ->
     completedWords j = length (results j)
     /\ (0 <= completedWords j <= totalWords j)%nat)
  /\ (forall n m a b, (n <= m)%nat ->
        history rt env wordList o jobId start !! n = Some a ->
        history rt env wordList o jobId start !! m = Some b ->
        (completedWords a <= completedWords b)%nat)
  /\ (forall j, j ∈ history rt env wordList o jobId start ->
        (completedWords j <= totalWords j)%nat).
Proof.
  intros Hne. split; [|split].
  - intros j Hj.
    destruct (observed_in_flight_or_finished rt env wordList o jobId start Hne j Hj)
      as [(_ & Hc & Hlt & _)|(_ & Hc & Hl & _)]; split; lia.
  - intros n m a b Hnm Ha Hb. unfold history in *.
    apply (steps_monotone completedWords (job_move wordList) _
             (job_move_completed wordList) _ n m a b (runner_steps rt env wordList o jobId start Hne) Hnm Ha Hb).
  - intros j Hj. unfold history in Hj.
    assert (HF : Forall (fun j => (completedWords j <= totalWords j)%nat)
                   (new_job jobId wordList o start
                    :: map state_of (trace_of (run_job rt env wordList o jobId start)))).
    { apply (steps_all _ (job_move wordList)).
      - intros a b [->|Hab] Ha; [exact Ha | apply Hab].
      - apply runner_steps; exact Hne.
      - simpl; lia. }
    rewrite Forall_forall in HF. apply HF, Hj.
Qed.

(** C4. The status field only moves Started -> Generating -> Completed,
    one step at a time; at every observation point the status is
    Completed exactly when [completedWords = totalWords]; [endTime] is
    written once, in the stretch that sets the status to Completed, so
    that an observer sees it exactly on completed jobs, and
    [currentWord] is gone by then. *)
Theorem status_follows_lifecycle
    (rt : Runtime) (env : Env) (wordList : list string) (o : Options)
    (jobId start : string) :
  wordList <> [] ->
  let h := history rt env wordList o jobId start in
  let r := run_job rt env wordList o jobId start in
  (forall n a b, h !! n = Some a -> h !! (S n) = Some b ->
     status_next (status a) (status b))
  /\ (forall j, j ∈ observation_points rt env wordList o jobId start ->
        (status j = completed <-> completedWords j = totalWords j)
        /\ (status j = completed <-> is_Some (endTime j))
        /\ (status j = completed -> currentWord j = None))
  /\ (forall n a b, h !! n = Some a -> h !! (S n) = Some b ->
        endTime b <> endTime a ->
        endTime a = None /\ status a = completed /\ status b = completed)
  /\ (endTime_writes (new_job jobId wordList o start) (map state_of (trace_of r)) <= 1)%nat
  /\ (outcome_of r = Completed ->
        status (final_of r) = completed
        /\ endTime_writes (new_job jobId wordList o start) (map state_of (trace_of r))
           = 1%nat).
Proof.
  intros Hne h r.
  pose proof (runner_steps rt env wordList o jobId start Hne) as Hsteps.
  destruct (runner_chain rt env wordList o jobId start Hne) as (_ & Hlast & Hends).
  fold r in Hsteps, Hlast, Hends.
  destruct (endTime_written_once _ _ _ Hsteps) as [_ Hcount].
  specialize (Hcount eq_refl). unfold last_state in Hlast. rewrite <- Hlast in Hcount.
  split; [|split; [|split; [|split]]].
  - intros n a b Ha Hb.
    apply (job_move_status wordList), (steps_adjacent _ _ _ n a b Hsteps Ha Hb).
  - intros j Hj.
    destruct (observed_in_flight_or_finished rt env wordList o jobId start Hne j Hj)
      as [(Hs & Hc & Hlt & He & Hw)|(Hs & Hc & Hl & He & Hw & _)].
    + rewrite Hs, He. repeat split; try discriminate; try lia.
      intros [x Hx]. discriminate.
    + rewrite Hs. repeat split; auto.
  - intros n a b Ha Hb Hneq.
    destruct (job_move_endTime wordList a b (steps_adjacent _ _ _ n a b Hsteps Ha Hb))
      as [Heq|(H1 & _ & H2 & H3)]; [contradiction | auto].
  - destruct Hcount as [[_ ->]|[_ ->]]; lia.
  - intros Hout. rewrite Hout in Hends. destruct Hends as (Hs & _ & _ & He & _).
    split; [exact Hs|].
    destruct Hcount as [[Hn _]|[_ Hone]]; [|exact Hone].
    rewrite Hn in He. destruct He; discriminate.
Qed.

(** ** What the runner records for each word *)

Section Results.
Variables (rt : Runtime) (env : Env).
Variables (provider style background size quality : string).
Variable timestamp : string.

Local Abbreviation attempt :=
  (background_attempt rt provider style background size quality timestamp).
Local Abbreviation loop :=
  (background_loop rt provider style background size quality timestamp).
Local Abbreviation entry_at :=
  (item_entry rt env provider style background size quality timestamp).

Lemma attempt_result i w s :
  result_of (exec rt env (attempt i w) s)
  = match fate rt env (attempt i w) with
    | Completed => (push_result (pushed_on_success rt style size timestamp w) s, Completed)
    | o => (s, o)
    end.
Proof.
  pose proof (exec_fate rt env (attempt i w) s) as Hf.
  pose proof (wp_background_attempt rt provider style background size quality
                timestamp i w s) as Hwp.
  destruct (exec rt env (attempt i w) s) as [[tr s'] out] eqn:Hex.
  destruct (wp_sound rt _ _ _ _ env _ _ _ _ _ Hwp Hex) as (_ & _ & He).
  simpl in Hf. rewrite <- Hf. unfold result_of, final_of, outcome_of. simpl.
  destruct out; simpl in He; subst; reflexivity.
Qed.

(** one turn of the loop: blocked for ever, or exactly one entry
    pushed and the counter set, then the rest of the loop *)
Lemma item_result i w (rest : prog JobRecord) s :
  result_of (exec rt env
               (background_item rt provider style background size quality timestamp
                                i w rest) s)
  = let s2 := set_currentWord (Some w) (set_status generating s) in
    match entry_at i w with
    | None => (s2, Blocked)
    | Some r => result_of (exec rt env rest
                             (set_completedWords (i + 1) (push_result r s2)))
    end.
Proof.
  unfold background_item, item_entry. cbn [exec].
  set (s2 := set_currentWord (Some w) (set_status generating s)).
  rewrite exec_seq, exec_try_catch.
  pose proof (attempt_result i w s2) as Ha.
  destruct (exec rt env (attempt i w) s2) as [[tr1 s1] o1].
  unfold result_of, final_of, outcome_of in Ha. simpl in Ha.
  destruct (fate rt env (attempt i w)) as [|e|]; inversion Ha; subst; cbn [exec].
  - destruct (exec rt env rest _) as [[tr2 s3] o3]. reflexivity.
  - destruct (exec rt env rest _) as [[tr2 s3] o3]. reflexivity.
  - reflexivity.
Qed.

Lemma loop_results ws : forall i s,
  let r := exec rt env (loop i ws) s in
  results s `prefix_of` results (final_of r)
  /\ (forall k w, ws !! k = Some w ->
        (forall m w', (m <= k)%nat -> ws !! m = Some w' ->
                      entry_at (i + m) w' <> None) ->
        results (final_of r) !! (length (results s) + k)%nat = entry_at (i + k) w)
  /\ ((forall m w', ws !! m = Some w' -> entry_at (i + m) w' <> None) ->
      outcome_of r = Completed
      /\ length (results (final_of r)) = (length (results s) + length ws)%nat).
Proof.
  induction ws as [|w rest IH]; intros i s; cbn zeta.
  - simpl. unfold final_of, outcome_of. simpl. split; [reflexivity|]. split.
    + intros k w Hk. rewrite lookup_nil in Hk. discriminate.
    + intros _. split; [reflexivity | lia].
  - cbn [background_loop].
    pose proof (item_result i w (loop (i + 1) rest) s) as Hitem. cbn zeta in Hitem.
    unfold result_of in Hitem.
    set (r := exec rt env (background_item _ _ _ _ _ _ _ i w _) s) in *.
    destruct (entry_at i w) as [e|] eqn:Hentry.
    + set (s3 := set_completedWords (i + 1)
                   (push_result e (set_currentWord (Some w) (set_status generating s))))
        in *.
      destruct (IH (i + 1)%nat s3) as (Hpre & Hat & Hall). cbn zeta in *.
      inversion Hitem as [[Hfin Hout]]. rewrite Hfin, Hout.
      assert (Hres3 : results s3 = (results s ++ [e])%list) by reflexivity.
      rewrite Hres3 in Hpre, Hat, Hall. rewrite length_app in Hat, Hall.
      simpl in Hat, Hall.
      split; [|split].
      * etransitivity; [|exact Hpre]. by exists [e].
      * intros k w' Hk Hno. destruct k as [|k].
        -- simpl in Hk. inversion Hk; subst w'.
           rewrite !Nat.add_0_r, Hentry.
           destruct Hpre as [extra ->]. rewrite <- app_assoc.
           rewrite lookup_app_r by lia. rewrite Nat.sub_diag. reflexivity.
        -- simpl in Hk.
           replace (length (results s) + S k)%nat
             with (length (results s) + 1 + k)%nat by lia.
           replace (i + S k)%nat with (i + 1 + k)%nat by lia.
           apply Hat; [exact Hk|]. intros m w'' Hm Hw''.
           replace (i + 1 + m)%nat with (i + S m)%nat by lia.
           apply (Hno (S m) w''); [lia | exact Hw''].
      * intros Hno. destruct Hall as [Ho Hlen].
        { intros m w'' Hw''. replace (i + 1 + m)%nat with (i + S m)%nat by lia.
          apply (Hno (S m) w''). exact Hw''. }
        split; [exact Ho|]. rewrite Hlen. simpl. lia.
    + inversion Hitem as [[Hfin Hout]]. rewrite Hfin, Hout. simpl.
      split; [reflexivity|]. split.
      * intros k w' Hk Hno. exfalso. apply (Hno 0%nat w); [lia|reflexivity|].
        rewrite Nat.add_0_r. exact Hentry.
      * intros Hno. exfalso. apply (Hno 0%nat w); [reflexivity|].
        rewrite Nat.add_0_r. exact Hentry.
Qed.
End Results.

Lemma run_job_loop rt env wordList o jobId start :
  run_job rt env wordList o jobId start
  = exec rt env
      (background_loop rt (o_provider o) (o_style o) (o_background o) (o_size o)
                       (o_quality o) (batch_timestamp (clock env BatchStart)) 0 wordList)
      (new_job jobId wordList o start).
Proof. reflexivity. Qed.

Lemma run_job_results rt env wordList o jobId start :
  let r := run_job rt env wordList o jobId start in
  (forall k w, wordList !! k = Some w ->
     (forall m w', (m <= k)%nat -> wordList !! m = Some w' ->
                   call_fate rt env o m w' <> Blocked) ->
     results (final_of r) !! k
     = Some (match call_fate rt env o k w with
             | Rejected e => failure_result w e
             | _ => success_entry rt env o w
             end))
  /\ ((forall m w', wordList !! m = Some w' -> call_fate rt env o m w' <> Blocked) ->
      outcome_of r = Completed
      /\ length (results (final_of r)) = length wordList).
Proof.
  cbn zeta. rewrite run_job_loop.
  destruct (loop_results rt env (o_provider o) (o_style o) (o_background o) (o_size o)
              (o_quality o) (batch_timestamp (clock env BatchStart)) wordList 0%nat
              (new_job jobId wordList o start)) as (_ & Hat & Hall).
  assert (Hentry : forall m w',
            call_fate rt env o m w' <> Blocked ->
            item_entry rt env (o_provider o) (o_style o) (o_background o) (o_size o)
                       (o_quality o) (batch_timestamp (clock env BatchStart)) m w'
            = Some (match call_fate rt env o m w' with
                    | Rejected e => failure_result w' e
                    | _ => success_entry rt env o w'
                    end)).
  { intros m w' Hb. unfold item_entry, call_fate, attempt_of in *.
    destruct (fate rt env _); [reflexivity..|contradiction]. }
  split.
  - intros k w Hk Hno. specialize (Hat k w Hk). simpl in Hat.
    rewrite Hat; [apply Hentry, (Hno k w); [lia|exact Hk]|].
    intros m w' Hm Hw'. rewrite Hentry by (apply (Hno m w'); assumption). discriminate.
  - intros Hno. apply Hall. intros m w' Hw'. simpl.
    rewrite Hentry by (apply (Hno m w'); assumption). discriminate.
Qed.

(** The ways a provider call fails: a missing credential, a network
    error, a response that is not 2xx (a timeout is
    [background_stability_times_out] below).  Each is a [Rejected] fate. *)
Lemma missing_credential_fails rt env o i w :
  Js.toLowerCase (o_provider o) = "dalle3" ->
  Js.truthy_opt (dalle3_apiKey rt) = false ->
  call_fate rt env o i w = Rejected (Js.new_Error "Missing OPENAI_API_KEY").
Proof.
  intros Hp Hk. unfold call_fate, attempt_of, background_attempt, background_dalle.
  rewrite Hp, Hk. reflexivity.
Qed.

Lemma network_error_fails rt env o i w ms e :
  Js.toLowerCase (o_provider o) = "dalle3" ->
  Js.truthy_opt (dalle3_apiKey rt) = true ->
  (forall r, net env i r = Settles ms (inr e)) ->
  call_fate rt env o i w = Rejected e.
Proof.
  intros Hp Hk Hnet. unfold call_fate, attempt_of, background_attempt, background_dalle.
  rewrite Hp, Hk. simpl. rewrite Hnet. reflexivity.
Qed.

Lemma bad_status_fails rt env o i w ms code body :
  Js.toLowerCase (o_provider o) = "stability" ->
  Js.truthy_opt (stability_apiKey rt) = true ->
  (code =? 200) = false -> ms < 90000 ->
  (forall r, net env i r
             = match r with
               | PostForm _ _ _ _ => Settles ms (inl (code, body))
               | _ => Never
               end) ->
  call_fate rt env o i w
  = Rejected (Js.new_Error ("Stability API error " ++ pretty code ++ ": " ++ body)).
Proof.
  intros Hp Hk Hc Hms Hnet.
  unfold call_fate, attempt_of, background_attempt, background_stability.
  rewrite Hp, Hk. simpl. rewrite Hnet. simpl.
  apply Z.ltb_lt in Hms. rewrite Hms. simpl. rewrite Hc. reflexivity.
Qed.


(** C2. The runner appends at most one entry per write, always for the
    next input word; whenever the job record has status Completed its
    results are the input words' entries, one per word, in input order;
    and the job does reach Completed when every provider call comes
    back. *)
Theorem one_result_per_word
    (rt : Runtime) (env : Env) (wordList : list string) (o : Options)
    (jobId start : string) :
  wordList <> [] ->
  let h := history rt env wordList o jobId start in
  let r := run_job rt env wordList o jobId start in
  (forall n a b, h !! n = Some a -> h !! (S n) = Some b ->
     results b = results a \/ exists entry, results b = (results a ++ [entry])%list)
  /\ (forall j, j ∈ h -> map word (results j) `prefix_of` wordList)
  /\ (forall j, j ∈ h -> status j = completed ->
        length (results j) = length wordList
        /\ forall i w, wordList !! i = Some w -> word <$> results j !! i = Some w)
  /\ ((forall i w, wordList !! i = Some w -> call_fate rt env o i w <> Blocked) ->
      outcome_of r = Completed
      /\ status (final_of r) = completed
      /\ final_of r ∈ h
      /\ length (results (final_of r)) = length wordList).
Proof.
  intros Hne h r.
  pose proof (runner_steps rt env wordList o jobId start Hne) as Hsteps. fold r in Hsteps.
  assert (HF : Forall (fun j => map word (results j) `prefix_of` wordList
                                /\ (status j = completed ->
                                    map word (results j) = wordList)) h).
  { apply (steps_all _ (job_move wordList)); [|exact Hsteps|].
    - intros a b [->|Hab] Ha; [exact Ha|]. split; apply Hab.
    - simpl. split; [by exists wordList | discriminate]. }
  rewrite Forall_forall in HF.
  split; [|split; [|split]].
  - intros n a b Ha Hb.
    destruct (steps_adjacent _ _ _ n a b Hsteps Ha Hb) as [->|Hab]; [by left | apply Hab].
  - intros j Hj. apply (HF j Hj).
  - intros j Hj Hs. destruct (HF j Hj) as [_ Hw]. specialize (Hw Hs). split.
    + rewrite <- Hw, length_map. reflexivity.
    + intros i w Hi. rewrite <- Hw, list_lookup_fmap in Hi. exact Hi.
  - intros Hno.
    destruct (run_job_results rt env wordList o jobId start) as [_ Hall]. fold r in Hall.
    destruct (Hall Hno) as [Hout Hlen].
    destruct (runner_chain rt env wordList o jobId start Hne) as (_ & Hlast & Hends).
    fold r in Hlast, Hends. rewrite Hout in Hends. destruct Hends as (Hs & _).
    repeat split; auto.
    unfold h, history. fold r. rewrite Hlast. unfold last_state.
    destruct (map state_of (trace_of r)) as [|x l] eqn:Hl.
    + simpl. left.
    + right. change (List.last (x :: l) (new_job jobId wordList o start) ∈ x :: l).
      rewrite last_cons_default. clear. revert x.
      induction l as [|y l IH]; intros x; [left|].
      rewrite last_cons_default. right. apply IH.
Qed.

(** ** Invariants of the whole process *)

Lemma task_ok_insert hp l j' t :
  task_job t <> l -> task_ok hp t -> task_ok (<[l := j']> hp) t.
Proof.
  intros Hne (j & wl & Hj & Hin & Hwp). exists j, wl.
  rewrite list_lookup_insert_ne by congruence. auto.
Qed.

Lemma run_on_ok w l clk p others wl j :
  heap w !! l = Some j ->
  wp (job_step wl) in_flight (finished wl) (fun _ _ => False) p j ->
  (forall jobId l', activeJobs w !! jobId = Some l' -> is_Some (heap w !! l')) ->
  (forall l' j', l' <> l -> heap w !! l' = Some j' -> job_ok j') ->
  Forall (task_ok (heap w)) others ->
  NoDup (task_job <$> others) ->
  l ∉ task_job <$> others ->
  unhandled w = [] ->
  world_ok (run_on w l clk p others).
Proof.
  intros Hl Hwp Hreg Hheap Hothers Hnd Hfresh Hun. unfold run_on. rewrite Hl.
  destruct (run_sync clk p j) as [[ws j'] st] eqn:Hrun.
  pose proof (run_sync_wp _ _ _ _ clk p j ws j' st Hwp Hrun) as Hst.
  assert (Hlt : (l < length (heap w))%nat) by (eapply lookup_lt_Some; eauto).
  assert (Hothers' : Forall (task_ok (<[l := j']> (heap w))) others).
  { rewrite Forall_forall in Hothers |- *. intros t Ht.
    apply task_ok_insert; [|auto].
    intros Heq. apply Hfresh. rewrite <- Heq. apply list_elem_of_fmap. eauto. }
  assert (Hjob : match st with Threw _ => False | _ => job_ok j' end).
  { destruct st; [right; exists wl; exact Hst | exact Hst | left; apply Hst]. }
  split; simpl.
  - intros jobId l' Hl'. apply lookup_lt_is_Some. rewrite length_insert.
    apply lookup_lt_is_Some. eauto.
  - intros l' j'' Hl'. destruct (decide (l' = l)) as [->|Hne].
    + rewrite list_lookup_insert_eq in Hl' by exact Hlt. inversion Hl'; subst.
      destruct st; [exact Hjob | contradiction | exact Hjob].
    + rewrite list_lookup_insert_ne in Hl' by congruence. eauto.
  - destruct st as [|e|i t r k]; [exact Hothers' | exact Hothers' |].
    apply Forall_app. split; [exact Hothers'|]. constructor; [|constructor].
    exists j', wl. simpl. rewrite list_lookup_insert_eq by exact Hlt.
    destruct Hst. auto.
  - destruct st as [|e|i t r k]; [exact Hnd | exact Hnd |].
    rewrite fmap_app. simpl. apply NoDup_app. split; [exact Hnd|]. split.
    + intros x Hx Hx'. apply list_elem_of_singleton in Hx'. subst. contradiction.
    + apply NoDup_singleton.
  - destruct st as [|e|i t r k]; [exact Hun | contradiction | exact Hun].
Qed.

Lemma empty_world_ok : world_ok empty_world.
Proof.
  split; simpl.
  - intros jobId l H. rewrite lookup_empty in H. discriminate.
  - intros l j H. rewrite lookup_nil in H. discriminate.
  - constructor.
  - constructor.
  - reflexivity.
Qed.

Lemma task_ok_app hp j t : task_ok hp t -> task_ok (hp ++ [j]) t.
Proof.
  intros (j1 & wl & Hj & Hin & Hwp). exists j1, wl.
  rewrite lookup_app_l by (eapply lookup_lt_Some; eauto). auto.
Qed.

Lemma generateImagesAsync_ok rt w ce input :
  world_ok w -> world_ok (generateImagesAsync rt w ce input).1.
Proof.
  intros [Hreg Hheap Htasks Hnd Hun]. unfold generateImagesAsync.
  destruct (length (parse_words _) =? 0)%nat eqn:Hlen; [split; assumption|].
  destruct (untimed (ensure_image_dir ce)) as [[[]|e]|]; [|split; assumption..].
  destruct (untimed (ensure_jobs_dir ce)) as [[[]|e]|]; [|split; assumption..].
  cbn [fst]. unfold generateImagesInBackground. cbn [activeJobs].
  rewrite lookup_insert_eq.
  set (o := generateImagesSchema_parse input) in *.
  set (wordList := parse_words (o_words o)) in *.
  set (jobId := ("job_" ++ pretty (date_now ce) ++ "_" ++ random36 ce)%string).
  set (j0 := new_job jobId wordList o (start_iso ce)).
  apply (run_on_ok _ _ _ _ _ wordList j0); cbn [heap activeJobs tasks unhandled].
  - rewrite lookup_app_r by lia. rewrite Nat.sub_diag. reflexivity.
  - apply wp_runner. intros Hnil. rewrite Hnil in Hlen. discriminate.
  - intros id l Hl. apply lookup_lt_is_Some. rewrite length_app. simpl.
    destruct (decide (jobId = id)) as [->|Hne].
    + rewrite lookup_insert_eq in Hl. inversion Hl. lia.
    + rewrite lookup_insert_ne in Hl by exact Hne.
      apply Hreg, lookup_lt_is_Some in Hl. lia.
  - intros l j Hne Hl.
    assert (l < length (heap w))%nat.
    { apply lookup_lt_Some in Hl. rewrite length_app in Hl. simpl in Hl. lia. }
    rewrite lookup_app_l in Hl by assumption. eauto.
  - rewrite Forall_forall in Htasks |- *. intros t Ht. apply task_ok_app. auto.
  - exact Hnd.
  - intros Hin. apply list_elem_of_fmap in Hin as (t & Heq & Ht).
    rewrite Forall_forall in Htasks. destruct (Htasks t Ht) as (j & _ & Hj & _).
    apply lookup_lt_Some in Hj. lia.
  - exact Hun.
Qed.

Lemma resume_ok rt w n answer clk : world_ok w -> world_ok (resume rt w n answer clk).
Proof.
  intros Hw. pose proof Hw as [Hreg Hheap Htasks Hnd Hun]. unfold resume.
  destruct (tasks w !! n) as [t|] eqn:Ht; [|exact Hw].
  destruct (deliver _ _ _) as [x|]; [|exact Hw].
  pose proof (take_drop_middle _ _ _ Ht) as Hsplit.
  rewrite <- Hsplit in Htasks, Hnd.
  apply Forall_app in Htasks as [Hpre Hrest]. inversion Hrest as [|? ? Hme Hpost]; subst.
  rewrite fmap_app in Hnd. simpl in Hnd.
  apply NoDup_app in Hnd as (Hnd1 & Hdisj & Hnd2).
  apply NoDup_cons in Hnd2 as [Hnotin Hnd2].
  destruct Hme as (j & wl & Hj & Hin & Hwp).
  rewrite delete_take_drop.
  apply (run_on_ok _ _ _ _ _ wl j); auto.
  - intros l' j' _ Hl'. eauto.
  - apply Forall_app. split; assumption.
  - rewrite fmap_app. apply NoDup_app. split; [exact Hnd1|]. split; [|exact Hnd2].
    intros y Hy Hy'. apply (Hdisj y Hy). right. exact Hy'.
  - rewrite fmap_app. intros Hin'. apply elem_of_app in Hin' as [Hin'|Hin'].
    + apply (Hdisj _ Hin'). left.
    + contradiction.
Qed.

Lemma act_ok rt b64 w a : world_ok w -> world_ok (act rt b64 w a).
Proof.
  intros Hw. destruct a as [ce input|jobId|n answer clk]; simpl.
  - unfold generateImages. destruct (o_async _); [|exact Hw].
    pose proof (generateImagesAsync_ok rt w ce input Hw) as H.
    destruct (generateImagesAsync rt w ce input) as [w' res]. exact H.
  - unfold checkStatus. destruct (_ ≫= _); exact Hw.
  - apply resume_ok, Hw.
Qed.

Lemma reachable_ok rt b64 w : reachable rt b64 w -> world_ok w.
Proof.
  intros [actions ->]. generalize empty_world_ok. generalize empty_world.
  induction actions as [|a actions IH]; intros w Hw; simpl; [exact Hw|].
  apply IH, act_ok, Hw.
Qed.

(** ** File names *)

Lemma length_append (a b : string) :
  String.length (a ++ b) = (String.length a + String.length b)%nat.
Proof. induction a as [|c a IH]; simpl; [reflexivity | rewrite IH; reflexivity]. Qed.

Lemma append_cancel_l (s a b : string) : s ++ a = s ++ b -> a = b.
Proof. induction s as [|c s IH]; simpl; intros H; [exact H | inversion H; auto]. Qed.

Lemma append_cancel_r (s : string) : forall a b : string, a ++ s = b ++ s -> a = b.
Proof.
  induction a as [|c a IH]; intros [|d b] H; simpl in H.
  - reflexivity.
  - apply (f_equal String.length) in H. rewrite !length_append in H. simpl in H. lia.
  - apply (f_equal String.length) in H. rewrite !length_append in H. simpl in H. lia.
  - inversion H; subst. f_equal. apply IH. assumption.
Qed.

(** C5, as the code has it. A file name is the sanitized word, ["_"],
    the batch timestamp and [".png"]; the timestamp is the one of the
    job, shared by all its items.  Hence two items of one batch get the
    same file name exactly when their sanitized words are equal (a
    repeated word does collide), and one word gets different file names
    in two batches exactly when the batch timestamps differ. *)
Theorem filename_of_word_and_batch (w1 w2 t1 t2 : string) :
  (item_filename w1 t1 = item_filename w2 t1
   <-> sanitizeFilename w1 = sanitizeFilename w2)
  /\ (item_filename w1 t1 = item_filename w1 t2 <-> t1 = t2)
  /\ (forall rt env o,
        filename (success_entry rt env o w1)
        = item_filename w1 (batch_timestamp (clock env BatchStart))
        /\ url (success_entry rt env o w1)
           = "file://" ++ path_join rt (imageDir rt)
                            (item_filename w1 (batch_timestamp (clock env BatchStart)))).
Proof.
  unfold item_filename. split; [|split].
  - split.
    + intros H. apply append_cancel_r in H. exact H.
    + intros ->. reflexivity.
  - split.
    + intros H. apply append_cancel_l, append_cancel_l, append_cancel_r in H. exact H.
    + intros ->. reflexivity.
  - intros rt env o. split; reflexivity.
Qed.

(** C5, as stated, fails: the two occurrences of "cat" in the batch
    "cat, cat" are both generated and written to one and the same file. *)
Lemma repeated_word_collides :
  let wordList := parse_words "cat, cat" in
  let r := run_job demo_rt env_ok wordList (options_for "cat, cat" "stability")
                   "job_1714558830456_k3x9q0" "2024-05-01T10:20:30.456Z" in
  wordList = ["cat"; "cat"]
  /\ outcome_of r = Completed
  /\ exists a b,
       results (final_of r) !! 0%nat = Some a
       /\ results (final_of r) !! 1%nat = Some b
       /\ filename a = "cat_2024-05-01T10-20-30-456Z.png"
       /\ filename b = filename a
       /\ url b = url a
       /\ url a <> "".
Proof.
  cbn zeta. split; [reflexivity|]. split; [reflexivity|].
  eexists _, _. split; [vm_compute; reflexivity|]. split; [vm_compute; reflexivity|].
  split; [reflexivity|]. split; [reflexivity|]. split; [reflexivity|]. discriminate.
Qed.

(** ** The style table *)

(** C6 fails on the code: for a style that is no key of the table the
    fallback [styles.ghibli] is no key of the table either, and the
    prompt carries the text "undefined" where the descriptor should be. *)
Theorem unknown_style_falls_back_to_undefined :
  own_property styles "watercolor" = None
  /\ own_property styles "ghibli" = None
  /\ stylePrompt (object_proto demo_rt) "watercolor" = Undefined
  /\ buildPrompt (object_proto demo_rt) "cat" "watercolor" "white"
     = "white background, undefined, cat".
Proof. repeat split. Qed.

Lemma unknown_style_is_undefined (proto : string -> option string) (style : string) :
  own_property styles style = None -> proto style = None -> proto "ghibli" = None ->
  stylePrompt proto style = Undefined.
Proof.
  intros Hown Hp Hg. unfold stylePrompt, get_property. rewrite Hown, Hp, Hg. reflexivity.
Qed.

(** ** Timeouts *)

(** No await of the DALL-E branch of the background runner has a timer:
    how long an answer takes does not change how the call ends. *)
Lemma background_dalle_ignores_delay rt env env' provider style background size quality
    ts i w :
  (String.eqb (Js.toLowerCase provider) "dalle3"
   || String.eqb (Js.toLowerCase provider) "dall-e-3")%bool = true ->
  same_answers env env' i ->
  fate rt env (background_attempt rt provider style background size quality ts i w)
  = fate rt env' (background_attempt rt provider style background size quality ts i w).
Proof.
  intros Hp Hsame. unfold background_attempt, background_dalle. rewrite Hp.
  destruct (negb (Js.truthy_opt (dalle3_apiKey rt))); [reflexivity|].
  unfold await. cbn [fate deliver].
  rewrite (Hsame (FetchGenerate _ _ _ _)).
  destruct (untimed (net env' i (FetchGenerate _ _ _ _))) as [[response|e]|];
    [|reflexivity..].
  destruct (negb (ok response)); cbn [fate deliver].
  - rewrite (Hsame ErrorJson).
    destruct (untimed (net env' i ErrorJson)) as [[err|e]|]; reflexivity.
  - rewrite (Hsame ImageUrlJson).
    destruct (untimed (net env' i ImageUrlJson)) as [[imageUrl|e]|]; [|reflexivity..].
    cbn [fate deliver]. rewrite (Hsame (FetchImage imageUrl)).
    destruct (untimed (net env' i (FetchImage imageUrl))) as [[imgRes_ok|e]|];
      [|reflexivity..].
    destruct (negb imgRes_ok); [reflexivity|]. cbn [fate deliver].
    rewrite (Hsame ArrayBuffer).
    destruct (untimed (net env' i ArrayBuffer)) as [[buffer|e]|]; [|reflexivity..].
    cbn [fate deliver]. rewrite (Hsame (WriteFile _ buffer)).
    destruct (untimed (net env' i (WriteFile _ buffer))) as [[[]|e]|]; reflexivity.
Qed.

Lemma background_stability_times_out rt env style background size quality ts i w :
  Js.truthy_opt (stability_apiKey rt) = true ->
  net env i (PostForm stability_ultra
               (buildPrompt (object_proto rt) w style background)
               (size_dims size).1 (size_dims size).2) = Never ->
  fate rt env (background_attempt rt "stability" style background size quality ts i w)
  = Rejected (if String.eqb (Js.name (axios_abort rt)) "AbortError"
              then Js.new_Error "Stability API request timed out after 90 seconds"
              else axios_abort rt).
Proof.
  intros Hk Hnet. unfold background_attempt, background_stability. simpl.
  rewrite Hk. simpl. rewrite Hnet. simpl. unfold on_abort.
  destruct (String.eqb _ _); reflexivity.
Qed.

(** C7 fails on the code: the DALL-E branch of the background runner
    arms no timer.  When the provider takes 200 s to answer a
    generation request, the runner waits for the answer and records a
    success for each word; the Stability branch of the same runner
    aborts the request it has waited 90 s for, and the DALL-E branch of
    the synchronous path the request it has waited 60 s for, and both
    record a failure entry for the word. *)
Theorem background_dalle_request_has_no_timeout :
  let wordList := parse_words "cat, dog" in
  let o := options_for "cat, dog" "dalle3" in
  let prompt := buildPrompt (object_proto demo_rt) "cat" "realistic" "white" in
  let r := run_job demo_rt env_slow wordList o
                   "job_1714558830456_k3x9q0" "2024-05-01T10:20:30.456Z" in
  net env_slow 0 (FetchGenerate dalle3_endpoint prompt "1024x1024" "standard")
  = Settles 200000 (inl (mkResponse true 200))
  /\ call_fate demo_rt env_slow o 0 "cat" = Completed
  /\ call_fate demo_rt env_slow o 1 "dog" = Completed
  /\ outcome_of r = Completed
  /\ status (final_of r) = completed
  /\ map filename (results (final_of r))
     = ["cat_2024-05-01T10-20-30-456Z.png"; "dog_2024-05-01T10-20-30-456Z.png"]
  /\ map url (results (final_of r))
     = ["file:///srv/generated-images/cat_2024-05-01T10-20-30-456Z.png";
        "file:///srv/generated-images/dog_2024-05-01T10-20-30-456Z.png"]
  /\ (let r' := run_job demo_rt env_slow wordList (options_for "cat, dog" "stability")
                        "job_1714558830456_k3x9q0" "2024-05-01T10:20:30.456Z" in
      outcome_of r' = Completed /\ map url (results (final_of r')) = [""; ""])
  /\ generateImagesSync demo_rt (fun s => s) (demo_call env_slow)
       (mkInput "cat, dog" (Some "dalle3") None None None None (Some false))
     = Returns
         [failure_result "cat" (Js.new_Error "DALL-E request timed out after 60 seconds");
          failure_result "dog" (Js.new_Error "DALL-E request timed out after 60 seconds")].
Proof. cbn zeta. repeat split; vm_compute; reflexivity. Qed.

(** ** The status reporter *)

Lemma truthy_nonempty (s : string) : Js.truthy s = true <-> s <> "".
Proof. destruct s; simpl; split; intros H; congruence. Qed.

Lemma success_count_located (rs : list ItemResult) :
  length (List.filter (fun r => Js.truthy (url r)) rs) = located rs.
Proof.
  unfold located. induction rs as [|r rs IH]; [reflexivity|].
  cbn [List.filter]. rewrite filter_cons.
  destruct (Js.truthy (url r)) eqn:Ht.
  - rewrite decide_True by (apply truthy_nonempty, Ht). simpl. rewrite IH. reflexivity.
  - rewrite decide_False
      by (intros Hn; apply truthy_nonempty in Hn; congruence).
    exact IH.
Qed.

Lemma failure_count_complement (rs : list ItemResult) :
  (length (List.filter (fun r => negb (Js.truthy (url r))) rs) + located rs)%nat
  = length rs.
Proof.
  rewrite <- success_count_located. induction rs as [|r rs IH]; [reflexivity|].
  cbn [List.filter]. destruct (Js.truthy (url r)); simpl; lia.
Qed.

(** C8. On a world the process can be in, [checkStatus] changes
    nothing; it throws (the not-found error, and nothing else) exactly
    when the identifier is not in the registry; for a registered job it
    returns the projection of its record, in which the results and the
    two counts are present exactly when the status is Completed, the
    success count being the number of results with a non-empty location
    and the failure count its complement. *)
Theorem checkStatus_reports
    (rt : Runtime) (base64_decode : string -> string) (w : World) (jobId : string) :
  reachable rt base64_decode w ->
  (checkStatus w jobId).1 = w
  /\ ((checkStatus w jobId).2 = Throws (job_not_found jobId)
      <-> activeJobs w !! jobId = None)
  /\ (forall e, (checkStatus w jobId).2 = Throws e ->
        e = job_not_found jobId /\ activeJobs w !! jobId = None)
  /\ (checkStatus w jobId).2 <> Hangs
  /\ (forall l, activeJobs w !! jobId = Some l ->
        exists j v,
          heap w !! l = Some j
          /\ (checkStatus w jobId).2 = Returns v
          /\ v_jobId v = id j /\ v_status v = status j
          /\ v_totalWords v = totalWords j /\ v_completedWords v = completedWords j
          /\ v_startTime v = startTime j
          /\ (status j = completed ->
              v_results v = Some (results j)
              /\ v_successCount v = Some (located (results j))
              /\ v_failureCount v = Some (length (results j) - located (results j))%nat
              /\ v_endTime v = endTime j)
          /\ (status j <> completed ->
              v_results v = None /\ v_successCount v = None
              /\ v_failureCount v = None /\ v_endTime v = None)).
Proof.
  intros Hreach. apply reachable_ok in Hreach. destruct Hreach as [Hreg _ _ _ _].
  unfold checkStatus.
  destruct (activeJobs w !! jobId) as [l|] eqn:Hl; simpl.
  - destruct (Hreg _ _ Hl) as [j Hj]. rewrite Hj. simpl.
    split; [reflexivity|]. split; [split; discriminate|].
    split; [discriminate|]. split; [discriminate|].
    intros l' Hl'. inversion Hl'; subst l'. exists j, (report j).
    split; [exact Hj|]. split; [reflexivity|].
    do 5 (split; [reflexivity|]). unfold report. simpl. split.
    + intros ->. simpl. rewrite success_count_located.
      repeat split. f_equal. pose proof (failure_count_complement (results j)). lia.
    + intros Hs. destruct (status j); [..|contradiction]; simpl; repeat split.
  - split; [reflexivity|]. split; [split; reflexivity|].
    split; [intros e He; inversion He; split; reflexivity|].
    split; [discriminate|]. intros l Hl'. discriminate.
Qed.

(** ** Validation of the word list *)

Lemma parse_words_nil (words : string) :
  parse_words words = []
  <-> forall tok, tok ∈ Js.split "," words -> Js.trim tok = "".
Proof.
  unfold parse_words. induction (Js.split "," words) as [|t l IH]; simpl.
  - split; [intros _ tok H; inversion H | reflexivity].
  - destruct (Js.trim t) as [|c s] eqn:Ht; simpl.
    + rewrite IH. split.
      * intros H tok Htok. apply elem_of_cons in Htok as [->|Htok]; auto.
      * intros H tok Htok. apply H. right. exact Htok.
    + split; [discriminate|]. intros H. specialize (H t (list_elem_of_here _ _)).
      congruence.
Qed.

Lemma parse_words_nonempty (words : string) :
  (exists tok, tok ∈ Js.split "," words /\ Js.trim tok <> "")
  -> parse_words words <> [].
Proof.
  intros (tok & Hin & Hne) Hnil. apply Hne. apply (proj1 (parse_words_nil words) Hnil).
  exact Hin.
Qed.

Lemma wp_any {S} (p : prog S) (s : S) :
  wp (fun _ _ => True) (fun _ => True) (fun _ => True) (fun _ _ => True) p s.
Proof.
  revert s. induction p as [|e|f k IH|c k IH|i t r k IH]; simpl; intros s; auto.
Qed.

(** the loop of the synchronous path lets no exception out *)
Lemma wp_sync_loop rt b64 provider style background size quality ts ws : forall i s,
  wp (fun _ _ => True) (fun _ => True) (fun _ => True) (fun _ _ => False)
     (sync_loop rt b64 provider style background size quality ts i ws) s.
Proof.
  induction ws as [|w rest IH]; intros i s; simpl; [exact I|].
  apply wp_seq, wp_try_catch.
  eapply wp_mono; [| | | |apply wp_any]; simpl; auto.
Qed.

(** C9. When no token of [words] is left after splitting at commas and
    trimming, [generateImages] throws the validation error to its
    caller, on the asynchronous and on the synchronous path; when a
    token is left, the only errors it can throw are those of preparing
    the output directories. *)
Theorem words_are_validated
    (rt : Runtime) (base64_decode : string -> string) (w : World) (ce : CallEnv)
    (input : Input) :
  ((forall tok, tok ∈ Js.split "," (i_words input) -> Js.trim tok = "") ->
     (generateImagesAsync rt w ce input).2 = Throws no_valid_words
     /\ generateImagesSync rt base64_decode ce input = Throws no_valid_words
     /\ (generateImages rt base64_decode w ce input).2 = Throws no_valid_words)
  /\ ((exists tok, tok ∈ Js.split "," (i_words input) /\ Js.trim tok <> "") ->
      forall e,
        ((generateImagesAsync rt w ce input).2 = Throws e -> from_file_system ce e)
        /\ (generateImagesSync rt base64_decode ce input = Throws e ->
            from_file_system ce e)
        /\ ((generateImages rt base64_decode w ce input).2 = Throws e ->
            from_file_system ce e)).
Proof.
  assert (Hasync : forall e,
            parse_words (i_words input) <> [] ->
            (generateImagesAsync rt w ce input).2 = Throws e -> from_file_system ce e).
  { intros e Hne. unfold generateImagesAsync, from_file_system.
    change (o_words (generateImagesSchema_parse input)) with (i_words input).
    destruct (parse_words (i_words input)) as [|x l] eqn:Hw; [contradiction|].
    cbn [length Nat.eqb].
    destruct (ensure_image_dir ce) as [ms1 [[]|e1]|]; cbn [untimed snd];
      [|intros H; inversion H; subst; eauto | discriminate].
    destruct (ensure_jobs_dir ce) as [ms2 [[]|e2]|]; cbn [untimed snd];
      [discriminate | intros H; inversion H; subst; eauto | discriminate]. }
  assert (Hsync : forall e,
            parse_words (i_words input) <> [] ->
            generateImagesSync rt base64_decode ce input = Throws e ->
            from_file_system ce e).
  { intros e Hne. unfold generateImagesSync, from_file_system.
    change (o_words (generateImagesSchema_parse input)) with (i_words input).
    destruct (parse_words (i_words input)) as [|x l] eqn:Hw; [contradiction|].
    cbn [length Nat.eqb].
    destruct (ensure_image_dir ce) as [ms1 [[]|e1]|]; cbn [untimed];
      [|intros H; inversion H; subst; eauto | discriminate].
    match goal with
    | |- context [exec rt ?env ?p ?s] =>
        destruct (exec rt env p s) as [[tr rs] out] eqn:Hex;
        destruct (wp_sound rt _ _ _ _ env p s tr rs out
                    (wp_sync_loop _ _ _ _ _ _ _ _ _ _ _) Hex) as (_ & _ & Hends)
    end.
    destruct out; [discriminate | contradiction | discriminate]. }
  split.
  - intros Hnone. apply parse_words_nil in Hnone.
    unfold generateImages, generateImagesAsync, generateImagesSync. simpl.
    rewrite Hnone. simpl. repeat split. destruct (default true (i_async input)); reflexivity.
  - intros Hsome e. apply parse_words_nonempty in Hsome.
    split; [apply Hasync, Hsome|]. split; [apply Hsync, Hsome|].
    unfold generateImages. destruct (o_async _).
    + specialize (Hasync e Hsome).
      destruct (generateImagesAsync rt w ce input) as [w' [a|e'|]]; simpl in *;
        [discriminate | intros H; inversion H; subst; auto | discriminate].
    + specialize (Hsync e Hsome).
      destruct (generateImagesSync rt base64_decode ce input) as [a|e'|]; simpl in *;
        [discriminate | intros H; inversion H; subst; auto | discriminate].
Qed.

(** C10. When [generateImages] in asynchronous mode throws the
    validation error, the process is exactly as before the call: no job
    object allocated, no entry added to [activeJobs], no runner started. *)
Theorem validation_failure_changes_nothing
    (rt : Runtime) (base64_decode : string -> string) (w : World) (ce : CallEnv)
    (input : Input) :
  o_async (generateImagesSchema_parse input) = true ->
  (generateImages rt base64_decode w ce input).2 = Throws no_valid_words ->
  let w' := (generateImages rt base64_decode w ce input).1 in
  w' = w /\ heap w' = heap w /\ activeJobs w' = activeJobs w /\ tasks w' = tasks w
  /\ (generateImagesAsync rt w ce input).1 = w.
Proof.
  intros Ha. unfold generateImages. rewrite Ha.
  assert (H : forall e, (generateImagesAsync rt w ce input).2 = Throws e ->
                        (generateImagesAsync rt w ce input).1 = w).
  { intros e. unfold generateImagesAsync.
    destruct (length _ =? 0)%nat; [reflexivity|].
    destruct (ensure_image_dir ce) as [ms1 [[]|e1]|]; cbn [untimed]; [|reflexivity..].
    destruct (ensure_jobs_dir ce) as [ms2 [[]|e2]|]; cbn [untimed]; [|reflexivity..].
    simpl. discriminate. }
  destruct (generateImagesAsync rt w ce input) as [w1 res] eqn:Hres. simpl in *.
  intros Hthrow. destruct res as [a|e|]; [discriminate| |discriminate].
  rewrite (H e eq_refl). auto.
Qed.

(** ** Snapshots of a job never go back *)

Lemma job_le_refl a : job_le a a.
Proof. unfold job_le. repeat split; auto. Qed.

Lemma job_le_trans a b c : job_le a b -> job_le b c -> job_le a c.
Proof.
  intros (H1 & H2 & H3 & H4 & H5) (G1 & G2 & G3 & G4 & G5). unfold job_le.
  repeat split; try congruence; try lia. etransitivity; eassumption.
Qed.

Lemma run_sync_steps {S} (W : S -> S -> Prop) O Q E clk (p : prog S) :
  forall s ws s' st,
    wp W O Q E p s -> run_sync clk p s = (ws, s', st) ->
    steps W s ws /\ s' = List.last ws s.
Proof.
  induction p as [|e|f k IH|c k IH|i t r k IH]; simpl; intros s ws s' st Hwp Hr.
  - inversion Hr; subst. simpl. auto.
  - inversion Hr; subst. simpl. auto.
  - destruct Hwp as [HW Hk]. destruct (run_sync clk k (f s)) as [[ws1 s1] st1] eqn:Hk1.
    inversion Hr; subst. destruct (IH _ _ _ _ Hk Hk1) as [Hs Hl].
    rewrite last_cons_default. simpl. auto.
  - eapply IH; [apply Hwp | exact Hr].
  - inversion Hr; subst. simpl. auto.
Qed.

Lemma job_step_le wl a b : job_step wl a b -> job_le a b.
Proof.
  intros (Hs & Hid & _ & Hc & _ & Ht & Hr & _). unfold job_le.
  repeat split; auto.
  - destruct Hs as [->|[[-> ->]|[-> ->]]]; simpl; lia.
  - destruct Hr as [->|[r ->]]; [reflexivity | by exists [r]].
Qed.

Lemma steps_job_le wl (l : list JobRecord) : forall s,
  steps (job_step wl) s l -> job_le s (List.last l s).
Proof.
  induction l as [|b l IH]; intros s Hs; [apply job_le_refl|].
  destruct Hs as [Hb Hs]. rewrite last_cons_default.
  eapply job_le_trans; [apply (job_step_le wl), Hb | apply IH, Hs].
Qed.

(** a stretch of a runner moves its own job record forward and leaves
    the other job records alone *)
Lemma run_on_le w l clk p others wl j :
  heap w !! l = Some j ->
  wp (job_step wl) in_flight (finished wl) (fun _ _ => False) p j ->
  forall l' j1, heap w !! l' = Some j1 ->
    exists j2, heap (run_on w l clk p others) !! l' = Some j2 /\ job_le j1 j2.
Proof.
  intros Hl Hwp l' j1 Hl'. unfold run_on. rewrite Hl.
  destruct (run_sync clk p j) as [[ws j'] st] eqn:Hrun. simpl.
  destruct (run_sync_steps _ _ _ _ clk p j ws j' st Hwp Hrun) as [Hsteps ->].
  destruct (decide (l' = l)) as [->|Hne].
  - rewrite list_lookup_insert_eq by (eapply lookup_lt_Some; eauto).
    eexists. split; [reflexivity|]. rewrite Hl in Hl'. inversion Hl'; subst.
    apply (steps_job_le wl), Hsteps.
  - rewrite list_lookup_insert_ne by congruence. exists j1.
    split; [exact Hl' | apply job_le_refl].
Qed.

Lemma act_le rt b64 w a :
  world_ok w ->
  forall l j, heap w !! l = Some j ->
    exists j', heap (act rt b64 w a) !! l = Some j' /\ job_le j j'.
Proof.
  intros Hw l j Hl.
  assert (Hsame : exists j', heap w !! l = Some j' /\ job_le j j')
    by (exists j; split; [exact Hl | apply job_le_refl]).
  destruct a as [ce input|jobId|n answer clk]; simpl.
  - unfold generateImages. destruct (o_async _); [|exact Hsame].
    unfold generateImagesAsync.
    destruct (length (parse_words _) =? 0)%nat eqn:Hlen; [exact Hsame|].
    destruct (ensure_image_dir ce) as [ms1 [[]|e1]|]; cbn [untimed]; [|exact Hsame..].
    destruct (ensure_jobs_dir ce) as [ms2 [[]|e2]|]; cbn [untimed]; [|exact Hsame..].
    cbn [fst]. unfold generateImagesInBackground. cbn [activeJobs].
    rewrite lookup_insert_eq.
    eapply run_on_le; cbn [heap].
    + rewrite lookup_app_r by lia. rewrite Nat.sub_diag. reflexivity.
    + apply wp_runner. intros Hnil. rewrite Hnil in Hlen. discriminate.
    + rewrite lookup_app_l by (eapply lookup_lt_Some; eauto). exact Hl.
  - unfold checkStatus. destruct (_ ≫= _); exact Hsame.
  - unfold resume. destruct (tasks w !! n) as [t|] eqn:Ht; [|exact Hsame].
    destruct (deliver _ _ _) as [x|]; [|exact Hsame].
    destruct Hw as [_ _ Htasks _ _]. rewrite Forall_forall in Htasks.
    destruct (Htasks t) as (jt & wl & Hjt & _ & Hwp).
    { apply list_elem_of_lookup. eauto. }
    eapply run_on_le; eauto.
Qed.

(** X7. Whatever happens to the process between two status queries, the
    later one finds every job it found before, with its status, its
    counter and its results where they were or further on; every job a
    query can find has [completedWords = results.length], and no
    exception has left a runner. *)
Lemma snapshots_only_advance rt b64 w actions :
  reachable rt b64 w ->
  let w' := fold_left (act rt b64) actions w in
  unhandled w' = []
  /\ (forall l j, heap w' !! l = Some j ->
        completedWords j = length (results j)
        /\ (completedWords j <= totalWords j)%nat
        /\ (status j = completed <-> completedWords j = totalWords j))
  /\ (forall l j, heap w !! l = Some j ->
        exists j', heap w' !! l = Some j' /\ job_le j j').
Proof.
  intros Hreach. apply reachable_ok in Hreach. revert w Hreach.
  induction actions as [|a actions IH]; intros w Hw; cbn zeta; simpl.
  - split; [apply Hw|]. split.
    + intros l j Hl. destruct (heap_ok w Hw l j Hl)
        as [(Hs & Hc & Hlt & _)|(wl & Hs & Hc & Hl' & _)].
      * rewrite Hs. repeat split; try lia; try discriminate.
      * rewrite Hs. repeat split; try lia; auto.
    + intros l j Hl. exists j. split; [exact Hl | apply job_le_refl].
  - destruct (IH _ (act_ok rt b64 w a Hw)) as (Hun & Hcons & Hle).
    split; [exact Hun|]. split; [exact Hcons|].
    intros l j Hl. destruct (act_le rt b64 w a Hw l j Hl) as (j1 & Hl1 & Hle1).
    destruct (Hle l j1 Hl1) as (j2 & Hl2 & Hle2).
    exists j2. split; [exact Hl2 | eapply job_le_trans; eassumption].
Qed.

(** ** The theorems at concrete inputs *)


Lemma one_result_per_word_witness :
  let wordList := parse_words "cat, dog, owl" in
  let o := options_for "cat, dog, owl" "stability" in
  let r := run_job demo_rt env_second_fails wordList o
                   "job_1714558830456_k3x9q0" "2024-05-01T10:20:30.456Z" in
  wordList <> []
  /\ outcome_of r = Completed
  /\ status (final_of r) = completed
  /\ length (results (final_of r)) = length wordList.
Proof.
  cbn zeta.
  assert (H1 : parse_words "cat, dog, owl" <> []) by discriminate.
  destruct (one_result_per_word demo_rt env_second_fails _
              (options_for "cat, dog, owl" "stability")
              "job_1714558830456_k3x9q0" "2024-05-01T10:20:30.456Z" H1)
    as (_ & _ & _ & Hall).
  assert (Hcome : forall m w', parse_words "cat, dog, owl" !! m = Some w' ->
            call_fate demo_rt env_second_fails (options_for "cat, dog, owl" "stability")
                      m w' <> Blocked).
  { intros [|[|[|m]]] w' Hw'; inversion Hw'; subst; vm_compute; discriminate. }
  destruct (Hall Hcome) as (Hout & Hst & _ & Hlen).
  split; [exact H1|]. split; [exact Hout|]. split; [exact Hst | exact Hlen].
Defined.

Lemma completedWords_matches_results_witness :
  let wordList := parse_words "cat, dog" in
  let o := options_for "cat, dog" "dalle3" in
  wordList <> []
  /\ forall j,
       j ∈ observation_points demo_rt env_ok wordList o
             "job_1714558830456_k3x9q0" "2024-05-01T10:20:30.456Z" ->
       completedWords j = length (results j)
       /\ (0 <= completedWords j <= totalWords j)%nat.
Proof.
  cbn zeta.
  assert (H1 : parse_words "cat, dog" <> []) by discriminate.
  split; [exact H1|].
  apply (completedWords_matches_results demo_rt env_ok _ (options_for "cat, dog" "dalle3")
           "job_1714558830456_k3x9q0" "2024-05-01T10:20:30.456Z" H1).
Defined.

Lemma status_follows_lifecycle_witness :
  let wordList := parse_words "cat, dog" in
  let o := options_for "cat, dog" "dalle3" in
  let r := run_job demo_rt env_ok wordList o
                   "job_1714558830456_k3x9q0" "2024-05-01T10:20:30.456Z" in
  wordList <> []
  /\ outcome_of r = Completed
  /\ status (final_of r) = completed
  /\ endTime_writes (new_job "job_1714558830456_k3x9q0" wordList o
                             "2024-05-01T10:20:30.456Z")
                    (map state_of (trace_of r)) = 1%nat.
Proof.
  cbn zeta.
  assert (H1 : parse_words "cat, dog" <> []) by discriminate.
  assert (H2 : outcome_of (run_job demo_rt env_ok (parse_words "cat, dog")
                             (options_for "cat, dog" "dalle3")
                             "job_1714558830456_k3x9q0" "2024-05-01T10:20:30.456Z")
               = Completed) by (vm_compute; reflexivity).
  destruct (status_follows_lifecycle demo_rt env_ok _ (options_for "cat, dog" "dalle3")
              "job_1714558830456_k3x9q0" "2024-05-01T10:20:30.456Z" H1)
    as (_ & _ & _ & _ & Hdone).
  destruct (Hdone H2) as [Hst Hone]. repeat split; assumption.
Defined.

Lemma checkStatus_reports_witness :
  reachable demo_rt (fun s => s) world_after_generate
  /\ (checkStatus world_after_generate "job_1714558830456_k3x9q0").1
     = world_after_generate
  /\ ((checkStatus world_after_generate "job_0").2 = Throws (job_not_found "job_0")
      <-> activeJobs world_after_generate !! "job_0" = None).
Proof.
  assert (H : reachable demo_rt (fun s => s) world_after_generate).
  { exists [Generate (demo_call env_ok) (mkInput "cat, dog" None None None None None None)].
    reflexivity. }
  split; [exact H|]. split.
  - apply (checkStatus_reports demo_rt (fun s => s) world_after_generate
             "job_1714558830456_k3x9q0" H).
  - apply (checkStatus_reports demo_rt (fun s => s) world_after_generate "job_0" H).
Defined.

Lemma validation_failure_changes_nothing_witness :
  let input := mkInput " , ," None None None None None None in
  o_async (generateImagesSchema_parse input) = true
  /\ (generateImages demo_rt (fun s => s) world_after_generate (demo_call env_ok) input).2
     = Throws no_valid_words
  /\ (generateImages demo_rt (fun s => s) world_after_generate (demo_call env_ok) input).1
     = world_after_generate.
Proof.
  cbn zeta.
  assert (H1 : o_async (generateImagesSchema_parse
                          (mkInput " , ," None None None None None None)) = true)
    by reflexivity.
  assert (H2 : (generateImages demo_rt (fun s => s) world_after_generate (demo_call env_ok)
                  (mkInput " , ," None None None None None None)).2
               = Throws no_valid_words) by reflexivity.
  split; [exact H1|]. split; [exact H2|].
  apply (validation_failure_changes_nothing demo_rt (fun s => s) world_after_generate
           (demo_call env_ok) _ H1 H2).
Defined.

(** * Further properties of the module *)

(** ** Words and file names *)

Lemma sanitized_char_safe (c : ascii) :
  safe_char (Js.lower_char (if Js.is_alnum c then c else "_"%char)) = true.
Proof.
  destruct c as [b0 b1 b2 b3 b4 b5 b6 b7].
  destruct b0, b1, b2, b3, b4, b5, b6, b7; vm_compute; reflexivity.
Qed.

Lemma safe_char_fixed (c : ascii) :
  safe_char c = true ->
  Js.lower_char (if Js.is_alnum c then c else "_"%char) = c /\ Js.is_space c = false.
Proof.
  destruct c as [b0 b1 b2 b3 b4 b5 b6 b7].
  destruct b0, b1, b2, b3, b4, b5, b6, b7; vm_compute; intros H;
    first [discriminate H | split; reflexivity].
Qed.

Lemma sanitized_chars_safe (s : string) :
  all_chars safe_char
    (Js.toLowerCase (Js.map_chars (fun c => if Js.is_alnum c then c else "_"%char) s))
  = true.
Proof.
  induction s as [|c s IH]; [reflexivity|].
  cbn [Js.map_chars Js.toLowerCase all_chars]. rewrite sanitized_char_safe. exact IH.
Qed.

(** X8. A sanitized word consists of small ASCII letters, digits and
    underscores only (no path separator, no dot, no space), and is as
    long as the trimmed word. *)
Theorem sanitizeFilename_is_safe (w : string) :
  all_chars safe_char (sanitizeFilename w) = true
  /\ String.length (sanitizeFilename w) = String.length (Js.trim w).
Proof.
  split; [apply sanitized_chars_safe|].
  unfold sanitizeFilename, Js.toLowerCase.
  induction (Js.trim w) as [|c s IH]; [reflexivity|]. simpl. rewrite IH. reflexivity.
Qed.

Lemma trimEnd_no_space (s : string) :
  all_chars (fun c => negb (Js.is_space c)) s = true -> Js.trimEnd s = s.
Proof.
  induction s as [|c s IH]; [reflexivity|]. cbn [all_chars Js.trimEnd].
  intros H. apply andb_prop in H as [Hc Hs]. rewrite (IH Hs).
  apply negb_true_iff in Hc. rewrite Hc. destruct s; reflexivity.
Qed.

Lemma trim_no_space (s : string) :
  all_chars (fun c => negb (Js.is_space c)) s = true -> Js.trim s = s.
Proof.
  intros H. unfold Js.trim.
  assert (Hs : Js.trimStart s = s).
  { destruct s as [|c s]; [reflexivity|]. cbn [all_chars] in H.
    apply andb_prop in H as [Hc _]. apply negb_true_iff in Hc. simpl. rewrite Hc.
    reflexivity. }
  rewrite Hs. apply trimEnd_no_space, H.
Qed.

Lemma safe_string_fixed (s : string) :
  all_chars safe_char s = true ->
  all_chars (fun c => negb (Js.is_space c)) s = true
  /\ Js.toLowerCase (Js.map_chars (fun c => if Js.is_alnum c then c else "_"%char) s) = s.
Proof.
  induction s as [|c s IH]; [split; reflexivity|]. cbn [all_chars]. intros H.
  apply andb_prop in H as [Hc Hs]. destruct (IH Hs) as [IH1 IH2].
  destruct (safe_char_fixed c Hc) as [Hfix Hsp]. split.
  - rewrite Hsp, IH1. reflexivity.
  - unfold Js.toLowerCase in *. cbn [Js.map_chars]. rewrite Hfix, IH2. reflexivity.
Qed.

(** X9. Sanitizing is idempotent: a sanitized word is its own sanitized
    form, so the name of a generated file can be fed back as a word
    without changing. *)
Theorem sanitizeFilename_idempotent (w : string) :
  sanitizeFilename (sanitizeFilename w) = sanitizeFilename w.
Proof.
  destruct (safe_string_fixed _ (sanitized_chars_safe (Js.trim w))) as [Hsp Hfix].
  unfold sanitizeFilename. rewrite (trim_no_space _ Hsp). exact Hfix.
Qed.

Lemma trimStart_clean (s : string) :
  match Js.trimStart s with
  | EmptyString => True
  | String c _ => Js.is_space c = false
  end.
Proof.
  induction s as [|c s IH]; simpl; [exact I|].
  destruct (Js.is_space c) eqn:Hc; [exact IH | exact Hc].
Qed.

Lemma trimEnd_idempotent (s : string) : Js.trimEnd (Js.trimEnd s) = Js.trimEnd s.
Proof.
  induction s as [|c s IH]; [reflexivity|]. cbn [Js.trimEnd].
  destruct (Js.trimEnd s) as [|d r] eqn:Hr.
  - destruct (Js.is_space c) eqn:Hc; [reflexivity|]. simpl. rewrite Hc. reflexivity.
  - cbn [Js.trimEnd]. cbn [Js.trimEnd] in IH. rewrite IH. reflexivity.
Qed.

Lemma trimEnd_head (c : ascii) (s : string) :
  Js.is_space c = false -> exists r, Js.trimEnd (String c s) = String c r.
Proof.
  intros Hc. cbn [Js.trimEnd]. destruct (Js.trimEnd s); [rewrite Hc|]; eauto.
Qed.

Lemma trim_idempotent (s : string) : Js.trim (Js.trim s) = Js.trim s.
Proof.
  unfold Js.trim. pose proof (trimStart_clean s) as Hclean.
  destruct (Js.trimStart s) as [|c u]; [reflexivity|].
  destruct (trimEnd_head c u Hclean) as [r Hr].
  assert (Hs : Js.trimStart (Js.trimEnd (String c u)) = Js.trimEnd (String c u)).
  { rewrite Hr. simpl. rewrite Hclean. reflexivity. }
  rewrite Hs. apply trimEnd_idempotent.
Qed.

Lemma all_chars_trimStart P (s : string) :
  all_chars P s = true -> all_chars P (Js.trimStart s) = true.
Proof.
  induction s as [|c s IH]; [reflexivity|]. intros H. simpl.
  destruct (Js.is_space c); [|exact H].
  apply IH. cbn [all_chars] in H. apply andb_prop in H. apply H.
Qed.

Lemma all_chars_trimEnd P (s : string) :
  all_chars P s = true -> all_chars P (Js.trimEnd s) = true.
Proof.
  induction s as [|c s IH]; [reflexivity|]. cbn [all_chars Js.trimEnd]. intros H.
  apply andb_prop in H as [Hc Hs]. specialize (IH Hs).
  destruct (Js.trimEnd s) as [|d r].
  - destruct (Js.is_space c); [reflexivity|]. simpl. rewrite Hc. reflexivity.
  - cbn [all_chars]. cbn [all_chars] in IH. rewrite Hc, IH. reflexivity.
Qed.

Lemma split_pieces_clean (sep : ascii) (s : string) :
  Forall (fun tok => all_chars (fun c => negb (Ascii.eqb c sep)) tok = true)
         (Js.split sep s).
Proof.
  induction s as [|c s IH]; simpl.
  - constructor; [reflexivity | constructor].
  - destruct (Ascii.eqb c sep) eqn:Hc.
    + constructor; [reflexivity | exact IH].
    + destruct (Js.split sep s) as [|h t].
      * constructor; [|constructor]. cbn [all_chars]. rewrite Hc. reflexivity.
      * inversion IH; subst. constructor; [|assumption].
        cbn [all_chars]. rewrite Hc. simpl. assumption.
Qed.

Lemma split_count (sep : ascii) (s : string) :
  length (Js.split sep s)
  = S (length (List.filter (Ascii.eqb sep) (list_ascii_of_string s))).
Proof.
  induction s as [|c s IH]; [reflexivity|]. simpl.
  rewrite (Ascii.eqb_sym sep c).
  destruct (Ascii.eqb c sep); simpl; [rewrite IH; reflexivity|].
  destruct (Js.split sep s) as [|h t]; simpl in *; [discriminate | exact IH].
Qed.

(** X10. Every word of the parsed word list is non-empty, already
    trimmed and free of commas, and there are at most as many words as
    commas in the input plus one. *)
Theorem parse_words_are_clean (words : string) :
  (forall w, w ∈ parse_words words ->
     w <> "" /\ Js.trim w = w /\ all_chars not_comma w = true)
  /\ (length (parse_words words)
      <= S (length (List.filter (Ascii.eqb ",") (list_ascii_of_string words))))%nat.
Proof.
  unfold parse_words. split.
  - intros w Hw. apply list_elem_of_In, filter_In in Hw as [Hin Hlen].
    apply in_map_iff in Hin as (tok & <- & Htok). split; [|split].
    + intros Hnil. rewrite Hnil in Hlen. discriminate.
    + apply trim_idempotent.
    + pose proof (split_pieces_clean "," words) as Hclean.
      rewrite Forall_forall in Hclean. apply list_elem_of_In, Hclean in Htok.
      unfold Js.trim. apply all_chars_trimEnd, all_chars_trimStart. exact Htok.
  - etransitivity; [apply List.filter_length_le|].
    rewrite length_map, split_count. reflexivity.
Qed.

(** ** Listing files *)

Lemma is_suffix_app (suffix x : string) : is_suffix suffix (x ++ suffix) = true.
Proof.
  induction x as [|c x IH]; simpl.
  - destruct suffix; simpl; [reflexivity|]. rewrite Ascii.eqb_refl, String.eqb_refl.
    reflexivity.
  - rewrite IH. apply orb_true_r.
Qed.

Lemma map_chars_app f (a b : string) :
  Js.map_chars f (a ++ b) = Js.map_chars f a ++ Js.map_chars f b.
Proof. induction a as [|c a IH]; simpl; [reflexivity | rewrite IH; reflexivity]. Qed.

Lemma string_app_assoc (a b c : string) : (a ++ b) ++ c = a ++ (b ++ c).
Proof.
  induction a as [|x a IH]; [reflexivity|].
  change (String x ((a ++ b) ++ c) = String x (a ++ (b ++ c))). f_equal. exact IH.
Qed.

Lemma generated_name_has_image_ext (w timestamp : string) :
  has_image_ext (item_filename w timestamp) = true.
Proof.
  unfold has_image_ext.
  replace (item_filename w timestamp)
    with ((sanitizeFilename w ++ "_" ++ timestamp) ++ ".png")
    by (unfold item_filename; rewrite !string_app_assoc; reflexivity).
  rewrite map_chars_app.
  change (Js.map_chars ascii_lower ".png") with ".png".
  rewrite is_suffix_app. reflexivity.
Qed.

Lemma insert_sorted_perm {A} (cmp : A -> A -> Z) (x : A) (l : list A) :
  insert_sorted cmp x l ≡ₚ x :: l.
Proof.
  induction l as [|y l IH]; simpl; [reflexivity|].
  destruct (cmp x y <=? 0); [reflexivity|].
  rewrite IH. apply Permutation_swap.
Qed.

Lemma Array_sort_perm {A} (cmp : A -> A -> Z) (l : list A) : Array_sort cmp l ≡ₚ l.
Proof.
  unfold Array_sort. induction l as [|x l IH]; simpl; [reflexivity|].
  rewrite insert_sorted_perm, IH. reflexivity.
Qed.

Lemma insert_newest x l :
  newest_to_oldest l -> newest_to_oldest (insert_sorted newest_first x l).
Proof.
  induction l as [|y l IH]; simpl; [auto|]. intros [Hy Hl].
  unfold newest_first at 1. destruct (li_created y - li_created x <=? 0) eqn:Hc.
  - apply Z.leb_le in Hc. simpl. split; [|auto].
    constructor; [lia|]. eapply Forall_impl; [exact Hy|]. simpl. intros b Hb. lia.
  - apply Z.leb_gt in Hc. simpl. split; [|auto].
    rewrite insert_sorted_perm. constructor; [lia | exact Hy].
Qed.

Lemma Array_sort_newest l : newest_to_oldest (Array_sort newest_first l).
Proof.
  unfold Array_sort. induction l as [|x l IH]; simpl; [exact I|].
  apply insert_newest, IH.
Qed.

Lemma newest_to_oldest_lookup l : forall i j a b,
  newest_to_oldest l -> (i <= j)%nat -> l !! i = Some a -> l !! j = Some b ->
  li_created b <= li_created a.
Proof.
  induction l as [|x l IH]; intros i j a b Hs Hij Ha Hb; [discriminate|].
  destruct Hs as [Hx Hl]. destruct i as [|i].
  - simpl in Ha. inversion Ha; subst. destruct j as [|j].
    + simpl in Hb. inversion Hb; subst. lia.
    + simpl in Hb. rewrite Forall_forall in Hx. apply Hx.
      apply list_elem_of_lookup. eauto.
  - destruct j as [|j]; [lia|]. simpl in Ha, Hb. apply (IH i j a b Hl); [lia|assumption..].
Qed.

Lemma Promise_all_fulfilled {A} (ps : list (Settlement A)) vs :
  untimed (Promise_all ps) = Some (inl vs) -> all_fulfilled ps = Some vs.
Proof.
  unfold Promise_all. destruct (first_rejection ps) as [[ms e]|]; [discriminate|].
  destruct (all_fulfilled ps); simpl; intros H; inversion H; reflexivity.
Qed.

Lemma Promise_all_rejected {A} (ps : list (Settlement A)) e :
  untimed (Promise_all ps) = Some (inr e) -> exists ms, Settles ms (inr e) ∈ ps.
Proof.
  unfold Promise_all. intros H.
  assert (Hfirst : forall ms e', first_rejection ps = Some (ms, e') ->
                                 Settles ms (inr e') ∈ ps).
  { clear. induction ps as [|p ps IH]; simpl; intros ms e' H; [discriminate|].
    destruct p as [ms1 [v|e1]|]; try (right; apply IH; exact H).
    destruct (first_rejection ps) as [[ms2 e2]|].
    - destruct (ms2 <? ms1); inversion H; subst; [right; apply IH; reflexivity | left].
    - inversion H; subst. left. }
  destruct (first_rejection ps) as [[ms e']|] eqn:Hf.
  - simpl in H. inversion H; subst. eauto.
  - destruct (all_fulfilled ps); simpl in H; discriminate.
Qed.

Lemma all_listed rt fe (names : list string) : forall vs,
  all_fulfilled (map (listed rt fe) names) = Some vs ->
  map li_filename vs = names
  /\ Forall (fun a => exists ms st,
                fs_stat fe (path_join rt (imageDir rt) (li_filename a))
                = Settles ms (inl st)
                /\ a = entry_of_stat rt (li_filename a) st) vs.
Proof.
  induction names as [|n names IH]; simpl; intros vs H.
  - inversion H; subst. split; [reflexivity | constructor].
  - unfold listed at 1 in H.
    destruct (fs_stat fe (path_join rt (imageDir rt) n)) as [ms [st|e]|] eqn:Hst;
      try discriminate.
    destruct (all_fulfilled (map (listed rt fe) names)) as [vs'|]; [|discriminate].
    simpl in H. inversion H; subst. destruct (IH vs' eq_refl) as [Hn Hall]. split.
    + simpl. rewrite Hn. reflexivity.
    + constructor; [|exact Hall]. simpl. exists ms, st. split; [exact Hst | reflexivity].
Qed.

Lemma image_files_spec test files f :
  f ∈ image_files test files <->
  f ∈ files /\ has_image_ext f = true
  /\ match test with Some t => t f = true | None => True end.
Proof.
  unfold image_files. destruct test as [t|]; rewrite !list_elem_of_In, ?filter_In;
    rewrite ?list_elem_of_In; tauto.
Qed.

(** X13. When [listImages] returns, its entries are exactly the files
    of the directory listing with an image extension that match the
    pattern (each as often as the listing has it), every entry carries
    what [fs.stat] said of its file, and the entries are ordered newest
    first. *)
Theorem listImages_lists_matching_files
    (rt : Runtime) (fe : FsEnv) (pattern : option string) (out : list ListedImage) :
  listImages rt fe pattern = Returns out ->
  exists files,
    untimed (fs_readdir fe) = Some (inl files)
    /\ map li_filename out ≡ₚ image_files (pattern_test fe pattern) files
    /\ (forall f, f ∈ map li_filename out <->
          f ∈ files /\ has_image_ext f = true
          /\ match pattern_test fe pattern with Some t => t f = true | None => True end)
    /\ (forall a, a ∈ out ->
          exists ms st,
            fs_stat fe (path_join rt (imageDir rt) (li_filename a)) = Settles ms (inl st)
            /\ a = entry_of_stat rt (li_filename a) st)
    /\ (forall i j a b, (i <= j)%nat -> out !! i = Some a -> out !! j = Some b ->
          li_created b <= li_created a).
Proof.
  unfold listImages. intros H.
  destruct (untimed (fs_ensure fe)) as [[[]|e]|]; try discriminate.
  destruct (untimed (fs_readdir fe)) as [[files|e]|]; try discriminate.
  exists files. split; [reflexivity|].
  assert (Hsel : exists test,
            pattern_test fe pattern = test
            /\ exists results,
                 all_fulfilled (map (listed rt fe) (image_files test files)) = Some results
                 /\ out = Array_sort newest_first results).
  { unfold pattern_test. destruct (Js.truthy_opt pattern).
    - destruct (new_RegExp_i fe (default "" pattern)) as [e|t]; [discriminate|].
      exists (Some t). split; [reflexivity|].
      destruct (untimed (Promise_all _)) as [[results|e]|] eqn:Hall; try discriminate.
      exists results. split; [apply Promise_all_fulfilled, Hall | congruence].
    - exists None. split; [reflexivity|].
      destruct (untimed (Promise_all _)) as [[results|e]|] eqn:Hall; try discriminate.
      exists results. split; [apply Promise_all_fulfilled, Hall | congruence]. }
  destruct Hsel as (test & Htest & results & Hres & ->). subst test.
  destruct (all_listed rt fe _ _ Hres) as [Hnames Hstat].
  assert (Hperm : map li_filename (Array_sort newest_first results)
                  ≡ₚ image_files (pattern_test fe pattern) files).
  { rewrite Array_sort_perm, Hnames. reflexivity. }
  split; [exact Hperm|]. split; [|split].
  - intros f. rewrite Hperm. apply image_files_spec.
  - intros a Ha. rewrite Array_sort_perm in Ha. rewrite Forall_forall in Hstat. auto.
  - intros i j a b. apply newest_to_oldest_lookup, Array_sort_newest.
Qed.

(** X14. A listing in which no image file matches the pattern is
    answered with the empty list, not with an error: [fs.stat] is not
    even called. *)
Theorem listImages_without_match_is_empty
    (rt : Runtime) (fe : FsEnv) (pattern : option string) (files : list string) :
  untimed (fs_ensure fe) = Some (inl tt) ->
  untimed (fs_readdir fe) = Some (inl files) ->
  (Js.truthy_opt pattern = true ->
     exists t, new_RegExp_i fe (default "" pattern) = inr t) ->
  image_files (pattern_test fe pattern) files = [] ->
  listImages rt fe pattern = Returns [].
Proof.
  intros He Hr Hc Hnone. unfold listImages. rewrite He, Hr.
  unfold pattern_test in Hnone. destruct (Js.truthy_opt pattern).
  - destruct (Hc eq_refl) as [t Ht]. rewrite Ht in Hnone |- *. rewrite Hnone. reflexivity.
  - rewrite Hnone. reflexivity.
Qed.

(** X15. A file the batch runner has written is listed: its name has
    the extension [listImages] looks for, so a listing without pattern
    that returns contains every generated file of the directory. *)
Theorem generated_files_are_listed
    (rt : Runtime) (fe : FsEnv) (out : list ListedImage) (files : list string)
    (w timestamp : string) :
  listImages rt fe None = Returns out ->
  untimed (fs_readdir fe) = Some (inl files) ->
  item_filename w timestamp ∈ files ->
  item_filename w timestamp ∈ map li_filename out.
Proof.
  intros Hout Hdir Hin. unfold listImages in Hout. rewrite Hdir in Hout.
  destruct (untimed (fs_ensure fe)) as [[[]|e]|]; try discriminate.
  simpl in Hout.
  destruct (untimed (Promise_all _)) as [[results|e]|] eqn:Hall; try discriminate.
  apply Promise_all_fulfilled in Hall. destruct (all_listed rt fe _ _ Hall) as [Hnames _].
  inversion Hout; subst. rewrite Array_sort_perm, Hnames.
  apply (image_files_spec None). split; [exact Hin|].
  split; [apply generated_name_has_image_ext | exact I].
Qed.

(** ** Creating a job and asking for it *)

Lemma generateImagesAsync_returns rt w ce input w' resp :
  generateImagesAsync rt w ce input = (w', Returns resp) ->
  let o := generateImagesSchema_parse input in
  let wordList := parse_words (i_words input) in
  let j0 := new_job (job_id_of ce) wordList o (start_iso ce) in
  wordList <> []
  /\ r_jobId resp = job_id_of ce /\ r_status resp = started
  /\ r_totalWords resp = length wordList
  /\ activeJobs w' = <[job_id_of ce := length (heap w)]> (activeJobs w)
  /\ unhandled w' = unhandled w
  /\ exists ws j' st,
       run_sync (clock (call_env ce)) (runner_of rt wordList o) j0 = (ws, j', st)
       /\ heap w' = (heap w ++ [j'])%list
       /\ tasks w' = match st with
                     | Parked i t r k => (tasks w ++ [mkTask (length (heap w)) i t r k])%list
                     | _ => tasks w
                     end.
Proof.
  unfold generateImagesAsync.
  change (o_words (generateImagesSchema_parse input)) with (i_words input).
  destruct (parse_words (i_words input)) as [|x l] eqn:Hw; [discriminate|].
  rewrite <- Hw. assert (Hne : parse_words (i_words input) <> []) by (rewrite Hw; discriminate).
  replace (length (parse_words (i_words input)) =? 0)%nat with false
    by (rewrite Hw; reflexivity).
  destruct (untimed (ensure_image_dir ce)) as [[[]|e]|]; try discriminate.
  destruct (untimed (ensure_jobs_dir ce)) as [[[]|e]|]; try discriminate.
  fold (job_id_of ce). unfold generateImagesInBackground. cbn [activeJobs].
  rewrite lookup_insert_eq. unfold run_on. cbn [heap activeJobs tasks unhandled].
  rewrite lookup_app_r by lia. rewrite Nat.sub_diag. cbn [lookup list_lookup].
  fold (runner_of rt (parse_words (i_words input)) (generateImagesSchema_parse input)).
  pose proof (wp_runner rt (parse_words (i_words input)) (generateImagesSchema_parse input)
                (job_id_of ce) (start_iso ce) Hne) as Hwp.
  destruct (run_sync _ _ _) as [[ws j'] st] eqn:Hrun.
  pose proof (run_sync_wp _ _ _ _ _ _ _ _ _ _ Hwp Hrun) as Hst.
  intros H. inversion H; subst; clear H. cbn zeta. cbn [r_jobId r_status r_totalWords].
  repeat (split; [first [assumption | reflexivity]|]).
  split; [destruct st; [reflexivity | contradiction | reflexivity]|].
  exists ws, j', st. split; [reflexivity|]. split.
  - rewrite insert_app_r_alt by lia. rewrite Nat.sub_diag. reflexivity.
  - reflexivity.
Qed.

Lemma job_ok_not_started j : job_ok j -> status j <> started.
Proof. intros [(Hs & _)|(wl & Hs & _)]; rewrite Hs; discriminate. Qed.

Lemma job_ok_bounds j :
  job_ok j -> completedWords j = length (results j)
              /\ (completedWords j <= totalWords j)%nat.
Proof. intros [(_ & Hc & Hlt & _)|(wl & _ & Hc & Hl & _)]; split; lia. Qed.

(** ** What the runner leaves alone, and the word it shows *)

Lemma same_fixed_refl a : same_fixed a a.
Proof. unfold same_fixed. repeat split. Qed.

Lemma same_fixed_trans a b c : same_fixed a b -> same_fixed b c -> same_fixed a c.
Proof. unfold same_fixed. intuition congruence. Qed.

Lemma wp_background_loop_fixed rt provider style background size quality timestamp
    wordList ws : forall i s,
  at_loop_test wordList i ws s ->
  wp same_fixed (shows_current_word wordList) (fun _ => True) (fun _ _ => True)
     (background_loop rt provider style background size quality timestamp i ws) s.
Proof.
  induction ws as [|w rest IH]; intros i s Hpre.
  - simpl. unfold same_fixed. simpl. repeat split.
  - pose proof (at_loop_test_length _ _ _ _ Hpre) as Hlen.
    destruct Hpre as (Ht & Hc & Hl & He & Hm & Hst).
    set (s2 := set_currentWord (Some w) (set_status generating s)).
    assert (Hafter : forall r, word r = w ->
              wp same_fixed (shows_current_word wordList) (fun _ => True) (fun _ _ => True)
                 (Write (set_completedWords (i + 1))
                    (background_loop rt provider style background size quality timestamp
                                     (i + 1) rest))
                 (push_result r s2)).
    { intros r Hr. simpl. split; [unfold same_fixed; simpl; repeat split|].
      apply IH. unfold at_loop_test. simpl.
      rewrite Ht, length_app, Hl, He, map_app, <- app_assoc. simpl. rewrite Hr.
      repeat split; eauto with lia. }
    simpl. unfold background_item. simpl. fold s2.
    split; [unfold same_fixed; simpl; repeat split|].
    split; [unfold same_fixed; simpl; repeat split|].
    apply wp_seq, wp_try_catch.
    eapply wp_mono; [| | | |apply wp_background_attempt].
    + intros a b [-> ->]. unfold same_fixed. simpl. repeat split.
    + intros a ->. unfold shows_current_word. simpl. split; [eauto|].
      rewrite Hc, <- Hm. rewrite lookup_app_r by (rewrite length_map; lia).
      rewrite length_map, Hl, Nat.sub_diag. reflexivity.
    + intros a ->. apply Hafter. reflexivity.
    + intros e a ->. simpl. split; [unfold same_fixed; simpl; repeat split|].
      apply Hafter. reflexivity.
Qed.

Lemma wp_runner_fixed rt wordList o jobId start :
  wordList <> [] ->
  wp same_fixed (shows_current_word wordList) (fun _ => True) (fun _ _ => True)
     (runner_of rt wordList o) (new_job jobId wordList o start).
Proof.
  intros Hne. unfold runner_of, background_body. simpl. intros t.
  apply wp_background_loop_fixed. unfold at_loop_test. simpl. repeat split; auto.
Qed.

Lemma steps_same_fixed (l : list JobRecord) : forall s,
  steps same_fixed s l -> Forall (same_fixed s) (s :: l).
Proof.
  intros s Hs. apply (steps_all (same_fixed s) same_fixed); [|exact Hs|apply same_fixed_refl].
  intros a b Hab Ha. eapply same_fixed_trans; eassumption.
Qed.

(** X3. The batch runner never changes the identifier, the number of
    words, the start time or the generation options of its job record:
    every state the record goes through carries those of its creation;
    and whenever the runner is suspended, [currentWord] is the word
    whose entry comes next, [wordList[completedWords]]. *)
Theorem runner_keeps_fixed_fields
    (rt : Runtime) (env : Env) (wordList : list string) (o : Options)
    (jobId start : string) :
  wordList <> [] ->
  (forall j, j ∈ history rt env wordList o jobId start ->
     id j = jobId /\ totalWords j = length wordList /\ startTime j = start
     /\ provider j = o_provider o /\ style j = o_style o
     /\ background j = o_background o /\ size j = o_size o /\ quality j = o_quality o)
  /\ (forall j,
        j ∈ suspended_states (trace_of (run_job rt env wordList o jobId start)) ->
        exists w, currentWord j = Some w /\ wordList !! completedWords j = Some w).
Proof.
  intros Hne. pose proof (wp_runner_fixed rt wordList o jobId start Hne) as Hwp.
  unfold history, run_job.
  destruct (exec rt env (runner_of rt wordList o) (new_job jobId wordList o start))
    as [[tr j'] out] eqn:Hex.
  destruct (wp_sound rt _ _ _ _ env _ _ _ _ _ Hwp Hex) as (Hchain & _ & _).
  unfold trace_of. simpl. split.
  - intros j Hj. pose proof (chain_steps _ _ _ _ Hchain) as Hsteps.
    assert (HF : Forall (same_fixed (new_job jobId wordList o start))
                   (new_job jobId wordList o start :: map state_of tr)).
    { apply (steps_all _ (fun a b => b = a \/ same_fixed a b)).
      - intros a b [->|Hab] Ha; [exact Ha | eapply same_fixed_trans; eassumption].
      - exact Hsteps.
      - apply same_fixed_refl. }
    rewrite Forall_forall in HF. specialize (HF j Hj). unfold same_fixed in HF.
    simpl in HF. tauto.
  - intros j Hj. apply chain_suspended in Hchain. rewrite Forall_forall in Hchain.
    destruct (Hchain j Hj) as [[w Hw] Heq]. exists w. split; [exact Hw | congruence].
Qed.

(** X4. A job that [generateImagesAsync] has announced can be asked
    for at once: [checkStatus] with the returned identifier finds it,
    with the announced number of words; and although the answer of
    [generateImagesAsync] says "started", the status a query sees is
    never "started" (the runner has run to its first await by then). *)
Theorem announced_job_is_found
    (rt : Runtime) (w w' : World) (ce : CallEnv) (input : Input) (resp : AsyncResponse) :
  generateImagesAsync rt w ce input = (w', Returns resp) ->
  r_status resp = started
  /\ r_totalWords resp = length (parse_words (i_words input))
  /\ (0 < r_totalWords resp)%nat
  /\ exists v,
       checkStatus w' (r_jobId resp) = (w', Returns v)
       /\ v_jobId v = r_jobId resp
       /\ v_totalWords v = r_totalWords resp
       /\ v_startTime v = start_iso ce
       /\ v_status v <> started
       /\ (v_completedWords v <= v_totalWords v)%nat.
Proof.
  intros H. pose proof (generateImagesAsync_returns _ _ _ _ _ _ H) as Hret.
  cbn zeta in Hret.
  destruct Hret as (Hne & Hid & Hst & Htot & Hreg & _ & ws & j' & st & Hrun & Hheap & _).
  split; [exact Hst|]. split; [exact Htot|]. split.
  { rewrite Htot. destruct (parse_words (i_words input)); [contradiction | simpl; lia]. }
  pose proof (wp_runner rt _ (generateImagesSchema_parse input) (job_id_of ce)
                (start_iso ce) Hne) as Hwp.
  destruct (run_sync_steps _ _ _ _ _ _ _ _ _ _ Hwp Hrun) as [Hsteps Hlast].
  pose proof (steps_job_le _ _ _ Hsteps) as Hle. rewrite <- Hlast in Hle.
  assert (Hok : job_ok j').
  { pose proof (run_sync_wp _ _ _ _ _ _ _ _ _ _ Hwp Hrun) as Hstop.
    destruct st; [right; eexists; exact Hstop | contradiction | left; apply Hstop]. }
  assert (Hstart : startTime j' = start_iso ce).
  { destruct (run_sync_steps _ _ _ _ _ _ _ _ _ _
                (wp_runner_fixed rt _ (generateImagesSchema_parse input) (job_id_of ce)
                                 (start_iso ce) Hne) Hrun) as [Hfix Hl].
    apply steps_same_fixed in Hfix. rewrite Forall_forall in Hfix.
    assert (Hin : j' ∈ new_job (job_id_of ce) (parse_words (i_words input))
                          (generateImagesSchema_parse input) (start_iso ce) :: ws).
    { rewrite Hl. destruct ws as [|x l]; [left|]. right.
      rewrite last_cons_default. clear. revert x.
      induction l as [|y l IH]; intros x; [left|].
      rewrite last_cons_default. right. apply IH. }
    apply (Hfix j' Hin). }
  exists (report j'). unfold checkStatus. rewrite Hid, Hreg, lookup_insert_eq. simpl.
  rewrite Hheap, lookup_app_r by lia. rewrite Nat.sub_diag. simpl.
  destruct Hle as (Hid' & _ & _ & Htot' & _).
  split; [reflexivity|]. split; [exact Hid'|]. split; [rewrite Htot', Htot; reflexivity|].
  split; [exact Hstart|]. split; [apply job_ok_not_started, Hok|].
  apply job_ok_bounds, Hok.
Qed.

(** ** Jobs side by side *)

Lemma run_on_others w l clk p others l' :
  l' <> l -> heap (run_on w l clk p others) !! l' = heap w !! l'.
Proof.
  intros Hne. unfold run_on. destruct (heap w !! l) as [j|]; [|reflexivity].
  destruct (run_sync clk p j) as [[ws j'] st]. simpl.
  apply list_lookup_insert_ne. congruence.
Qed.

Lemma run_on_registry w l clk p others :
  activeJobs (run_on w l clk p others) = activeJobs w
  /\ length (heap (run_on w l clk p others)) = length (heap w).
Proof.
  unfold run_on. destruct (heap w !! l) as [j|]; [|split; reflexivity].
  destruct (run_sync clk p j) as [[ws j'] st]. simpl. split; [reflexivity|].
  apply length_insert.
Qed.

(** X5. Jobs do not disturb one another and are never evicted: whatever
    happens to the process, a job record changes only when its own
    runner is resumed, an identifier that is registered stays
    registered, it can only be given to another job by a later
    [generateImages] that draws the same identifier, and no job object
    disappears. *)
Theorem jobs_are_independent
    (rt : Runtime) (base64_decode : string -> string) (w : World) (a : Action) :
  let w' := act rt base64_decode w a in
  (forall l j, heap w !! l = Some j ->
     heap w' !! l = Some j
     \/ exists n answer clk t,
          a = Settle n answer clk /\ tasks w !! n = Some t /\ task_job t = l)
  /\ (forall jobId l, activeJobs w !! jobId = Some l ->
        activeJobs w' !! jobId = Some l
        \/ exists ce input, a = Generate ce input /\ jobId = job_id_of ce
                            /\ activeJobs w' !! jobId = Some (length (heap w)))
  /\ (length (heap w) <= length (heap w'))%nat.
Proof.
  cbn zeta. destruct a as [ce input|jobId0|n answer clk]; simpl.
  - unfold generateImages. destruct (o_async _); [|repeat split; auto].
    destruct (generateImagesAsync rt w ce input) as [w' [resp|e|]] eqn:Hgen; simpl.
    + pose proof (generateImagesAsync_returns _ _ _ _ _ _ Hgen) as Hret. cbn zeta in Hret.
      destruct Hret as (_ & _ & _ & _ & Hreg & _ & ws & j' & st & _ & Hheap & _).
      rewrite Hheap, Hreg, length_app. simpl. split; [|split; [|lia]].
      * intros l j Hl. left. rewrite lookup_app_l by (eapply lookup_lt_Some; eauto).
        exact Hl.
      * intros jobId l Hl. destruct (decide (job_id_of ce = jobId)) as [<-|Hne].
        -- right. exists ce, input. rewrite lookup_insert_eq. auto.
        -- left. rewrite lookup_insert_ne by exact Hne. exact Hl.
    + assert (w' = w) as ->; [|repeat split; auto].
      revert Hgen. unfold generateImagesAsync.
      destruct (length _ =? 0)%nat; [intros H; inversion H; reflexivity|].
      destruct (untimed (ensure_image_dir ce)) as [[[]|e1]|];
        [|intros H; inversion H; reflexivity..].
      destruct (untimed (ensure_jobs_dir ce)) as [[[]|e2]|];
        [|intros H; inversion H; reflexivity..].
      discriminate.
    + assert (w' = w) as ->; [|repeat split; auto].
      revert Hgen. unfold generateImagesAsync.
      destruct (length _ =? 0)%nat; [intros H; inversion H; reflexivity|].
      destruct (untimed (ensure_image_dir ce)) as [[[]|e1]|];
        [|intros H; inversion H; reflexivity..].
      destruct (untimed (ensure_jobs_dir ce)) as [[[]|e2]|];
        [|intros H; inversion H; reflexivity..].
      discriminate.
  - unfold checkStatus. destruct (_ ≫= _); simpl; repeat split; auto.
  - unfold resume. destruct (tasks w !! n) as [t|] eqn:Ht; [|repeat split; auto].
    destruct (deliver _ _ _) as [x|]; [|repeat split; auto].
    destruct (run_on_registry w (task_job t) clk (task_cont t x) (delete n (tasks w)))
      as [Hreg Hlen].
    rewrite Hreg, Hlen. split; [|split; [auto | lia]].
    intros l j Hl. destruct (decide (l = task_job t)) as [->|Hne].
    + right. exists n, answer, clk, t. auto.
    + left. rewrite run_on_others by exact Hne. exact Hl.
Qed.

(** ** Jobs that fail before their first request *)

Lemma attempt_early rt provider style background size quality timestamp i w e :
  early_error rt provider = Some e ->
  background_attempt rt provider style background size quality timestamp i w = Throw e.
Proof.
  unfold early_error, background_attempt, background_dalle, background_stability.
  destruct (_ || _)%bool.
  - destruct (Js.truthy_opt (dalle3_apiKey rt)); [discriminate|].
    intros H; inversion H; reflexivity.
  - destruct (String.eqb _ "stability").
    + destruct (Js.truthy_opt (stability_apiKey rt)); [discriminate|].
      intros H; inversion H; reflexivity.
    + intros H; inversion H; reflexivity.
Qed.

Lemma loop_fails_early rt provider style background size quality timestamp clk e ws :
  early_error rt provider = Some e ->
  forall i s, exists writes s',
    run_sync clk (background_loop rt provider style background size quality timestamp i ws) s
    = (writes, s', Returned)
    /\ results s' = (results s ++ map (fun w => failure_result w e) ws)%list
    /\ status s' = completed
    /\ completedWords s' = match ws with [] => completedWords s | _ => (i + length ws)%nat end
    /\ endTime s' = Some (clk BatchEnd) /\ currentWord s' = None.
Proof.
  intros He. induction ws as [|w rest IH]; intros i s.
  - simpl. eexists _, _. split; [reflexivity|]. simpl. rewrite app_nil_r. auto.
  - cbn [background_loop]. unfold background_item.
    rewrite (attempt_early _ _ _ _ _ _ _ i w e He). cbn [try_catch seq run_sync].
    destruct (IH (i + 1)%nat
                 (set_completedWords (i + 1)
                    (push_result (failure_result w e)
                       (set_currentWord (Some w) (set_status generating s)))))
      as (writes & s' & Hrun & Hres & Hst & Hc & Hend & Hcur).
    rewrite Hrun. eexists _, s'. split; [reflexivity|].
    split; [rewrite Hres; simpl; rewrite <- app_assoc; reflexivity|].
    split; [exact Hst|]. split; [|auto].
    rewrite Hc. destruct rest; simpl; lia.
Qed.

(** X6. With a provider name the runner does not know, or without the
    key of the chosen provider, the whole job is over before
    [generateImagesAsync] returns: no runner is left suspended, and the
    first status query finds the job completed, with one failure entry
    per word carrying the error, although the answer of
    [generateImagesAsync] says "started". *)
Theorem job_without_provider_completes_at_once
    (rt : Runtime) (w w' : World) (ce : CallEnv) (input : Input) (resp : AsyncResponse)
    (e : Js.Error) :
  early_error rt (o_provider (generateImagesSchema_parse input)) = Some e ->
  generateImagesAsync rt w ce input = (w', Returns resp) ->
  let wordList := parse_words (i_words input) in
  r_status resp = started
  /\ tasks w' = tasks w
  /\ exists v,
       checkStatus w' (r_jobId resp) = (w', Returns v)
       /\ v_status v = completed
       /\ v_completedWords v = length wordList
       /\ v_results v = Some (map (fun w => failure_result w e) wordList)
       /\ v_successCount v = Some 0%nat
       /\ v_failureCount v = Some (length wordList)
       /\ v_currentWord v = None.
Proof.
  intros He H. pose proof (generateImagesAsync_returns _ _ _ _ _ _ H) as Hret.
  cbn zeta in Hret.
  destruct Hret as (Hne & Hid & Hst & Htot & Hreg & _ & ws & j' & st & Hrun & Hheap & Htasks).
  unfold runner_of, background_body in Hrun. cbn [run_sync] in Hrun.
  destruct (loop_fails_early rt _ (o_style (generateImagesSchema_parse input))
              (o_background (generateImagesSchema_parse input))
              (o_size (generateImagesSchema_parse input))
              (o_quality (generateImagesSchema_parse input))
              (batch_timestamp (clock (call_env ce) BatchStart))
              (clock (call_env ce)) e (parse_words (i_words input)) He 0%nat
              (new_job (job_id_of ce) (parse_words (i_words input))
                       (generateImagesSchema_parse input) (start_iso ce)))
    as (writes & s' & Hrun' & Hres & Hstat & Hc & Hend & Hcur).
  rewrite Hrun' in Hrun. inversion Hrun; subst ws j' st. clear Hrun.
  cbn zeta. split; [exact Hst|]. split; [exact Htasks|].
  exists (report s'). unfold checkStatus. rewrite Hid, Hreg, lookup_insert_eq. simpl.
  rewrite Hheap, lookup_app_r by lia. rewrite Nat.sub_diag. simpl.
  split; [reflexivity|]. unfold report. rewrite Hstat, Hres, Hcur. simpl.
  split; [reflexivity|]. split.
  { rewrite Hc. destruct (parse_words (i_words input)); [contradiction | reflexivity]. }
  split; [reflexivity|].
  assert (Hcount : forall l : list string,
            List.filter (fun r => Js.truthy (url r)) (map (fun w => failure_result w e) l) = []
            /\ length (List.filter (fun r => negb (Js.truthy (url r)))
                         (map (fun w => failure_result w e) l)) = length l).
  { induction l as [|x l [IH1 IH2]]; simpl; [auto|]. rewrite IH1, IH2. auto. }
  destruct (Hcount (parse_words (i_words input))) as [-> ->]. repeat split.
Qed.

(** ** What a status query can find *)

(** X11. On every state the process can be in, the view a status query
    returns is consistent: the status is never "started"; a completed
    job has all its words done, its success and failure counts add up
    to the number of words, it carries its end time and no current
    word; a job that is not completed has fewer words done than it has
    words, and neither results nor counts nor end time. *)
Theorem status_views_are_consistent
    (rt : Runtime) (base64_decode : string -> string) (w : World) (jobId : string)
    (v : StatusView) :
  reachable rt base64_decode w ->
  (checkStatus w jobId).2 = Returns v ->
  v_status v <> started
  /\ (v_status v = completed ->
        v_completedWords v = v_totalWords v
        /\ (exists s f, v_successCount v = Some s /\ v_failureCount v = Some f
                        /\ (s + f)%nat = v_totalWords v)
        /\ (exists rs, v_results v = Some rs /\ length rs = v_totalWords v)
        /\ is_Some (v_endTime v)
        /\ v_currentWord v = None)
  /\ (v_status v = generating ->
        (v_completedWords v < v_totalWords v)%nat
        /\ v_results v = None /\ v_successCount v = None /\ v_failureCount v = None
        /\ v_endTime v = None).
Proof.
  intros Hreach. apply reachable_ok in Hreach. unfold checkStatus.
  destruct (activeJobs w !! jobId ≫= _) as [j|] eqn:Hj; simpl; [|discriminate].
  intros Hv. inversion Hv; subst v; clear Hv.
  destruct (activeJobs w !! jobId) as [l|]; [|discriminate]. simpl in Hj.
  destruct (heap_ok w Hreach l j Hj)
    as [(Hs & Hc & Hlt & He & Hw)|(wl & Hs & Hc & Hl & He & Hw & Hm)];
    unfold report; simpl; rewrite Hs; simpl.
  - split; [discriminate|]. split; [discriminate|]. intros _. repeat split. exact Hlt.
  - split; [discriminate|]. split; [|discriminate]. intros _. rewrite Hw. simpl.
    split; [exact Hc|]. split; [|split; [|split; auto]].
    + eexists _, _. split; [reflexivity|]. split; [reflexivity|].
      rewrite success_count_located.
      pose proof (failure_count_complement (results j)). lia.
    + exists (results j). split; [reflexivity | lia].
Qed.

(** ** The synchronous path *)

(** The synchronous Stability branch renders width and height before it
    makes its request: a size without a second token fails the word at
    once, whatever the provider would answer. *)
Lemma sync_stability_needs_height rt b64 provider style background size quality timestamp
    i w :
  Js.toLowerCase provider = "stability" ->
  Js.truthy_opt (stability_apiKey rt) = true ->
  (size_dims size).2 = Missing ->
  sync_attempt rt b64 provider style background size quality timestamp i w
  = Throw undefined_toString.
Proof.
  intros Hp Hk Hh. unfold sync_attempt, sync_stability. rewrite Hp, Hk, Hh. simpl.
  rewrite orb_true_r. reflexivity.
Qed.

Lemma wp_sync_attempt rt b64 provider style background size quality timestamp i w s :
  wp (fun a b => a = s /\ b = push (pushed_on_success rt style size timestamp w) s)
     (fun a => a = s)
     (fun a => a = push (pushed_on_success rt style size timestamp w) s)
     (fun _ a => a = s)
     (sync_attempt rt b64 provider style background size quality timestamp i w) s.
Proof.
  unfold sync_attempt, sync_dalle, sync_stability, on_abort, pushed_on_success.
  repeat (first
    [ progress simpl
    | rewrite wp_await
    | rewrite wp_try_catch
    | match goal with
      | |- _ /\ _ => split
      | |- forall _, _ => intro
      | |- _ = _ => reflexivity
      | |- context [match ?x with _ => _ end] => destruct x
      end ]).
Qed.

Lemma sync_attempt_result rt env b64 provider style background size quality timestamp
    i w s :
  result_of (exec rt env
               (sync_attempt rt b64 provider style background size quality timestamp i w) s)
  = match fate rt env
            (sync_attempt rt b64 provider style background size quality timestamp i w) with
    | Completed => (push (pushed_on_success rt style size timestamp w) s, Completed)
    | o => (s, o)
    end.
Proof.
  pose proof (exec_fate rt env
                (sync_attempt rt b64 provider style background size quality timestamp i w) s)
    as Hf.
  pose proof (wp_sync_attempt rt b64 provider style background size quality timestamp i w s)
    as Hwp.
  destruct (exec rt env _ s) as [[tr s'] out] eqn:Hex.
  destruct (wp_sound rt _ _ _ _ env _ _ _ _ _ Hwp Hex) as (_ & _ & He).
  simpl in Hf. rewrite <- Hf. unfold result_of, final_of, outcome_of. simpl.
  destruct out; simpl in He; subst; reflexivity.
Qed.

Lemma sync_loop_results rt env b64 provider style background size quality timestamp ws :
  forall i s,
    let attempt := sync_attempt rt b64 provider style background size quality timestamp in
    let r := exec rt env
               (sync_loop rt b64 provider style background size quality timestamp i ws) s in
    (forall e, outcome_of r <> Rejected e)
    /\ (outcome_of r = Completed ->
        final_of r
        = (s ++ imap (fun k w =>
                        match fate rt env (attempt (i + k)%nat w) with
                        | Rejected e => failure_result w e
                        | _ => pushed_on_success rt style size timestamp w
                        end) ws)%list
        /\ forall k w, ws !! k = Some w -> fate rt env (attempt (i + k)%nat w) <> Blocked)
    /\ ((forall k w, ws !! k = Some w -> fate rt env (attempt (i + k)%nat w) <> Blocked) ->
        outcome_of r = Completed).
Proof.
  induction ws as [|w rest IH]; intros i s; cbn zeta.
  - simpl. unfold final_of, outcome_of. simpl. split; [discriminate|]. split.
    + intros _. rewrite app_nil_r. split; [reflexivity|]. intros k w Hk.
      rewrite lookup_nil in Hk. discriminate.
    + reflexivity.
  - cbn [sync_loop]. rewrite exec_seq, exec_try_catch.
    pose proof (sync_attempt_result rt env b64 provider style background size quality
                  timestamp i w s) as Ha.
    destruct (exec rt env (sync_attempt _ _ _ _ _ _ _ _ i w) s) as [[tr1 s1] o1].
    unfold result_of, final_of, outcome_of in Ha. simpl in Ha.
    assert (Hshift : forall (f : nat -> string -> ItemResult) x,
              (s ++ x :: imap (fun k => f (i + 1 + k)%nat) rest
               = s ++ imap (fun k => f (i + k)%nat) (w :: rest))%list
              <-> x = f (i + 0)%nat w).
    { intros f x. simpl. split.
      - intros H. apply app_inv_head in H. inversion H. reflexivity.
      - intros ->. do 2 f_equal. apply imap_ext. intros k y _. simpl.
        f_equal. lia. }
    destruct (fate rt env (sync_attempt _ _ _ _ _ _ _ _ i w)) as [|e|] eqn:Hfate;
      inversion Ha; subst; cbn [exec].
    + destruct (IH (i + 1)%nat (push (pushed_on_success rt style size timestamp w) s))
        as (Hno & Hdone & Hall). cbn zeta in *.
      destruct (exec rt env (sync_loop _ _ _ _ _ _ _ _ (i + 1) rest) _) as [[tr2 s2] o2].
      unfold final_of, outcome_of in *. simpl in *.
      split; [exact Hno|]. split.
      * intros Ho. destruct (Hdone Ho) as [-> Hcome]. split.
        -- unfold push. rewrite <- app_assoc. simpl.
           apply (Hshift (fun k w => match fate rt env (sync_attempt rt b64 provider style
                                        background size quality timestamp k w) with
                                     | Rejected e => failure_result w e
                                     | _ => pushed_on_success rt style size timestamp w
                                     end)).
           rewrite Nat.add_0_r, Hfate. reflexivity.
        -- intros [|k] w' Hk.
           ++ simpl in Hk. inversion Hk; subst. rewrite Nat.add_0_r, Hfate. discriminate.
           ++ simpl in Hk. replace (i + S k)%nat with (i + 1 + k)%nat by lia. eauto.
      * intros Hcome. apply Hall. intros k w' Hk.
        replace (i + 1 + k)%nat with (i + S k)%nat by lia. apply (Hcome (S k)). exact Hk.
    + destruct (IH (i + 1)%nat (push (failure_result w e) s)) as (Hno & Hdone & Hall).
      cbn zeta in *.
      destruct (exec rt env (sync_loop _ _ _ _ _ _ _ _ (i + 1) rest) _) as [[tr2 s2] o2].
      unfold final_of, outcome_of in *. simpl in *.
      split; [exact Hno|]. split.
      * intros Ho. destruct (Hdone Ho) as [-> Hcome]. split.
        -- unfold push. rewrite <- app_assoc. simpl.
           apply (Hshift (fun k w => match fate rt env (sync_attempt rt b64 provider style
                                        background size quality timestamp k w) with
                                     | Rejected e => failure_result w e
                                     | _ => pushed_on_success rt style size timestamp w
                                     end)).
           rewrite Nat.add_0_r, Hfate. reflexivity.
        -- intros [|k] w' Hk.
           ++ simpl in Hk. inversion Hk; subst. rewrite Nat.add_0_r, Hfate. discriminate.
           ++ simpl in Hk. replace (i + S k)%nat with (i + 1 + k)%nat by lia. eauto.
      * intros Hcome. apply Hall. intros k w' Hk.
        replace (i + 1 + k)%nat with (i + S k)%nat by lia. apply (Hcome (S k)). exact Hk.
    + unfold final_of, outcome_of. simpl. split; [discriminate|]. split; [discriminate|].
      intros Hcome. exfalso. apply (Hcome 0%nat w); [reflexivity|].
      rewrite Nat.add_0_r. exact Hfate.
Qed.

Lemma generateImagesSync_returns rt b64 ce input rs :
  generateImagesSync rt b64 ce input = Returns rs ->
  parse_words (i_words input) <> []
  /\ untimed (ensure_image_dir ce) = Some (inl tt)
  /\ result_of (exec rt (call_env ce)
                  (sync_loop rt b64 (o_provider (generateImagesSchema_parse input))
                     (o_style (generateImagesSchema_parse input))
                     (o_background (generateImagesSchema_parse input))
                     (o_size (generateImagesSchema_parse input))
                     (o_quality (generateImagesSchema_parse input))
                     (batch_timestamp (clock (call_env ce) BatchStart)) 0
                     (parse_words (i_words input))) [])
     = (rs, Completed).
Proof.
  unfold generateImagesSync.
  change (o_words (generateImagesSchema_parse input)) with (i_words input).
  destruct (parse_words (i_words input)) as [|x l] eqn:Hw; [discriminate|].
  rewrite <- Hw. replace (length (parse_words (i_words input)) =? 0)%nat with false
    by (rewrite Hw; reflexivity).
  destruct (untimed (ensure_image_dir ce)) as [[[]|e]|]; try discriminate.
  destruct (exec rt (call_env ce) _ []) as [[tr rs'] out].
  destruct out; try discriminate. intros H. inversion H; subst.
  split; [rewrite Hw; discriminate|]. split; reflexivity.
Qed.

(** X1. When [generateImagesSync] returns, it returns one entry per
    word, in the order of the words: for each word the failure entry
    carrying the error of its own provider call when that call failed,
    and the success entry otherwise; no call was left unanswered. *)
Theorem sync_returns_one_entry_per_word
    (rt : Runtime) (base64_decode : string -> string) (ce : CallEnv) (input : Input)
    (rs : list ItemResult) :
  generateImagesSync rt base64_decode ce input = Returns rs ->
  let wordList := parse_words (i_words input) in
  let call k w := fate rt (call_env ce) (sync_attempt_of rt base64_decode ce input k w) in
  rs = imap (fun k w => sync_entry rt ce input w (call k w)) wordList
  /\ map word rs = wordList
  /\ length rs = length wordList
  /\ (forall k w, wordList !! k = Some w -> call k w <> Blocked).
Proof.
  intros H. apply generateImagesSync_returns in H as (Hne & _ & Hres). cbn zeta.
  destruct (sync_loop_results rt (call_env ce) base64_decode
              (o_provider (generateImagesSchema_parse input))
              (o_style (generateImagesSchema_parse input))
              (o_background (generateImagesSchema_parse input))
              (o_size (generateImagesSchema_parse input))
              (o_quality (generateImagesSchema_parse input))
              (batch_timestamp (clock (call_env ce) BatchStart))
              (parse_words (i_words input)) 0%nat []) as (_ & Hdone & _).
  cbn zeta in Hdone. unfold result_of in Hres.
  apply pair_equal_spec in Hres as [Hfin Hout].
  rewrite Hfin in Hdone. destruct (Hdone Hout) as [Hrs Hcome]. simpl in Hrs.
  assert (Heq : rs = imap (fun k w =>
                  sync_entry rt ce input w
                    (fate rt (call_env ce) (sync_attempt_of rt base64_decode ce input k w)))
                  (parse_words (i_words input))).
  { rewrite Hrs. apply imap_ext. intros k w _. unfold sync_entry, sync_attempt_of.
    simpl. destruct (fate rt (call_env ce) _); reflexivity. }
  split; [exact Heq|]. split; [|split].
  - rewrite Heq. clear.
    assert (Hgen : forall (l : list string) (f : nat -> string -> Outcome),
              map word (imap (fun k w => sync_entry rt ce input w (f k w)) l) = l).
    { induction l as [|x l IH]; intros f; simpl; [reflexivity|].
      f_equal; [|apply (IH (fun k => f (S k)))].
      unfold sync_entry. destruct (f 0%nat x); reflexivity. }
    apply (Hgen _ (fun k w => fate rt (call_env ce)
                               (sync_attempt_of rt base64_decode ce input k w))).
  - rewrite Heq, length_imap. reflexivity.
  - intros k w Hk. apply (Hcome k w Hk).
Qed.

Local Ltac late_reply H :=
  match goal with
  | |- context [net ?env ?i ?r] =>
      let ms := fresh "ms" in
      let Hr := fresh "Hr" in
      pose proof (H r) as Hr; destruct (net env i r) as [ms ?|];
      [ replace (ms <? 60000) with false by (symmetry; apply Z.ltb_ge; lia);
        replace (ms <? 90000) with false by (symmetry; apply Z.ltb_ge; lia) |];
      simpl; match goal with |- context [if ?c then _ else _] => destruct c end;
      simpl; eauto
  end.

Lemma sync_attempt_times_out rt env b64 provider style background size quality timestamp
    i w :
  unanswered env i ->
  exists e, fate rt env
              (sync_attempt rt b64 provider style background size quality timestamp i w)
            = Rejected e.
Proof.
  intros Hslow. unfold sync_attempt, sync_dalle, sync_stability, on_abort.
  destruct (String.eqb (Js.toLowerCase provider) "dalle3"
            || String.eqb (Js.toLowerCase provider) "dall-e-3")%bool.
  - destruct (Js.truthy_opt (dalle3_apiKey rt)); simpl; [|eauto]. late_reply Hslow.
  - destruct (String.eqb _ "stability"); simpl; [|eauto].
    destruct (Js.truthy_opt (stability_apiKey rt)); simpl; [|eauto].
    destruct (is_undefined (size_dims size).1 || is_undefined (size_dims size).2)%bool;
      simpl; [eauto|].
    late_reply Hslow.
Qed.

Lemma imap_failures (f : nat -> string -> ItemResult) (l : list string) :
  (forall k w, exists e, f k w = failure_result w e) ->
  map word (imap f l) = l /\ Forall (fun r => url r = "" /\ filename r = "") (imap f l).
Proof.
  revert f. induction l as [|x l IH]; intros f Hf; simpl.
  - split; [reflexivity|constructor].
  - destruct (IH (fun k => f (S k)) (fun k w => Hf (S k) w)) as [IH1 IH2].
    destruct (Hf 0%nat x) as [e He]. rewrite He. split.
    + simpl. f_equal. exact IH1.
    + constructor; [split; reflexivity | exact IH2].
Qed.

(** X2. The synchronous path does not wait for a provider that does
    not answer: when no request is answered within 90 s (or ever), for
    whatever provider name and keys, [generateImagesSync] returns, with
    one failure entry per word. *)
Theorem sync_path_times_out
    (rt : Runtime) (base64_decode : string -> string) (ce : CallEnv) (input : Input) :
  parse_words (i_words input) <> [] ->
  untimed (ensure_image_dir ce) = Some (inl tt) ->
  (forall i, unanswered (call_env ce) i) ->
  exists rs,
    generateImagesSync rt base64_decode ce input = Returns rs
    /\ map word rs = parse_words (i_words input)
    /\ Forall (fun r => url r = "" /\ filename r = "") rs.
Proof.
  intros Hne Hens Hslow.
  destruct (sync_loop_results rt (call_env ce) base64_decode
              (o_provider (generateImagesSchema_parse input))
              (o_style (generateImagesSchema_parse input))
              (o_background (generateImagesSchema_parse input))
              (o_size (generateImagesSchema_parse input))
              (o_quality (generateImagesSchema_parse input))
              (batch_timestamp (clock (call_env ce) BatchStart))
              (parse_words (i_words input)) 0%nat []) as (_ & Hdone & Hall).
  cbn zeta in Hdone, Hall.
  assert (Hout : outcome_of (exec rt (call_env ce)
                   (sync_loop rt base64_decode
                      (o_provider (generateImagesSchema_parse input))
                      (o_style (generateImagesSchema_parse input))
                      (o_background (generateImagesSchema_parse input))
                      (o_size (generateImagesSchema_parse input))
                      (o_quality (generateImagesSchema_parse input))
                      (batch_timestamp (clock (call_env ce) BatchStart)) 0
                      (parse_words (i_words input))) []) = Completed).
  { apply Hall. intros k w _.
    destruct (sync_attempt_times_out rt (call_env ce) base64_decode
                (o_provider (generateImagesSchema_parse input))
                (o_style (generateImagesSchema_parse input))
                (o_background (generateImagesSchema_parse input))
                (o_size (generateImagesSchema_parse input))
                (o_quality (generateImagesSchema_parse input))
                (batch_timestamp (clock (call_env ce) BatchStart))
                (0 + k)%nat w (Hslow _)) as [e ->]. discriminate. }
  destruct (Hdone Hout) as [Hfin _]. simpl in Hfin.
  unfold generateImagesSync.
  change (o_words (generateImagesSchema_parse input)) with (i_words input).
  destruct (parse_words (i_words input)) as [|x l] eqn:Hw; [contradiction|].
  rewrite <- Hw in *. replace (length (parse_words (i_words input)) =? 0)%nat with false
    by (rewrite Hw; reflexivity).
  rewrite Hens.
  destruct (exec rt (call_env ce) _ []) as [[tr rs] out] eqn:Hex.
  unfold outcome_of, final_of in Hout, Hfin. simpl in Hout, Hfin. subst out.
  exists rs. split; [reflexivity|]. rewrite Hfin. clear Hfin Hex Hdone Hall Hw.
  apply imap_failures. intros k w.
  destruct (sync_attempt_times_out rt (call_env ce) base64_decode
              (o_provider (generateImagesSchema_parse input))
              (o_style (generateImagesSchema_parse input))
              (o_background (generateImagesSchema_parse input))
              (o_size (generateImagesSchema_parse input))
              (o_quality (generateImagesSchema_parse input))
              (batch_timestamp (clock (call_env ce) BatchStart))
              k w (Hslow _)) as [e He].
  exists e. simpl in He. rewrite He. reflexivity.
Qed.

(** ** The tool handler *)

Lemma generateImages_only_validates rt b64 w ce input :
  parse_words (i_words input) = [] ->
  generateImages rt b64 w ce input = (w, Throws no_valid_words).
Proof.
  intros Hw. unfold generateImages, generateImagesAsync, generateImagesSync.
  change (o_words (generateImagesSchema_parse input)) with (i_words input).
  rewrite Hw. simpl. destruct (default true (i_async input)); reflexivity.
Qed.

(** X16. The handler answers every request it is given with a response
    object and never rejects: an error a tool throws, an error of the
    argument validation and an unknown tool name all become a response
    with [isError] set and the text "Error: " followed by the message;
    a response without [isError] carries the rendered value the tool
    returned. Only [generateImages] can change the registry. *)
Theorem handler_never_throws
    (rt : Runtime) (base64_decode : string -> string) (stringify : ToolValue -> string)
    (w : World) (ce : CallEnv) (fe : FsEnv) (name : string) (args : ToolArgs) :
  let tool := call_tool rt base64_decode w ce fe name args in
  let answer := handle_call rt base64_decode stringify w ce fe name args in
  answer.1 = tool.1
  /\ (forall e, answer.2 <> Throws e)
  /\ (forall e, tool.2 = Throws e ->
        answer.2 = Returns {| content_text := "Error: " ++ Js.message e; isError := true |})
  /\ (forall v, tool.2 = Returns v ->
        answer.2 = Returns {| content_text := stringify v; isError := false |})
  /\ (forall resp, answer.2 = Returns resp ->
        if isError resp
        then exists e, tool.2 = Throws e /\ content_text resp = "Error: " ++ Js.message e
        else exists v, tool.2 = Returns v /\ content_text resp = stringify v)
  /\ (name <> "generateImages" -> answer.1 = w).
Proof.
  cbn zeta. unfold handle_call.
  destruct (call_tool rt base64_decode w ce fe name args) as [w' r] eqn:Hcall. simpl.
  split; [reflexivity|]. split; [destruct r; discriminate|].
  split; [intros e ->; reflexivity|]. split; [intros v ->; reflexivity|]. split.
  - intros resp Hr. destruct r as [v|e|]; inversion Hr; subst; simpl; eauto.
  - intros Hname. unfold call_tool in Hcall.
    destruct (String.eqb name "generateImages") eqn:Hg.
    { apply String.eqb_eq in Hg. contradiction. }
    destruct (String.eqb name "checkStatus").
    { destruct (as_checkStatus args) as [e|jobId]; [congruence|].
      unfold checkStatus in Hcall. destruct (_ ≫= _); congruence. }
    destruct (String.eqb name "listImages").
    { destruct (as_listImages args); congruence. }
    destruct (String.eqb name "deleteImage").
    { destruct (as_deleteImage args); congruence. }
    congruence.
Qed.

(** X17. What the caller reads when a request cannot be served: a
    word string without a usable word gives "Error: No valid words
    provided." and leaves the registry as it was, in either mode; an
    unknown job identifier gives "Error: Job not found: " and the
    identifier; deleting a file that does not exist gives "Error: Image
    not found: " and the file name, and any other failure of the
    deletion "Error: Delete failed: " and its message; any other tool
    name gives "Error: Unknown tool: " and the name. *)
Theorem handler_reports_failures
    (rt : Runtime) (base64_decode : string -> string) (stringify : ToolValue -> string)
    (w : World) (ce : CallEnv) (fe : FsEnv) (args : ToolArgs) :
  let failed text := (w, Returns {| content_text := "Error: " ++ text; isError := true |}) in
  (forall input,
     as_generateImages args = inr input -> parse_words (i_words input) = [] ->
     handle_call rt base64_decode stringify w ce fe "generateImages" args
     = failed "No valid words provided.")
  /\ (forall jobId,
        as_checkStatus args = inr jobId -> activeJobs w !! jobId = None ->
        handle_call rt base64_decode stringify w ce fe "checkStatus" args
        = failed ("Job not found: " ++ jobId))
  /\ (forall filename error,
        as_deleteImage args = inr filename ->
        fs_access fe (path_join rt (imageDir rt) filename) = FsFailed "ENOENT" error ->
        handle_call rt base64_decode stringify w ce fe "deleteImage" args
        = failed ("Image not found: " ++ filename))
  /\ (forall filename code error,
        as_deleteImage args = inr filename ->
        fs_access fe (path_join rt (imageDir rt) filename) = FsDone ->
        fs_unlink fe (path_join rt (imageDir rt) filename) = FsFailed code error ->
        code <> "ENOENT" ->
        handle_call rt base64_decode stringify w ce fe "deleteImage" args
        = failed ("Delete failed: " ++ Js.message error))
  /\ (forall name,
        name <> "generateImages" -> name <> "checkStatus" ->
        name <> "listImages" -> name <> "deleteImage" ->
        handle_call rt base64_decode stringify w ce fe name args
        = failed ("Unknown tool: " ++ name)).
Proof.
  cbn zeta. split; [|split; [|split; [|split]]].
  - intros input Hin Hw. unfold handle_call, call_tool. simpl. rewrite Hin.
    rewrite (generateImages_only_validates rt base64_decode w ce input Hw). reflexivity.
  - intros jobId Hin Hno. unfold handle_call, call_tool. simpl. rewrite Hin.
    unfold checkStatus. rewrite Hno. reflexivity.
  - intros filename error Hin Hacc. unfold handle_call, call_tool. simpl. rewrite Hin.
    unfold deleteImage. rewrite Hacc. reflexivity.
  - intros filename code error Hin Hacc Hunl Hcode. unfold handle_call, call_tool. simpl.
    rewrite Hin. unfold deleteImage. rewrite Hacc, Hunl. unfold delete_error.
    destruct (String.eqb code "ENOENT") eqn:Hc.
    { apply String.eqb_eq in Hc. contradiction. }
    reflexivity.
  - intros name H1 H2 H3 H4. unfold handle_call, call_tool.
    apply String.eqb_neq in H1, H2, H3, H4. rewrite H1, H2, H3, H4. reflexivity.
Qed.

(** ** The Stability branch of the batch runner *)

Local Ltac caught :=
  repeat match goal with
         | |- context [if String.eqb ?a ?b then _ else _] => destruct (String.eqb a b)
         end;
  simpl; discriminate.

Lemma stability_attempt rt env o i w :
  Js.toLowerCase (o_provider o) = "stability" ->
  attempt_of rt env o i w
  = background_stability rt (o_style o) (o_size o) i w
      (buildPrompt (object_proto rt) w (o_style o) (o_background o))
      (item_filename w (batch_timestamp (clock env BatchStart)))
      (path_join rt (imageDir rt)
         (item_filename w (batch_timestamp (clock env BatchStart)))).
Proof.
  intros Hp. unfold attempt_of, background_attempt. rewrite Hp. reflexivity.
Qed.

(** X12. A word of a Stability job is recorded as a success exactly
    when the key is configured, the form post is answered with status
    200 in less than 90 s, and the file with the bytes of that answer
    is written. *)
Theorem stability_call_succeeds_iff
    (rt : Runtime) (env : Env) (o : Options) (i : nat) (w : string) :
  Js.toLowerCase (o_provider o) = "stability" ->
  let post := PostForm stability_ultra
                (buildPrompt (object_proto rt) w (o_style o) (o_background o))
                (size_dims (o_size o)).1 (size_dims (o_size o)).2 in
  let filepath := path_join rt (imageDir rt)
                    (item_filename w (batch_timestamp (clock env BatchStart))) in
  call_fate rt env o i w = Completed
  <-> Js.truthy_opt (stability_apiKey rt) = true
      /\ exists ms body ms',
           net env i post = Settles ms (inl (200, body))
           /\ ms < 90000
           /\ net env i (WriteFile filepath body) = Settles ms' (inl tt).
Proof.
  intros Hp. cbn zeta. unfold call_fate. rewrite (stability_attempt rt env o i w Hp).
  unfold background_stability, on_abort.
  destruct (Js.truthy_opt (stability_apiKey rt)); simpl.
  2: { split; [discriminate | intros [H _]; discriminate]. }
  destruct (net env i (PostForm _ _ _ _)) as [ms [[st body]|e]|] eqn:Hpost; simpl.
  - destruct (ms <? 90000) eqn:Hms; simpl.
    + destruct (st =? 200) eqn:Hst; simpl.
      * apply Z.eqb_eq in Hst. subst st. apply Z.ltb_lt in Hms.
        destruct (net env i (WriteFile _ body)) as [ms' [[]|e]|] eqn:Hwrite; simpl.
        -- split; [intros _|reflexivity]. split; [reflexivity|].
           exists ms, body, ms'. auto.
        -- split.
           ++ caught.
           ++ intros (_ & ms1 & body1 & ms2 & H1 & _ & H2).
              inversion H1; subst. rewrite Hwrite in H2. discriminate.
        -- split; [discriminate|].
           intros (_ & ms1 & body1 & ms2 & H1 & _ & H2).
           inversion H1; subst. rewrite Hwrite in H2. discriminate.
      * split.
        -- caught.
        -- intros (_ & ms1 & body1 & ms2 & H1 & _). inversion H1; subst.
           rewrite Z.eqb_refl in Hst. discriminate.
    + split.
      * caught.
      * intros (_ & ms1 & body1 & ms2 & H1 & Hlt & _). inversion H1; subst.
        apply Z.ltb_ge in Hms. lia.
  - split.
    + destruct (ms <? 90000); simpl; caught.
    + intros (_ & ms1 & body1 & ms2 & H1 & _). discriminate.
  - split.
    + caught.
    + intros (_ & ms1 & body1 & ms2 & H1 & _). discriminate.
Qed.

Lemma stability_call_comes_back rt env o i w :
  Js.toLowerCase (o_provider o) = "stability" ->
  (forall filepath data, net env i (WriteFile filepath data) <> Never) ->
  call_fate rt env o i w <> Blocked.
Proof.
  intros Hp Hwrite. unfold call_fate. rewrite (stability_attempt rt env o i w Hp).
  unfold background_stability, on_abort.
  destruct (Js.truthy_opt (stability_apiKey rt)); simpl; [|discriminate].
  destruct (net env i (PostForm _ _ _ _)) as [ms [[st body]|e]|]; simpl.
  - destruct (ms <? 90000); simpl.
    + destruct (st =? 200); simpl.
      * pose proof (Hwrite (path_join rt (imageDir rt)
                              (item_filename w (batch_timestamp (clock env BatchStart))))
                           body) as Hw.
        destruct (net env i (WriteFile _ body)) as [ms' [[]|e]|]; simpl;
          [discriminate | caught | contradiction].
      * caught.
    + caught.
  - destruct (ms <? 90000); simpl; caught.
  - caught.
Qed.

(** X18. A Stability job cannot be held up by the provider: whatever
    the provider does, answer late or never, the runner completes with
    one entry per word as long as the writes to the image directory
    settle. *)
Theorem stability_job_always_completes
    (rt : Runtime) (env : Env) (wordList : list string) (o : Options)
    (jobId start : string) :
  Js.toLowerCase (o_provider o) = "stability" ->
  (forall i filepath data, net env i (WriteFile filepath data) <> Never) ->
  let r := run_job rt env wordList o jobId start in
  outcome_of r = Completed
  /\ length (results (final_of r)) = length wordList
  /\ forall k w, wordList !! k = Some w ->
       results (final_of r) !! k
       = Some (match call_fate rt env o k w with
               | Rejected e => failure_result w e
               | _ => success_entry rt env o w
               end).
Proof.
  intros Hp Hwrite. cbn zeta.
  destruct (run_job_results rt env wordList o jobId start) as [Hat Hall].
  assert (Hback : forall m w', call_fate rt env o m w' <> Blocked).
  { intros m w'. apply stability_call_comes_back; auto. }
  destruct Hall as [Hout Hlen]; [intros; apply Hback|].
  split; [exact Hout|]. split; [exact Hlen|].
  intros k w Hk. apply Hat; [exact Hk|]. intros; apply Hback.
Qed.

(** ** The prompt *)

(** X19. For a style of the table the prompt is the background, the
    descriptor of that style and the word, in this order, whatever
    [Object.prototype] holds. *)
Theorem buildPrompt_of_table_style
    (proto : string -> option string) (word style background descr : string) :
  own_property styles style = Some descr ->
  buildPrompt proto word style background
  = background ++ " background, " ++ descr ++ ", " ++ word.
Proof.
  intros Hown. unfold buildPrompt, stylePrompt, get_property. rewrite Hown.
  assert (Ht : Js.truthy descr = true).
  { unfold own_property in Hown.
    destruct (List.find _ styles) as [[k v]|] eqn:Hfind; inversion Hown; subst.
    apply List.find_some in Hfind as [Hin _].
    destruct Hin as [H|[H|[H|[H|[]]]]]; inversion H; reflexivity. }
  simpl. rewrite Ht. reflexivity.
Qed.

(** ** The further properties at concrete inputs *)

(** "cat, dog, owl" in one synchronous call, the provider answering 503
    to the request for "dog" *)
Lemma sync_returns_one_entry_per_word_witness :
  let input := mkInput "cat, dog, owl" (Some "stability") None None None None (Some false) in
  exists rs,
    generateImagesSync demo_rt (fun s => s) (demo_call env_sync_second_fails) input
    = Returns rs
    /\ map word rs = parse_words "cat, dog, owl"
    /\ length rs = 3%nat
    /\ rs !! 1%nat
       = Some (failure_result "dog" (Js.new_Error "Stability API error 503: overloaded"))
    /\ map url rs
       = ["file:///srv/generated-images/cat_2024-05-01T10-20-30-456Z.png"; "";
          "file:///srv/generated-images/owl_2024-05-01T10-20-30-456Z.png"].
Proof.
  cbn zeta.
  destruct (generateImagesSync demo_rt (fun s => s) (demo_call env_sync_second_fails)
              (mkInput "cat, dog, owl" (Some "stability") None None None None (Some false)))
    as [rs|e|] eqn:Hrs; [|vm_compute in Hrs; discriminate..].
  exists rs. split; [reflexivity|].
  destruct (sync_returns_one_entry_per_word demo_rt (fun s => s)
              (demo_call env_sync_second_fails) _ rs Hrs) as (Heq & Hwords & Hlen & _).
  split; [exact Hwords|]. split; [exact Hlen|].
  rewrite Heq. split; vm_compute; reflexivity.
Defined.

(** a provider that never answers, asked synchronously *)
Lemma sync_path_times_out_witness :
  let input := mkInput "cat, dog" (Some "dalle3") None None None None (Some false) in
  parse_words (i_words input) <> []
  /\ (forall i, unanswered (call_env (demo_call env_silent)) i)
  /\ exists rs,
       generateImagesSync demo_rt (fun s => s) (demo_call env_silent) input = Returns rs
       /\ map word rs = ["cat"; "dog"].
Proof.
  cbn zeta.
  assert (H1 : parse_words (i_words (mkInput "cat, dog" (Some "dalle3") None None None None
                                             (Some false))) <> [])
    by (vm_compute; discriminate).
  assert (H2 : untimed (ensure_image_dir (demo_call env_silent)) = Some (inl tt))
    by reflexivity.
  assert (H3 : forall i, unanswered (call_env (demo_call env_silent)) i)
    by (intros i r; exact I).
  split; [exact H1|]. split; [exact H3|].
  destruct (sync_path_times_out demo_rt (fun s => s) (demo_call env_silent) _ H1 H2 H3)
    as (rs & Hrs & Hwords & _).
  exists rs. split; [exact Hrs | exact Hwords].
Defined.

Lemma runner_keeps_fixed_fields_witness :
  let wordList := parse_words "cat, dog" in
  let o := options_for "cat, dog" "dalle3" in
  wordList <> []
  /\ forall j,
       j ∈ history demo_rt env_ok wordList o
             "job_1714558830456_k3x9q0" "2024-05-01T10:20:30.456Z" ->
       id j = "job_1714558830456_k3x9q0" /\ totalWords j = 2%nat.
Proof.
  cbn zeta.
  assert (H1 : parse_words "cat, dog" <> []) by (vm_compute; discriminate).
  split; [exact H1|]. intros j Hj.
  destruct (runner_keeps_fixed_fields demo_rt env_ok _ (options_for "cat, dog" "dalle3")
              "job_1714558830456_k3x9q0" "2024-05-01T10:20:30.456Z" H1) as [Hfixed _].
  destruct (Hfixed j Hj) as (Hid & Htotal & _). split; [exact Hid | exact Htotal].
Defined.

Lemma announced_job_is_found_witness :
  let input := mkInput "cat, dog" None None None None None None in
  let call := generateImagesAsync demo_rt empty_world (demo_call env_ok) input in
  exists resp,
    call = (call.1, Returns resp)
    /\ exists v, checkStatus call.1 (r_jobId resp) = (call.1, Returns v)
                 /\ v_status v <> started.
Proof.
  cbn zeta.
  destruct (generateImagesAsync demo_rt empty_world (demo_call env_ok)
              (mkInput "cat, dog" None None None None None None))
    as [w' [resp|e|]] eqn:Hcall; [|vm_compute in Hcall; discriminate..].
  exists resp. split; [reflexivity|].
  destruct (announced_job_is_found demo_rt empty_world w' (demo_call env_ok) _ resp Hcall)
    as (_ & _ & _ & v & Hv & _ & _ & _ & Hst & _).
  exists v. split; [exact Hv | exact Hst].
Defined.

(** a provider name the runner does not know *)
Lemma job_without_provider_completes_at_once_witness :
  let input := mkInput "cat, dog" (Some "midjourney") None None None None None in
  let call := generateImagesAsync demo_rt empty_world (demo_call env_ok) input in
  early_error demo_rt "midjourney" = Some (Js.new_Error "Unsupported provider: midjourney")
  /\ exists resp,
       call = (call.1, Returns resp)
       /\ exists v, checkStatus call.1 (r_jobId resp) = (call.1, Returns v)
                    /\ v_status v = completed
                    /\ v_failureCount v = Some 2%nat.
Proof.
  cbn zeta.
  assert (H1 : early_error demo_rt
                 (o_provider (generateImagesSchema_parse
                                (mkInput "cat, dog" (Some "midjourney") None None None None
                                         None)))
               = Some (Js.new_Error "Unsupported provider: midjourney")) by reflexivity.
  split; [exact H1|].
  destruct (generateImagesAsync demo_rt empty_world (demo_call env_ok)
              (mkInput "cat, dog" (Some "midjourney") None None None None None))
    as [w' [resp|e|]] eqn:Hcall; [|vm_compute in Hcall; discriminate..].
  exists resp. split; [reflexivity|].
  destruct (job_without_provider_completes_at_once demo_rt empty_world w'
              (demo_call env_ok) _ resp _ H1 Hcall)
    as (_ & _ & v & Hv & Hst & _ & _ & _ & Hfail & _).
  exists v. split; [exact Hv|]. split; [exact Hst | exact Hfail].
Defined.

(** a status query and the answer of the provider, after one call of
    [generateImages] *)
Lemma snapshots_only_advance_witness :
  let actions := [CheckStatus "job_1714558830456_k3x9q0"; Settle 0 answer_ok demo_clock] in
  let w' := fold_left (act demo_rt (fun s => s)) actions world_after_generate in
  reachable demo_rt (fun s => s) world_after_generate
  /\ unhandled w' = []
  /\ forall l j, heap world_after_generate !! l = Some j ->
       exists j', heap w' !! l = Some j' /\ job_le j j'.
Proof.
  cbn zeta.
  assert (H : reachable demo_rt (fun s => s) world_after_generate).
  { exists [Generate (demo_call env_ok) (mkInput "cat, dog" None None None None None None)].
    reflexivity. }
  split; [exact H|].
  destruct (snapshots_only_advance demo_rt (fun s => s) world_after_generate
              [CheckStatus "job_1714558830456_k3x9q0"; Settle 0 answer_ok demo_clock] H)
    as (Hun & _ & Hle).
  split; [exact Hun | exact Hle].
Defined.

Lemma status_views_are_consistent_witness :
  reachable demo_rt (fun s => s) world_after_generate
  /\ exists v,
       (checkStatus world_after_generate "job_1714558830456_k3x9q0").2 = Returns v
       /\ v_status v <> started.
Proof.
  assert (H : reachable demo_rt (fun s => s) world_after_generate).
  { exists [Generate (demo_call env_ok) (mkInput "cat, dog" None None None None None None)].
    reflexivity. }
  split; [exact H|].
  destruct ((checkStatus world_after_generate "job_1714558830456_k3x9q0").2)
    as [v|e|] eqn:Hv; [|vm_compute in Hv; discriminate..].
  exists v. split; [reflexivity|].
  destruct (status_views_are_consistent demo_rt (fun s => s) world_after_generate
              "job_1714558830456_k3x9q0" v H Hv) as [Hst _].
  exact Hst.
Defined.

Lemma stability_call_succeeds_iff_witness :
  let o := options_for "cat" "stability" in
  Js.toLowerCase (o_provider o) = "stability"
  /\ call_fate demo_rt env_ok o 0 "cat" = Completed.
Proof.
  cbn zeta.
  assert (H : Js.toLowerCase (o_provider (options_for "cat" "stability")) = "stability")
    by reflexivity.
  split; [exact H|].
  apply (stability_call_succeeds_iff demo_rt env_ok (options_for "cat" "stability") 0 "cat" H).
  split; [reflexivity|]. exists 4000, "PNG", 2.
  split; [reflexivity|]. split; [lia | reflexivity].
Defined.

Lemma listImages_lists_matching_files_witness :
  exists out,
    listImages demo_rt demo_fs None = Returns out
    /\ map li_filename out ≡ₚ image_files None demo_files
    /\ forall i j a b, (i <= j)%nat -> out !! i = Some a -> out !! j = Some b ->
         li_created b <= li_created a.
Proof.
  destruct (listImages demo_rt demo_fs None) as [out|e|] eqn:Hout;
    [|vm_compute in Hout; discriminate..].
  exists out. split; [reflexivity|].
  destruct (listImages_lists_matching_files demo_rt demo_fs None out Hout)
    as (files & Hfiles & Hperm & _ & _ & Hsorted).
  inversion Hfiles; subst files. split; [exact Hperm | exact Hsorted].
Defined.

(** no file of the directory has "owl" in its name *)
Lemma listImages_without_match_is_empty_witness :
  image_files (pattern_test demo_fs (Some "owl")) demo_files = []
  /\ listImages demo_rt demo_fs (Some "owl") = Returns [].
Proof.
  assert (H1 : untimed (fs_ensure demo_fs) = Some (inl tt)) by reflexivity.
  assert (H2 : untimed (fs_readdir demo_fs) = Some (inl demo_files)) by reflexivity.
  assert (H3 : Js.truthy_opt (Some "owl") = true ->
               exists t, new_RegExp_i demo_fs (default "" (Some "owl")) = inr t)
    by (intros _; eexists; reflexivity).
  assert (H4 : image_files (pattern_test demo_fs (Some "owl")) demo_files = [])
    by (vm_compute; reflexivity).
  split; [exact H4|].
  apply (listImages_without_match_is_empty demo_rt demo_fs (Some "owl") demo_files
           H1 H2 H3 H4).
Defined.

Lemma generated_files_are_listed_witness :
  exists out,
    listImages demo_rt demo_fs None = Returns out
    /\ item_filename "cat" "2024-05-01T10-20-30-456Z" ∈ demo_files
    /\ item_filename "cat" "2024-05-01T10-20-30-456Z" ∈ map li_filename out.
Proof.
  destruct (listImages demo_rt demo_fs None) as [out|e|] eqn:Hout;
    [|vm_compute in Hout; discriminate..].
  exists out. split; [reflexivity|].
  assert (H2 : untimed (fs_readdir demo_fs) = Some (inl demo_files)) by reflexivity.
  assert (H3 : item_filename "cat" "2024-05-01T10-20-30-456Z" ∈ demo_files).
  { apply list_elem_of_In. vm_compute. right. right. left. reflexivity. }
  split; [exact H3|].
  apply (generated_files_are_listed demo_rt demo_fs out demo_files "cat"
           "2024-05-01T10-20-30-456Z" Hout H2 H3).
Defined.

(** a Stability provider that takes 200 s to answer *)
Lemma stability_job_always_completes_witness :
  let wordList := parse_words "cat, dog" in
  let o := options_for "cat, dog" "stability" in
  let r := run_job demo_rt env_slow wordList o
                   "job_1714558830456_k3x9q0" "2024-05-01T10:20:30.456Z" in
  Js.toLowerCase (o_provider o) = "stability"
  /\ outcome_of r = Completed
  /\ length (results (final_of r)) = length wordList.
Proof.
  cbn zeta.
  assert (H1 : Js.toLowerCase (o_provider (options_for "cat, dog" "stability"))
               = "stability") by reflexivity.
  assert (H2 : forall i filepath data, net env_slow i (WriteFile filepath data) <> Never)
    by (intros i filepath data; discriminate).
  split; [exact H1|].
  destruct (stability_job_always_completes demo_rt env_slow (parse_words "cat, dog")
              (options_for "cat, dog" "stability")
              "job_1714558830456_k3x9q0" "2024-05-01T10:20:30.456Z" H1 H2)
    as (Hout & Hlen & _).
  split; [exact Hout | exact Hlen].
Defined.

Lemma buildPrompt_of_table_style_witness :
  own_property styles "cartoon"
  = Some "cartoon style, vibrant colors, exaggerated features, "
  /\ buildPrompt (object_proto demo_rt) "cat" "cartoon" "white"
     = "white background, cartoon style, vibrant colors, exaggerated features, , cat".
Proof.
  assert (H : own_property styles "cartoon"
              = Some "cartoon style, vibrant colors, exaggerated features, ")
    by reflexivity.
  split; [exact H|].
  apply (buildPrompt_of_table_style (object_proto demo_rt) "cat" "cartoon" "white" _ H).
Defined.
